(** * ecmarkup: the linking passes of [Spec.build]

    A shallow embedding of the parts of ecmarkup's [Spec] class that number
    replacement algorithms, walk the document, build the reference graph and
    sequence the build, together with the [H1] and [Grammar] builders.

    DOM nodes and JavaScript objects are mutable and shared; the embedding
    names each of them by a natural number and keeps their fields in finite
    maps (stores), so that two references to one object see one value. *)

From Stdlib Require Import ZArith Ascii String List Lia.
From stdpp Require Import base option list gmap strings pretty fin_maps.

Local Open Scope string_scope.
Local Open Scope list_scope.
Local Open Scope nat_scope.

(** ** Outcomes of JavaScript code

    A call either completes, throws (a [TypeError] on [undefined], or the
    cancellation error of [prex]), or, in the fuelled definitions below,
    runs out of fuel. *)

Inductive Outcome (A : Type) : Type :=
| Done (a : A)
| Thrown (what : string)
| OutOfFuel.

Arguments Done {A} a.
Arguments Thrown {A} what.
Arguments OutOfFuel {A}.

Definition obind {A B : Type} (m : Outcome A) (k : A -> Outcome B) : Outcome B :=
  match m with
  | Done a => k a
  | Thrown w => Thrown w
  | OutOfFuel => OutOfFuel
  end.

#[global] Instance Outcome_bind : MBind Outcome :=
  fun A B k m => obind m k.
#[global] Instance Outcome_ret : MRet Outcome := @Done.

(** [nonNull what o] is the TypeScript [o!] followed by a use: a missing
    value throws at the use. *)
Definition nonNull {A : Type} (what : string) (o : option A) : Outcome A :=
  match o with
  | Some a => Done a
  | None => Thrown what
  end.

(** [for (let x of xs) body], threading the state and stopping on a throw. *)
Fixpoint forOf {A S : Type} (body : A -> S -> Outcome S) (xs : list A) (s : S)
  : Outcome S :=
  match xs with
  | [] => Done s
  | x :: rest => s' ← body x s; forOf body rest s'
  end.

(** ** Replacement algorithms: the data of [Spec] *)

Module Replacement.

(** Identity of an [emu-alg] element. *)
Abbreviation Element := nat.
(** Identity of a [StepBiblioEntry] object. *)
Abbreviation EntryRef := nat.

(** The [<ol>] that is [element.firstElementChild]: its [start] and
    its [classList]. *)
Record OList : Type := mkOList {
  start : Z;
  classList : list string
}.

Record StepBiblioEntry : Type := mkStep {
  id : string;
  stepNumbers : list Z
}.

(** What [biblio.byId] finds: a step entry (a shared object) or an entry of
    another [type]. *)
Inductive BiblioEntry : Type :=
| StepEntry (r : EntryRef)
| OtherEntry (type : string).

Inductive Warning : Type :=
| GlobalWarning (ruleId message : string)
| AttrWarning (node : Element) (attr ruleId message : string).

Record Spec : Type := mkSpec {
  rootLists : gmap Element OList;
  entries : gmap EntryRef StepBiblioEntry;
  biblio : gmap string BiblioEntry;
  replacementAlgorithmToContainedLabeledStepEntries : gmap Element (list EntryRef);
  labeledStepsToBeRectified : gset string;
  replacementAlgorithms : list (Element * string);
  warnings : list Warning;
  pending : gmap string (list Element)
}.

Definition with_rootList (e : Element) (o : OList) (s : Spec) : Spec :=
  mkSpec (<[e := o]> (rootLists s)) (entries s) (biblio s)
    (replacementAlgorithmToContainedLabeledStepEntries s)
    (labeledStepsToBeRectified s) (replacementAlgorithms s) (warnings s)
    (pending s).

Definition with_entry (r : EntryRef) (e : StepBiblioEntry) (s : Spec) : Spec :=
  mkSpec (rootLists s) (<[r := e]> (entries s)) (biblio s)
    (replacementAlgorithmToContainedLabeledStepEntries s)
    (labeledStepsToBeRectified s ∖ {[ id e ]}) (replacementAlgorithms s)
    (warnings s) (pending s).

Definition with_pending (p : gmap string (list Element)) (s : Spec) : Spec :=
  mkSpec (rootLists s) (entries s) (biblio s)
    (replacementAlgorithmToContainedLabeledStepEntries s)
    (labeledStepsToBeRectified s) (replacementAlgorithms s) (warnings s) p.

Definition warn (w : Warning) (s : Spec) : Spec :=
  mkSpec (rootLists s) (entries s) (biblio s)
    (replacementAlgorithmToContainedLabeledStepEntries s)
    (labeledStepsToBeRectified s) (replacementAlgorithms s)
    (warnings s ++ [w]) (pending s).

(** [DOMTokenList.add]: the token is added unless it is there. *)
Definition classList_add (c : string) (l : list string) : list string :=
  if decide (c ∈ l) then l else l ++ [c].

(** The class chosen by the [if] chain on [stepNumbers.length]. *)
Definition nestingClass (len : nat) : option string :=
  match len with
  | 0 | 1 => None
  | 2 => Some "nested-once"
  | 3 => Some "nested-twice"
  | 4 => Some "nested-thrice"
  | 5 => Some "nested-four-times"
  | _ => Some "nested-lots"
  end.

(** [stepNumbers[stepNumbers.length - 1]] stored into [start], a [long]
    attribute: the [undefined] of an empty array is stored as 0. *)
Definition lastStep (stepNumbers : list Z) : Z :=
  default 0%Z (last stepNumbers).

Definition setStart (stepNumbers : list Z) (o : OList) : OList :=
  mkOList (lastStep stepNumbers)
    (match nestingClass (length stepNumbers) with
     | Some c => classList_add c (classList o)
     | None => classList o
     end).

(** [[...stepNumbers, ...entry.stepNumbers.slice(1)]] *)
Definition rectified (stepNumbers own : list Z) : list Z :=
  stepNumbers ++ tail own.

(** The closure [setReplacementAlgorithmStart]. [pending] is the local map
    of [setReplacementAlgorithmOffsets], kept in the state. The recursion
    is on fuel: each inner call consumes an element of a list just removed
    from [pending]. The inner call reads [entry.stepNumbers] from the entry
    as it is then, an earlier inner call having had the chance to change
    it. *)
Fixpoint setReplacementAlgorithmStart (fuel : nat) (element : Element)
    (numbers : list Z) (s : Spec) : Outcome Spec :=
  match fuel with
  | O => OutOfFuel
  | S fuel' =>
    rootList ← nonNull "firstElementChild" (rootLists s !! element);
    let s := with_rootList element (setStart numbers rootList) s in
    contained ← nonNull "not iterable"
        (replacementAlgorithmToContainedLabeledStepEntries s !! element);
    forOf (fun (r : EntryRef) (s : Spec) =>
      entry ← nonNull "entry" (entries s !! r);
      let entry' := mkStep (id entry) (rectified numbers (stepNumbers entry)) in
      let s := with_entry r entry' s in
      match pending s !! id entry' with
      | Some todo =>
        let s := with_pending (delete (id entry') (pending s)) s in
        forOf (fun (replacementAlgorithm : Element) (s : Spec) =>
                 entry ← nonNull "entry" (entries s !! r);
                 setReplacementAlgorithmStart fuel' replacementAlgorithm
                   (stepNumbers entry) s)
              todo s
      | None => Done s
      end) contained s
  end.

(** One turn of the loop over the labelled step entries, with the
    recursive call named [again]. *)
Definition entryTurn (again : Element → list Z → Spec → Outcome Spec)
    (numbers : list Z) (r : EntryRef) (s : Spec) : Outcome Spec :=
  entry ← nonNull "entry" (entries s !! r);
  let entry' := mkStep (id entry) (rectified numbers (stepNumbers entry)) in
  let s := with_entry r entry' s in
  match pending s !! id entry' with
  | Some todo =>
    let s := with_pending (delete (id entry') (pending s)) s in
    forOf (fun (replacementAlgorithm : Element) (s : Spec) =>
             entry ← nonNull "entry" (entries s !! r);
             again replacementAlgorithm (stepNumbers entry) s) todo s
  | None => Done s
  end.

(** What a call may change: the same objects exist with the same ids, the
    tables built during the walk are as they were, [pending] and
    [labeledStepsToBeRectified] only lose members. *)
Record sameShape (s s' : Spec) : Prop := mkSameShape {
  shape_rootLists : ∀ e, is_Some (rootLists s' !! e) ↔ is_Some (rootLists s !! e);
  shape_ids : ∀ r, id <$> entries s' !! r = id <$> entries s !! r;
  shape_biblio : biblio s' = biblio s;
  shape_contained :
    replacementAlgorithmToContainedLabeledStepEntries s' =
    replacementAlgorithmToContainedLabeledStepEntries s;
  shape_declared : replacementAlgorithms s' = replacementAlgorithms s;
  shape_warnings : warnings s' = warnings s;
  shape_pending : pending s' ⊆ pending s;
  shape_labeled : labeledStepsToBeRectified s' ⊆ labeledStepsToBeRectified s
}.

(** The number of algorithms waiting in [pending]; it bounds the depth of
    the recursion above. *)
Definition pendingTotal (p : gmap string (list Element)) : nat :=
  sum_list_with (fun kl : string * list Element => length kl.2) (map_to_list p).

Definition quote : string := String (ascii_of_nat 34) EmptyString.

Definition hexDigit (n : nat) : ascii :=
  ascii_of_nat (if decide (n < 10) then 48 + n else 87 + n).

(** [JSON.stringify] of a string: quotes, backslashes and control
    characters are escaped. *)
Fixpoint JSON_escape (t : string) : string :=
  match t with
  | EmptyString => EmptyString
  | String c rest =>
    let n := nat_of_ascii c in
    (if decide (n = 34) then "\" +:+ quote
     else if decide (n = 92) then "\\"
     else if decide (n = 8) then "\b"
     else if decide (n = 12) then "\f"
     else if decide (n = 10) then "\n"
     else if decide (n = 13) then "\r"
     else if decide (n = 9) then "\t"
     else if decide (n < 32) then
       "\u00" +:+ String (hexDigit (n / 16)) (String (hexDigit (n mod 16)) EmptyString)
     else String c EmptyString) +:+ JSON_escape rest
  end.

Definition JSON_stringify (t : string) : string :=
  quote +:+ JSON_escape t +:+ quote.

Definition couldNotFind (element : Element) (target : string) : Warning :=
  AttrWarning element "replaces-step" "invalid-replacement"
    ("could not find step " +:+ JSON_stringify target).

Definition notAStep (element : Element) (type : string) : Warning :=
  AttrWarning element "replaces-step" "invalid-replacement"
    ("expected algorithm to replace a step, not a " +:+ type).

Definition ambiguous : Warning :=
  GlobalWarning "invalid-replacement"
    "could not unambiguously determine replacement algorithm offsets - do you have a cycle in your replacement algorithms?".

(** [pending.get(target)!.push(element)], after creating the list when the
    key is new. *)
Definition pushPending (target : string) (element : Element) (s : Spec) : Spec :=
  with_pending
    (<[target := default [] (pending s !! target) ++ [element]]> (pending s)) s.

(** One turn of the loop over [this.replacementAlgorithms]. *)
Definition declaration (d : Element * string) (s : Spec) : Outcome Spec :=
  let '(element, target) := d in
  if decide (target ∈ labeledStepsToBeRectified s) then
    Done (pushPending target element s)
  else
    match biblio s !! target with
    | None => Done (warn (couldNotFind element target) s)
    | Some (OtherEntry type) => Done (warn (notAStep element type) s)
    | Some (StepEntry r) =>
      targetEntry ← nonNull "entry" (entries s !! r);
      setReplacementAlgorithmStart (S (pendingTotal (pending s))) element
        (stepNumbers targetEntry) s
    end.

Definition reportPending (s : Spec) : Spec :=
  if decide (0 < size (pending s)) then warn ambiguous s else s.

Definition setReplacementAlgorithmOffsets (s : Spec) : Outcome Spec :=
  s' ← forOf declaration (replacementAlgorithms s) (with_pending ∅ s);
  Done (reportPending s').

(** [waitingOn p e]: the algorithm [e] sits in one of the lists of
    [pending]. *)
Definition waitingOn (p : gmap string (list Element)) (e : Element) : Prop :=
  ∃ k l, p !! k = Some l ∧ e ∈ l.

(** An algorithm can be numbered when its [<ol>] and its list of labelled
    steps are there. *)
Definition ready (s : Spec) (e : Element) : Prop :=
  is_Some (rootLists s !! e) ∧
  is_Some (replacementAlgorithmToContainedLabeledStepEntries s !! e).

Definition liveEntries (s : Spec) : Prop :=
  ∀ e l r, replacementAlgorithmToContainedLabeledStepEntries s !! e = Some l →
    r ∈ l → is_Some (entries s !! r).

(** The tables the walk has built are as they were, and the same objects
    exist with the same ids. *)
Record sameTables (s s' : Spec) : Prop := mkSameTables {
  tables_rootLists : ∀ e, is_Some (rootLists s' !! e) ↔ is_Some (rootLists s !! e);
  tables_ids : ∀ r, id <$> entries s' !! r = id <$> entries s !! r;
  tables_biblio : biblio s' = biblio s;
  tables_contained :
    replacementAlgorithmToContainedLabeledStepEntries s' =
    replacementAlgorithmToContainedLabeledStepEntries s;
  tables_declared : replacementAlgorithms s' = replacementAlgorithms s;
  tables_labeled : labeledStepsToBeRectified s' ⊆ labeledStepsToBeRectified s
}.

Definition isGlobal (w : Warning) : bool :=
  match w with
  | GlobalWarning _ _ => true
  | AttrWarning _ _ _ _ => false
  end.

(** No algorithm waits twice. *)
Definition pendingOnce (p : gmap string (list Element)) : Prop :=
  ∀ k1 k2 l1 l2 e, p !! k1 = Some l1 → p !! k2 = Some l2 →
    e ∈ l1 → e ∈ l2 → k1 = k2.

(** A labelled step lies in one algorithm. *)
Definition ownsDisjoint (s : Spec) : Prop :=
  ∀ e1 e2 l1 l2 r,
    replacementAlgorithmToContainedLabeledStepEntries s !! e1 = Some l1 →
    replacementAlgorithmToContainedLabeledStepEntries s !! e2 = Some l2 →
    r ∈ l1 → r ∈ l2 → e1 = e2.

(** [kept s s' e]: the algorithm [e] has in [s'] the numbering it has in
    [s]: the same [<ol>] and the same step entries. *)
Definition kept (s s' : Spec) (e : Element) : Prop :=
  rootLists s' !! e = rootLists s !! e ∧
  ∀ l r, replacementAlgorithmToContainedLabeledStepEntries s !! e = Some l →
    r ∈ l → entries s' !! r = entries s !! r.

Definition liveBiblio (s : Spec) : Prop :=
  ∀ t r, biblio s !! t = Some (StepEntry r) → is_Some (entries s !! r).

(** What the [emu-alg] builder leaves behind for this pass: every declared
    algorithm has its [<ol>] and its list of labelled step entries, and every
    reference to a step entry is to a live object. *)
Record prepared (s : Spec) : Prop := mkPrepared {
  prepared_ready : ∀ e t, (e, t) ∈ replacementAlgorithms s → ready s e;
  prepared_entries : liveEntries s;
  prepared_biblio : liveBiblio s
}.

(** A set [X] of algorithms that can never be numbered: each waits for a
    step that only algorithms of [X] contain (a cycle), or names a target
    that is no step at all. *)
Definition stuck (X : Element → Prop) (s : Spec) : Prop :=
  ∀ e t, (e, t) ∈ replacementAlgorithms s → X e →
    (t ∈ labeledStepsToBeRectified s ∧
     ∀ e' l r entry,
       replacementAlgorithmToContainedLabeledStepEntries s !! e' = Some l →
       r ∈ l → entries s !! r = Some entry → id entry = t → X e')
    ∨ (t ∉ labeledStepsToBeRectified s ∧ ∀ r, biblio s !! t ≠ Some (StepEntry r)).

(** The step ids the algorithms of [X] wait for. *)
Definition awaited (X : Element → Prop) (s : Spec) (t : string) : Prop :=
  t ∈ labeledStepsToBeRectified s ∧ ∃ e, X e ∧ (e, t) ∈ replacementAlgorithms s.

(** Algorithms of [X] wait under keys of [T] only. *)
Definition waitsUnder (X : Element → Prop) (T : string → Prop) (s : Spec) : Prop :=
  ∀ k l e, pending s !! k = Some l → e ∈ l → X e → T k.

(** A step whose id is in [T] lies in an algorithm of [X]. *)
Definition ownedBy (X : Element → Prop) (T : string → Prop) (s : Spec) : Prop :=
  ∀ e l r entry,
    replacementAlgorithmToContainedLabeledStepEntries s !! e = Some l →
    r ∈ l → entries s !! r = Some entry → T (id entry) → X e.

(** While the loop runs, every algorithm of [X] met so far waits. *)
Record stuckInvariant (X : Element → Prop) (s : Spec)
    (pre : list (Element * string)) (s1 : Spec) : Prop := mkStuckInvariant {
  stuck_tables : sameTables s s1;
  stuck_under : waitsUnder X (awaited X s) s1;
  stuck_labeled : ∀ t, awaited X s t → t ∈ labeledStepsToBeRectified s1;
  stuck_waits : ∀ e t, (e, t) ∈ pre → X e → t ∈ labeledStepsToBeRectified s →
      ∃ l, pending s1 !! t = Some l ∧ e ∈ l
}.

(** The state of the loop over the declarations when [pre] is done, for a
    pass started in [s]. *)
Record loopInvariant (s : Spec) (pre : list (Element * string)) (s1 : Spec)
  : Prop := mkLoopInvariant {
  loop_tables : sameTables s s1;
  loop_waiting : ∀ e, waitingOn (pending s1) e → e ∈ pre.*1;
  loop_once : pendingOnce (pending s1);
  loop_kept : ∀ e, waitingOn (pending s1) e ∨ e ∉ pre.*1 → kept s s1 e;
  loop_warnings :
    ∃ ws, warnings s1 = warnings s ++ ws ∧ Forall (λ w, isGlobal w = false) ws
}.

End Replacement.

Module ReplacementExamples.
Import Replacement.

(** The step [s1] lies in an ordinary algorithm at path [2,1]; algorithm 7
    replaces it and holds two labelled steps at local paths [1] and [2]. *)
Definition nested : Spec :=
  mkSpec {[ 7 := mkOList 1 [] ]}
    {[ 0 := mkStep "s1" [2%Z; 1%Z];
       1 := mkStep "a" [1%Z];
       2 := mkStep "b" [2%Z] ]}
    {[ "s1" := StepEntry 0; "a" := StepEntry 1; "b" := StepEntry 2 ]}
    {[ 7 := [1; 2] ]}
    {[ "a"; "b" ]}
    [(7, "s1")] [] ∅.

(** Two replacement algorithms, each replacing a step of the other:
    algorithm 1 holds step [a] and replaces [b], algorithm 2 holds step [b]
    and replaces [a]. *)
Definition cycle : Spec :=
  mkSpec {[ 1 := mkOList 1 []; 2 := mkOList 1 [] ]}
    {[ 10 := mkStep "a" [1%Z]; 20 := mkStep "b" [1%Z] ]}
    {[ "a" := StepEntry 10; "b" := StepEntry 20 ]}
    {[ 1 := [10]; 2 := [20] ]}
    {[ "a"; "b" ]}
    [(1, "b"); (2, "a")] [] ∅.

Definition inCycle (e : Element) : Prop := e = 1 ∨ e = 2.

(** An algorithm whose target is not in the biblio, and one whose target
    is a clause. *)
Definition mistargeted : Spec :=
  mkSpec {[ 1 := mkOList 1 []; 2 := mkOList 1 [] ]}
    {[ 10 := mkStep "a" [1%Z]; 20 := mkStep "b" [1%Z] ]}
    {[ "sec-x" := OtherEntry "clause" ]}
    {[ 1 := [10]; 2 := [20] ]}
    {[ "a"; "b" ]}
    [(1, "nowhere"); (2, "sec-x")] [] ∅.

End ReplacementExamples.

(** ** The walk of the document *)

Module Walk.

(** Identity of a DOM node: a node of the parsed document, or the [i]-th
    anchor [<span>] made for the [oldids] of an element. *)
Inductive NodeRef : Type :=
| Parsed (n : nat)
| Anchor (parent : nat) (i : nat).

#[global] Instance NodeRef_eq_dec : EqDecision NodeRef.
Proof. solve_decision. Defined.

(** The tree as the walker meets it. A text node carries the nodes that
    [utils.emdTextNode] puts after it when it is expanded; an element
    carries its child nodes, those that builders insert ahead of the walker
    included. *)
Inductive Node : Type :=
| Text (n : nat) (textContent : string) (emd : list Node)
| Element (n : nat) (nodeName : string) (attributes : list (string * string))
    (childNodes : list Node).

Definition ref (x : Node) : NodeRef :=
  match x with
  | Text n _ _ => Parsed n
  | Element n _ _ _ => Parsed n
  end.

(** A [Clause] object, with the two fields this code reads or writes. *)
Record Clause : Type := mkClause {
  namespace : string;
  header : option NodeRef
}.

(** Identity of a [Clause] object. *)
Abbreviation ClauseRef := nat.

(** An entry of [spec._textNodes]; [clause] is [None] when it is the
    [Spec] itself. *)
Record TextNodeContext : Type := mkTextNodeContext {
  tn_clause : option ClauseRef;
  tn_node : NodeRef;
  tn_inAlg : bool;
  tn_currentId : option string
}.

(** The [Context] threaded through the walk, with the parts of [spec] it
    reaches: the namespace of the document, [_textNodes] and the [Clause]
    objects. *)
Record Context : Type := mkContext {
  spec_namespace : string;
  _textNodes : gmap string (list TextNodeContext);
  clauses : gmap ClauseRef Clause;
  node : NodeRef;
  clauseStack : list ClauseRef;
  tagStack : list NodeRef;
  inNoAutolink : bool;
  inAlg : bool;
  inNoEmd : bool;
  startEmd : option NodeRef;
  currentId : option string
}.

Definition set_textNodes (t : gmap string (list TextNodeContext)) (c : Context) :=
  mkContext (spec_namespace c) t (clauses c) (node c) (clauseStack c)
    (tagStack c) (inNoAutolink c) (inAlg c) (inNoEmd c) (startEmd c) (currentId c).
Definition set_clauses (cl : gmap ClauseRef Clause) (c : Context) :=
  mkContext (spec_namespace c) (_textNodes c) cl (node c) (clauseStack c)
    (tagStack c) (inNoAutolink c) (inAlg c) (inNoEmd c) (startEmd c) (currentId c).
Definition set_node (n : NodeRef) (c : Context) :=
  mkContext (spec_namespace c) (_textNodes c) (clauses c) n (clauseStack c)
    (tagStack c) (inNoAutolink c) (inAlg c) (inNoEmd c) (startEmd c) (currentId c).
Definition set_clauseStack (st : list ClauseRef) (c : Context) :=
  mkContext (spec_namespace c) (_textNodes c) (clauses c) (node c) st
    (tagStack c) (inNoAutolink c) (inAlg c) (inNoEmd c) (startEmd c) (currentId c).
Definition set_tagStack (st : list NodeRef) (c : Context) :=
  mkContext (spec_namespace c) (_textNodes c) (clauses c) (node c) (clauseStack c)
    st (inNoAutolink c) (inAlg c) (inNoEmd c) (startEmd c) (currentId c).
Definition set_inNoAutolink (b : bool) (c : Context) :=
  mkContext (spec_namespace c) (_textNodes c) (clauses c) (node c) (clauseStack c)
    (tagStack c) b (inAlg c) (inNoEmd c) (startEmd c) (currentId c).
Definition set_inNoEmd (b : bool) (c : Context) :=
  mkContext (spec_namespace c) (_textNodes c) (clauses c) (node c) (clauseStack c)
    (tagStack c) (inNoAutolink c) (inAlg c) b (startEmd c) (currentId c).
Definition set_startEmd (n : option NodeRef) (c : Context) :=
  mkContext (spec_namespace c) (_textNodes c) (clauses c) (node c) (clauseStack c)
    (tagStack c) (inNoAutolink c) (inAlg c) (inNoEmd c) n (currentId c).
Definition set_currentId (i : option string) (c : Context) :=
  mkContext (spec_namespace c) (_textNodes c) (clauses c) (node c) (clauseStack c)
    (tagStack c) (inNoAutolink c) (inAlg c) (inNoEmd c) (startEmd c) i.

(** *** Strings *)

(** The white space of [String.prototype.trim] among the characters below
    U+0100. *)
Definition isWhiteSpace (c : ascii) : bool :=
  let n := nat_of_ascii c in
  (9 <=? n) && (n <=? 13) || (n =? 32) || (n =? 160).

Fixpoint trimStart (t : string) : string :=
  match t with
  | String c rest => if isWhiteSpace c then trimStart rest else t
  | EmptyString => EmptyString
  end.

Definition trim (t : string) : string :=
  String.rev (trimStart (String.rev (trimStart t))).

(** Empty, or white space and nothing else. *)
Fixpoint blank (t : string) : bool :=
  match t with
  | String c rest => isWhiteSpace c && blank rest
  | EmptyString => true
  end.

(** [t.split(/,/g)] *)
Fixpoint split_comma (t : string) : list string :=
  match t with
  | EmptyString => [EmptyString]
  | String c rest =>
    if Ascii.eqb c "," then EmptyString :: split_comma rest
    else match split_comma rest with
         | piece :: pieces => String c piece :: pieces
         | [] => [String c EmptyString]
         end
  end.

Definition getAttribute (name : string) (attributes : list (string * string))
  : option string :=
  snd <$> List.find (fun kv => String.eqb (fst kv) name) attributes.

(** *** Builders *)

(** What a builder is given: the element the walker is at. *)
Record ElementInfo : Type := mkElementInfo {
  el_ref : NodeRef;
  el_nodeName : string;
  el_attributes : list (string * string)
}.

Record BuilderInterface : Type := mkBuilder {
  elements : list string;
  enter : ElementInfo → Context → Context;
  exit : ElementInfo → Context → Context
}.

(** [H1.enter]: the clause on top of the stack takes this heading as its
    header unless it has one. *)
Definition H1_enter (el : ElementInfo) (ctx : Context) : Context :=
  match last (clauseStack ctx) with
  | Some clause =>
    match clauses ctx !! clause with
    | Some c =>
      match header c with
      | None => set_clauses (<[clause := mkClause (namespace c) (Some (el_ref el))]>
                               (clauses ctx)) ctx
      | Some _ => ctx
      end
    | None => ctx
    end
  | None => ctx
  end.

(** [H1] has no [exit] of its own; the one of [Builder] does nothing. *)
Definition H1 : BuilderInterface := mkBuilder ["H1"] H1_enter (fun _ ctx => ctx).

(** Modelled from the spec: the clause builder (Clause.ts is not among the
    sources). Entering a clause-kind element pushes a new clause on the clause
    stack; leaving it pops the stack. The new clause has no header yet; its
    namespace is the one given on the element, or that of the enclosing
    clause, or that of the document. *)
Definition Clause_enter (el : ElementInfo) (ctx : Context) : Context :=
  match el_ref el with
  | Parsed n =>
    let inherited :=
      match last (clauseStack ctx) ≫= (fun parent => clauses ctx !! parent) with
      | Some parent => namespace parent
      | None => spec_namespace ctx
      end in
    let ns := default inherited (getAttribute "namespace" (el_attributes el)) in
    set_clauseStack (clauseStack ctx ++ [n])
      (set_clauses (<[n := mkClause ns None]> (clauses ctx)) ctx)
  | Anchor _ _ => ctx
  end.

Definition Clause_exit (el : ElementInfo) (ctx : Context) : Context :=
  set_clauseStack (removelast (clauseStack ctx)) ctx.

Definition ClauseBuilder : BuilderInterface :=
  mkBuilder ["EMU-INTRO"; "EMU-CLAUSE"; "EMU-ANNEX"] Clause_enter Clause_exit.

(** [builders.reduce(...)]: each builder is entered under each of its
    element names; a later builder replaces an earlier one. *)
Definition visitorMapOf (builders : list BuilderInterface)
  : gmap string BuilderInterface :=
  foldl (fun map T => foldl (fun map e => <[e := T]> map) map (elements T))
    ∅ builders.

(** The builders keep their hands off the flag [flag] of the context. *)
Definition buildersKeep {A : Type} (flag : Context → A)
    (visitorMap : gmap string BuilderInterface) : Prop :=
  ∀ name v el ctx, visitorMap !! name = Some v →
    flag (enter v el ctx) = flag ctx ∧ flag (exit v el ctx) = flag ctx.

(** Autolinking is suppressed and [_textNodes] is [t]. *)
Definition quiet (t : gmap string (list TextNodeContext)) (c : Context) : Prop :=
  inNoAutolink c = true ∧ _textNodes c = t.

Definition NO_EMD : gset string :=
  {[ "PRE"; "CODE"; "EMU-PRODUCTION"; "EMU-ALG"; "EMU-GRAMMAR"; "EMU-EQN" ]}.

(** *** [walk] *)

Section Walker.

(** [NO_CLAUSE_AUTOLINK] is imported from the autolinker, and the builders
    other than [H1] and [Grammar] from their own files. *)
Variable NO_CLAUSE_AUTOLINK : gset string.
Variable visitorMap : gmap string BuilderInterface.

(** The first statements of [walk]: the walker's node becomes the
    context's, goes on the tag stack, and ends an expansion that was to
    resume at it. *)
Definition arrive (x : NodeRef) (ctx : Context) : Context :=
  let ctx := set_tagStack (x :: tagStack ctx) (set_node x ctx) in
  if decide (startEmd ctx = Some x)
  then set_inNoEmd false (set_startEmd None ctx)
  else ctx.

(** [resume] is the next sibling of the nearest of the node and its
    ancestors that has one, which the loop over [parentNode] finds. *)
Definition expand (resume : option NodeRef) (ctx : Context) : Context :=
  let ctx := set_inNoEmd true ctx in
  match resume with
  | Some next => set_startEmd (Some next) ctx
  | None => ctx
  end.

Definition namespaceOf (clause : option ClauseRef) (ctx : Context) : string :=
  match clause ≫= (fun c => clauses ctx !! c) with
  | Some c => namespace c
  | None => spec_namespace ctx
  end.

(** [spec._textNodes[namespace].push(...)], after creating the list. *)
Definition remember (x : NodeRef) (ctx : Context) : Context :=
  let clause := last (clauseStack ctx) in
  let namespace := namespaceOf clause ctx in
  set_textNodes
    (<[namespace := default [] (_textNodes ctx !! namespace) ++
         [mkTextNodeContext clause x (inAlg ctx) (currentId ctx)]]>
       (_textNodes ctx)) ctx.

(** The branch of [walk] for a text node; the boolean tells whether the
    node was expanded. *)
Definition text (x : NodeRef) (textContent : string) (resume : option NodeRef)
    (ctx : Context) : Context * bool :=
  let ctx := arrive x ctx in
  if decide (String.length (trim textContent) = 0) then (ctx, false)
  else
    let expanded := negb (inNoEmd ctx) in
    let ctx := if expanded then expand resume ctx else ctx in
    let ctx := if inNoAutolink ctx then ctx else remember x ctx in
    (ctx, expanded).

(** The branch of [walk] for an element, around the visit of its child
    nodes; [children] is [None] when [walker.firstChild()] finds none. The
    tag stack has its top at the head of the list. *)
Definition element (el : ElementInfo) (children : option (Context → Context))
    (ctx : Context) : Context :=
  let ctx := arrive (el_ref el) ctx in
  let parentId := currentId ctx in
  let ctx :=
    match getAttribute "id" (el_attributes el) with
    | Some i => set_currentId (Some i) ctx
    | None => ctx
    end in
  let changedInNoAutolink :=
    bool_decide (el_nodeName el ∈ NO_CLAUSE_AUTOLINK) && negb (inNoAutolink ctx) in
  let ctx := if changedInNoAutolink then set_inNoAutolink true ctx else ctx in
  let changedInNoEmd :=
    bool_decide (el_nodeName el ∈ NO_EMD) && negb (inNoEmd ctx) in
  let ctx := if changedInNoEmd then set_inNoEmd true ctx else ctx in
  let visitor := visitorMap !! el_nodeName el in
  let ctx := match visitor with Some v => enter v el ctx | None => ctx end in
  let ctx :=
    match children with
    | Some visit => set_node (el_ref el) (visit ctx)
    | None => ctx
    end in
  let ctx := match visitor with Some v => exit v el ctx | None => ctx end in
  let ctx := if changedInNoAutolink then set_inNoAutolink false ctx else ctx in
  let ctx := if changedInNoEmd then set_inNoEmd false ctx else ctx in
  set_tagStack (tail (tagStack ctx)) (set_currentId parentId ctx).

(** The anchors made for [oldids], in the order they have among the child
    nodes: each is inserted before the first child. They are met by the
    walker as the first children of the element; a builder that replaces the
    content of its element would take them away again, which builders, being
    functions of the context here, do not. *)
Definition anchors (n : nat) (attributes : list (string * string))
  : list ElementInfo :=
  match getAttribute "oldids" attributes with
  | Some oldids =>
    if decide (oldids = EmptyString) then []
    else rev (imap (fun i oid => mkElementInfo (Anchor n i) "SPAN" [("id", oid)])
                (trim <$> split_comma oldids))
  | None => []
  end.

Definition nextSibling (rest : list Node) (resume : option NodeRef)
  : option NodeRef :=
  match rest with
  | next :: _ => Some (ref next)
  | [] => resume
  end.

(** The loop over [walker.nextSibling()]. *)
Definition siblings (walk : Node → option NodeRef → Context → Context)
  : list Node → option NodeRef → Context → Context :=
  fix loop (nodes : list Node) (resume : option NodeRef) (ctx : Context) :=
    match nodes with
    | [] => ctx
    | x :: rest => loop rest resume (walk x (nextSibling rest resume) ctx)
    end.

(** [walk], at a node and then at the nodes its expansion has put after
    it, which the loop of the parent meets next. *)
Fixpoint walk (x : Node) (resume : option NodeRef) (ctx : Context) : Context :=
  match x with
  | Text n textContent emd =>
    let '(ctx, expanded) := text (Parsed n) textContent resume ctx in
    if expanded then siblings walk emd resume ctx else ctx
  | Element n nodeName attributes childNodes =>
    let spans := anchors n attributes in
    let children :=
      match spans, childNodes with
      | [], [] => None
      | _, _ =>
        Some (fun ctx =>
          siblings walk childNodes resume
            (foldl (fun ctx span => element span None ctx) ctx spans))
      end in
    element (mkElementInfo (Parsed n) nodeName attributes) children ctx
  end.

(** The visit of the child nodes of an element: the anchors, then the
    nodes that were there. *)
Definition visitChildren (n : nat) (attributes : list (string * string))
    (childNodes : list Node) (resume : option NodeRef) (ctx : Context) : Context :=
  siblings walk childNodes resume
    (foldl (fun ctx span => element span None ctx) ctx (anchors n attributes)).

End Walker.

End Walk.

Module WalkExamples.
Import Walk.

Definition start : Context :=
  mkContext "<no location>" ∅ ∅ (Parsed 0) [] [] false false false None None.

(** [<p>x</p>] *)
Definition paragraph : Node := Element 1 "P" [] [Text 2 "x" []].

(** [<pre>x</pre><p>y</p>] inside a [<div>]. *)
Definition preformatted : Node :=
  Element 1 "DIV" []
    [Element 2 "PRE" [] [Text 3 "x" []]; Element 4 "P" [] [Text 5 "y" []]].

(** The two builders at hand, registered as [Spec] registers builders. *)
Definition clauseAndH1 : gmap string BuilderInterface :=
  visitorMapOf [ClauseBuilder; H1].

(** A clause whose only heading lies inside a [<div>]. *)
Definition wrappedHeading : Node :=
  Element 1 "EMU-CLAUSE" [] [Element 2 "DIV" [] [Element 3 "H1" [] []]].

(** A clause that opens with a nested clause and has its heading after
    it. *)
Definition lateHeading : Node :=
  Element 1 "EMU-CLAUSE" []
    [Element 2 "EMU-CLAUSE" [] [Element 3 "H1" [] []];
     Element 4 "H1" [] []].

(** A clause with two headings. *)
Definition twoHeadings : Node :=
  Element 1 "EMU-CLAUSE" [] [Element 2 "H1" [] []; Element 3 "H1" [] []].

End WalkExamples.

(** ** The build *)

Module Build.

(** The steps of [Spec.build], in the words of its log lines and method
    names. *)
Inductive Phase : Type :=
| LoadECMA262Biblio | LoadBiblios | LoadImports | BuildBoilerplate | Lint
| WalkDocument | SetReplacementAlgorithmOffsets | Autolink
| LinkXrefs | LinkNtRefs | LinkProdRefs | BuildReferenceGraph
| HighlightCode | SetCharset | SetFirstH1Class | BuildSpecWrapper
| BuildToc | BuildMenu | BuildAssets.

#[global] Instance Phase_eq_dec : EqDecision Phase.
Proof. solve_decision. Defined.

(** The options [build] reads. [sourceText] tells whether the source text
    is there for the linter. *)
Record Options : Type := mkOptions {
  ecma262Biblio : bool;
  lintSpec : bool;
  sourceText : bool;
  toc : bool;
  oldToc : bool
}.

(** What lies outside the build: whether cancellation has been requested
    by the time a step starts, and the error, if any, that the work of a
    step throws (a failed fetch, a builder that throws). *)
Record World : Type := mkWorld {
  cancellationRequested : Phase → bool;
  fails : Phase → option string
}.

(** How a build ends. [steps] are the steps whose work was started, in
    order. *)
Inductive Ending : Type :=
| Returned
| Cancelled
| Failed (error : string).

Record Run : Type := mkRun { ending : Ending; steps : list Phase }.

(** A build in progress: the steps started so far, or the way it ended. *)
Definition Building : Type := list Phase + Run.

(** [await first; next]. *)
Definition andThen (first : list Phase → Building) (b : Building) : Building :=
  match b with
  | inl started => first started
  | inr ended => inr ended
  end.

(** [this.cancellationToken.throwIfCancellationRequested()] at the start
    of step [p]. *)
Definition throwIfCancellationRequested (w : World) (p : Phase)
    (started : list Phase) : Building :=
  if cancellationRequested w p then inr (mkRun Cancelled started)
  else inl started.

(** The work of step [p]. *)
Definition work (w : World) (p : Phase) (started : list Phase) : Building :=
  match fails w p with
  | Some error => inr (mkRun (Failed error) (started ++ [p]))
  | None => inl (started ++ [p])
  end.

Definition loadECMA262Biblio (w : World) (started : list Phase) : Building :=
  andThen (work w LoadECMA262Biblio)
    (throwIfCancellationRequested w LoadECMA262Biblio started).

Definition loadBiblios (w : World) (started : list Phase) : Building :=
  andThen (work w LoadBiblios)
    (throwIfCancellationRequested w LoadBiblios started).

Definition loadImports (w : World) (started : list Phase) : Building :=
  work w LoadImports started.

Definition buildBoilerplate (w : World) (started : list Phase) : Building :=
  andThen (work w BuildBoilerplate)
    (throwIfCancellationRequested w BuildBoilerplate started).

Definition lint (o : Options) (w : World) (started : list Phase) : Building :=
  if lintSpec o then
    if sourceText o then work w Lint started
    else inr (mkRun (Failed "Cannot lint when source text is not available") started)
  else inl started.

Definition buildToc (o : Options) (w : World) (started : list Phase) : Building :=
  if toc o then
    if oldToc o then work w BuildToc started else work w BuildMenu started
  else inl started.

Definition sequence (steps : list (list Phase → Building)) (b : Building)
  : Building :=
  foldl (fun b step => andThen step b) b steps.

(** [build], statement by statement. *)
Definition build (o : Options) (w : World) : Run :=
  match
    sequence
      [ (fun started =>
           if ecma262Biblio o then loadECMA262Biblio w started else inl started);
        loadBiblios w;
        loadImports w;
        buildBoilerplate w;
        lint o w;
        work w WalkDocument;
        work w SetReplacementAlgorithmOffsets;
        work w Autolink;
        work w LinkXrefs;
        work w LinkNtRefs;
        work w LinkProdRefs;
        work w BuildReferenceGraph;
        work w HighlightCode;
        work w SetCharset;
        work w SetFirstH1Class;
        work w BuildSpecWrapper;
        buildToc o w;
        work w BuildAssets ]
      (inl [])
  with
  | inl started => mkRun Returned started
  | inr ended => ended
  end.

(** The passes from the walk to the reference graph, in the order
    [build] has them. *)
Definition linking : list Phase :=
  [WalkDocument; SetReplacementAlgorithmOffsets; Autolink;
   LinkXrefs; LinkNtRefs; LinkProdRefs; BuildReferenceGraph].

(** The steps before the walk and after the reference graph, under the
    options [o]. *)
Definition early (o : Options) : list Phase :=
  (if ecma262Biblio o then [LoadECMA262Biblio] else []) ++
  [LoadBiblios; LoadImports; BuildBoilerplate] ++
  (if lintSpec o then [Lint] else []).

Definition late (o : Options) : list Phase :=
  [HighlightCode; SetCharset; SetFirstH1Class; BuildSpecWrapper] ++
  (if toc o then [if oldToc o then BuildToc else BuildMenu] else []) ++
  [BuildAssets].

(** [extends plan step]: started anywhere, [step] goes through [plan] or
    ends the build, not by returning, within it. *)
Definition extends (plan : list Phase) (step : list Phase → Building) : Prop :=
  ∀ started,
    step started = inl (started ++ plan) ∨
    ∃ e done, step started = inr (mkRun e (started ++ done)) ∧
              done `prefix_of` plan ∧ e ≠ Returned.

(** The place of a step in a run. *)
Fixpoint position (p : Phase) (steps : list Phase) : option nat :=
  match steps with
  | [] => None
  | q :: rest => if decide (p = q) then Some 0 else S <$> position p rest
  end.

(** The options [Spec] takes when none are given. *)
Definition defaults : Options := mkOptions true false true true false.

(** Nothing fails, and cancellation is requested once the walk is over. *)
Definition lateCancellation : World :=
  mkWorld
    (fun p =>
       match p with
       | LoadECMA262Biblio | LoadBiblios | LoadImports | BuildBoilerplate
       | Lint | WalkDocument => false
       | _ => true
       end)
    (fun _ => None).

(** Nothing fails, and cancellation is requested once the biblios are
    loaded. *)
Definition cancelledBeforeImports : World :=
  mkWorld
    (fun p =>
       match p with
       | LoadECMA262Biblio | LoadBiblios => false
       | _ => true
       end)
    (fun _ => None).

(** Nothing fails and nothing is cancelled. *)
Definition calm : World := mkWorld (fun _ => false) (fun _ => None).

(** Cancellation is requested from the start. *)
Definition cancelledAtOnce : World := mkWorld (fun _ => true) (fun _ => None).

End Build.

(** ** The reference graph *)

Module References.

Abbreviation NodeId := nat.
Abbreviation XrefRef := nat.
Abbreviation EntryRef := nat.

(** A biblio entry, with the fields [buildReferenceGraph] reads. *)
Record BiblioEntry : Type := mkEntry {
  id : option string;
  refId : option string;
  namespace : string;
  referencingIds : list string
}.

(** An [Xref] object: its node, its id and the entry it resolved to. *)
Record Xref : Type := mkXref {
  xref_node : NodeId;
  xref_id : option string;
  xref_entry : option EntryRef
}.

(** A [NonTerminal] object; [nt_parent] is [node.parentNode.nodeName]. *)
Record NonTerminal : Type := mkNonTerminal {
  nt_node : NodeId;
  nt_entry : option EntryRef;
  nt_parent : string
}.

Record Spec : Type := mkSpec {
  entries : gmap EntryRef BiblioEntry;
  byId : gmap string EntryRef;
  xrefs : gmap XrefRef Xref;
  _xrefs : list XrefRef;
  _ntRefs : list NonTerminal;
  idAttribute : gmap NodeId string;
  counter : nat
}.

Definition set_counter (n : nat) (s : Spec) : Spec :=
  mkSpec (entries s) (byId s) (xrefs s) (_xrefs s) (_ntRefs s) (idAttribute s) n.

(** A string that is there and not empty. *)
Definition truthy (o : option string) : bool :=
  match o with
  | Some t => negb (String.eqb t EmptyString)
  | None => false
  end.

(** The template literal with the counter in it. *)
Definition refName (n : nat) : string := "_ref_" +:+ pretty n.

(** [node.setAttribute('id', id)]. *)
Definition setIdAttribute (n : NodeId) (i : string) (s : Spec) : Spec :=
  mkSpec (entries s) (byId s) (xrefs s) (_xrefs s) (_ntRefs s)
    (<[n := i]> (idAttribute s)) (counter s).

(** [entry.referencingIds.push(i)]. *)
Definition pushReferencingId (e : EntryRef) (i : string) (s : Spec)
  : Outcome Spec :=
  entry ← nonNull "referencingIds of undefined" (entries s !! e);
  Done (mkSpec
          (<[e := mkEntry (id entry) (refId entry) (namespace entry)
                    (referencingIds entry ++ [i])]> (entries s))
          (byId s) (xrefs s) (_xrefs s) (_ntRefs s) (idAttribute s) (counter s)).

(** The id of an xref after the [if (!xref.id)] block, with the state. *)
Definition ensureId (x : XrefRef) (xref : Xref) (s : Spec) : string * Spec :=
  if truthy (xref_id xref) then (default EmptyString (xref_id xref), s)
  else
    let i := refName (counter s) in
    let s := setIdAttribute (xref_node xref) i (set_counter (S (counter s)) s) in
    (i, mkSpec (entries s) (byId s)
          (<[x := mkXref (xref_node xref) (Some i) (xref_entry xref)]> (xrefs s))
          (_xrefs s) (_ntRefs s) (idAttribute s) (counter s)).

(** The entry that takes the back-reference: the one named by [refId]
    when the entry of the xref has no id of its own. *)
Definition resolved (e : EntryRef) (entry : BiblioEntry) (s : Spec)
  : option EntryRef :=
  if negb (truthy (id entry)) && truthy (refId entry)
  then refId entry ≫= (fun r => byId s !! r)
  else Some e.

(** One turn of [this._xrefs.forEach]. *)
Definition xrefTurn (x : XrefRef) (s : Spec) : Outcome Spec :=
  xref ← nonNull "xref" (xrefs s !! x);
  match xref_entry xref ≫= (fun e => pair e <$> entries s !! e) with
  | None => Done s
  | Some (e, entry) =>
    if decide (namespace entry = "global") then Done s
    else
      let target := resolved e entry s in
      let '(i, s) := ensureId x xref s in
      target ← nonNull "referencingIds of undefined" target;
      pushReferencingId target i s
  end.

(** One turn of [this._ntRefs.forEach]. *)
Definition ntTurn (prod : NonTerminal) (s : Spec) : Outcome Spec :=
  match nt_entry prod ≫= (fun e => pair e <$> entries s !! e) with
  | None => Done s
  | Some (e, entry) =>
    if decide (namespace entry = "global") then Done s
    else if decide (nt_parent prod = "EMU-PRODUCTION") then Done s
    else
      let i := refName (counter s) in
      let s := setIdAttribute (nt_node prod) i (set_counter (S (counter s)) s) in
      pushReferencingId e i s
  end.

Definition buildReferenceGraph (s : Spec) : Outcome Spec :=
  s ← forOf xrefTurn (_xrefs s) (set_counter 0 s);
  forOf ntTurn (_ntRefs s) s.

(** A document with one term of its own and one term of an imported
    biblio; xref 0 points at the imported term, xref 1 at the local one and
    xref 2, which has an id, at the local one too; a non-terminal reference
    points at the local entry. *)
Definition sample : Spec :=
  mkSpec
    {[ 0 := mkEntry (Some "sec-imported") None "global" [];
       1 := mkEntry (Some "sec-local") None "https://example.org/spec" [] ]}
    {[ "sec-imported" := 0; "sec-local" := 1 ]}
    {[ 0 := mkXref 10 None (Some 0);
       1 := mkXref 11 None (Some 1);
       2 := mkXref 12 (Some "mine") (Some 1) ]}
    [0; 1; 2]
    [mkNonTerminal 13 (Some 1) "P"]
    ∅ 7.

End References.

(** ** The grammar builder *)

Module Grammar.

(** *** The regular expression

    [endTagRe] is
    [/<\/?(emu-\w+|h?\d|p|ul|table|pre|code)\b[^>]*>/i]; [globalEndTagRe] is
    the same with the [g] flag. A match at the head of [t] is found as the
    regular expression finds it, part after part. *)

Definition isDigit (c : ascii) : bool :=
  let n := nat_of_ascii c in (48 <=? n) && (n <=? 57).

Definition isUpper (c : ascii) : bool :=
  let n := nat_of_ascii c in (65 <=? n) && (n <=? 90).

Definition isLower (c : ascii) : bool :=
  let n := nat_of_ascii c in (97 <=? n) && (n <=? 122).

(** [\w] *)
Definition isWord (c : ascii) : bool :=
  isDigit c || isUpper c || isLower c || (nat_of_ascii c =? 95).

(** The letters compare without case under the [i] flag. *)
Definition lower (c : ascii) : ascii :=
  if isUpper c then ascii_of_nat (nat_of_ascii c + 32) else c.

(** The rest of [t] after the literal [lit], when [t] starts with it. *)
Fixpoint literal (lit t : string) : option string :=
  match lit, t with
  | EmptyString, _ => Some t
  | String a lit', String b t' =>
    if Ascii.eqb (lower a) (lower b) then literal lit' t' else None
  | String _ _, EmptyString => None
  end.

(** [\w+], greedy: the rest after the longest run of word characters, when
    the run is not empty. A shorter run would leave a word character next,
    where [\b] cannot hold. *)
Fixpoint afterWord (t : string) : string :=
  match t with
  | String c t' => if isWord c then afterWord t' else t
  | EmptyString => EmptyString
  end.

Definition word (t : string) : option string :=
  match t with
  | String c t' => if isWord c then Some (afterWord t') else None
  | EmptyString => None
  end.

(** [\b] after a word character: the text ends or goes on with a
    character that is no word character. *)
Definition boundary (t : string) : bool :=
  match t with
  | String c _ => negb (isWord c)
  | EmptyString => true
  end.

(** [[^>]*>]: a [>] comes, after any characters. *)
Fixpoint closes (t : string) : bool :=
  match t with
  | String c t' => Ascii.eqb c ">" || closes t'
  | EmptyString => false
  end.

(** [\b[^>]*>], what follows the name. *)
Definition afterName (t : string) : bool := boundary t && closes t.

Definition named (lit t : string) : bool :=
  match literal lit t with
  | Some rest => afterName rest
  | None => false
  end.

(** [emu-\w+] *)
Definition emuName (t : string) : bool :=
  match literal "emu-" t ≫= word with
  | Some rest => afterName rest
  | None => false
  end.

(** [\d] *)
Definition digit (t : string) : bool :=
  match t with
  | String c rest => isDigit c && afterName rest
  | EmptyString => false
  end.

(** [h?\d]: with the [h], or failing that without. *)
Definition headingName (t : string) : bool :=
  match literal "h" t with
  | Some rest => digit rest
  | None => false
  end || digit t.

(** [(emu-\w+|h?\d|p|ul|table|pre|code)] and what follows. *)
Definition name (t : string) : bool :=
  emuName t || headingName t || named "p" t || named "ul" t ||
  named "table" t || named "pre" t || named "code" t.

(** [<\/?]: with the slash when there is one, or failing that without. *)
Definition tag (t : string) : bool :=
  match literal "<" t with
  | Some rest =>
    match literal "/" rest with
    | Some rest' => name rest'
    | None => false
    end || name rest
  | None => false
  end.

(** [re.exec(t)]: the index of the first match. *)
Fixpoint exec (t : string) : option nat :=
  if tag t then Some 0
  else match t with
       | String _ rest => S <$> exec rest
       | EmptyString => None
       end.

Fixpoint drop (n : nat) (t : string) : string :=
  match n, t with
  | O, _ => t
  | S n', String _ rest => drop n' rest
  | S _, EmptyString => EmptyString
  end.

(** [globalEndTagRe.exec(t)] with [lastIndex] set before. *)
Definition execFrom (lastIndex : nat) (t : string) : option nat :=
  if decide (lastIndex ≤ String.length t)
  then (fun i => lastIndex + i) <$> exec (drop lastIndex t)
  else None.

(** [t.slice(from, to)] for offsets that are not negative. *)
Definition slice (from to : nat) (t : string) : string :=
  String.substring from (to - from) t.

(** [t.replace(/&gt;/g, '>')] *)
Fixpoint replace_gt (t : string) : string :=
  match t with
  | String "&" (String "g" (String "t" (String ";" rest))) =>
    String ">" (replace_gt rest)
  | String c rest => String c (replace_gt rest)
  | EmptyString => EmptyString
  end.

(** *** [Grammar.enter] *)

(** The offsets of a tag in the source. *)
Record TagLocation : Type := mkTag { startOffset : nat; endOffset : nat }.

(** What [spec.locate(node)] gives: the source text and where the element
    and its tags are in it. *)
Record Location : Type := mkLocation {
  source : string;
  startTag : option TagLocation;
  endTag : option TagLocation;
  elementEnd : nat
}.

(** An [emu-grammar] element: what the linter left in [grammarkdownOut], if
    it ran; its [innerHTML]; where it is in the source, if known. *)
Record GrammarNode : Type := mkGrammarNode {
  grammarkdownOut : option string;
  innerHTML : string;
  location : option Location
}.

(** The text taken from the source or from [innerHTML], and whether it is
    still [possiblyMalformed]. *)
Definition taken (node : GrammarNode) : string * bool :=
  match location node with
  | Some loc =>
    match startTag loc, endTag loc with
    | Some st, Some et =>
      (slice (endOffset st) (startOffset et) (source loc), true)
    | _, _ =>
      let start := elementEnd loc in
      let stop :=
        match execFrom start (source loc) with
        | Some index => index
        | None => String.length (source loc)
        end in
      (slice start stop (source loc), false)
    end
  | None => (replace_gt (innerHTML node), true)
  end.

(** The check for a possible end tag in the content. *)
Definition recovered (content : string) : string :=
  match exec content with
  | Some index => slice 0 index content
  | None => content
  end.

(** The content handed to grammarkdown. *)
Definition content (node : GrammarNode) : string :=
  let '(content, possiblyMalformed) := taken node in
  if possiblyMalformed then recovered content else content.

(** [Grammar.enter]; [convert] is [GrammarFile.convert] with the options
    the builder gives it. *)
Definition enter (convert : string → string) (node : GrammarNode) : GrammarNode :=
  match grammarkdownOut node with
  | Some out => mkGrammarNode (grammarkdownOut node) out (location node)
  | None =>
    mkGrammarNode (grammarkdownOut node) (convert (content node)) (location node)
  end.

(** *** The tags in words

    A start or end tag named [emu-] and a word, [h] and a digit, [p], [ul],
    [table], [pre] or [code], in either case of the letters, the name ending
    where the word ends, and a [>] coming. *)
Definition listedName (t : string) : bool :=
  emuName t ||
  match literal "h" t with
  | Some rest => digit rest
  | None => false
  end ||
  existsb (fun lit => named lit t) ["p"; "ul"; "table"; "pre"; "code"].

Definition listedTag (t : string) : bool :=
  match literal "</" t with
  | Some rest => listedName rest
  | None => false
  end ||
  match literal "<" t with
  | Some rest => listedName rest
  | None => false
  end.

(** The tags the specification lists: as above, with the headings from
    [h1] to [h6]. *)
Definition heading16 (t : string) : bool :=
  match literal "h" t with
  | Some (String c rest) =>
    (49 <=? nat_of_ascii c) && (nat_of_ascii c <=? 54) && afterName rest
  | _ => false
  end.

Definition claimedName (t : string) : bool :=
  emuName t || heading16 t ||
  existsb (fun lit => named lit t) ["p"; "ul"; "table"; "pre"; "code"].

Definition claimedTag (t : string) : bool :=
  match literal "</" t with
  | Some rest => claimedName rest
  | None => false
  end ||
  match literal "<" t with
  | Some rest => claimedName rest
  | None => false
  end.

(** A tag named by a digit alone. *)
Definition digitTag (t : string) : bool :=
  match literal "</" t with
  | Some rest => digit rest
  | None => false
  end ||
  match literal "<" t with
  | Some rest => digit rest
  | None => false
  end.

(** The index of the first tail of [t] that [P] holds of. *)
Fixpoint first (P : string → bool) (t : string) : option nat :=
  if P t then Some 0
  else match t with
       | String _ rest => S <$> first P rest
       | EmptyString => None
       end.

Fixpoint anywhere (P : string → bool) (t : string) : bool :=
  P t || match t with
         | String _ rest => anywhere P rest
         | EmptyString => false
         end.

(** An [emu-grammar] element parsed with both of its tags, a heading tag
    of no heading in its text. *)
Definition parsed (text : string) : GrammarNode :=
  mkGrammarNode None EmptyString
    (Some (mkLocation ("<emu-grammar>" +:+ text +:+ "</emu-grammar>")
             (Some (mkTag 0 13))
             (Some (mkTag (13 + String.length text) (27 + String.length text)))
             (27 + String.length text))).

End Grammar.

Module ReplacementChains.
Import Replacement.

(** [biblio.byId] answers with the entry that has the id asked for. *)
Definition byIdSound (s : Spec) : Prop :=
  ∀ t r entry, biblio s !! t = Some (StepEntry r) →
    entries s !! r = Some entry → id entry = t.

(** What the [emu-alg] builder does with a labelled step of a replacement
    algorithm: the step is entered in the biblio under its id, and the id is
    put into [labeledStepsToBeRectified]. *)
Definition registered (s : Spec) : Prop :=
  ∀ e l r entry,
    replacementAlgorithmToContainedLabeledStepEntries s !! e = Some l →
    r ∈ l → entries s !! r = Some entry →
    biblio s !! id entry = Some (StepEntry r) ∧
    id entry ∈ labeledStepsToBeRectified s.

Definition listsNoDup (s : Spec) : Prop :=
  ∀ e l, replacementAlgorithmToContainedLabeledStepEntries s !! e = Some l →
    NoDup l.

(** The state the walk leaves behind for a document whose step ids are
    distinct and whose algorithms are declared once each. *)
Record wellFormed (s : Spec) : Prop := mkWellFormed {
  wf_prepared : prepared s;
  wf_owns : ownsDisjoint s;
  wf_declared : NoDup (replacementAlgorithms s).*1;
  wf_byId : byIdSound s;
  wf_registered : registered s;
  wf_lists : listsNoDup s
}.

(** [numberedFrom s0 s e tr]: in [s] the algorithm [e] is numbered from the
    path that the step entry [tr] has in [s]: its [<ol>] is the one of [s0]
    restarted at the last number of that path, and each of its labelled
    steps has the path of [s0] rectified by it. *)
Definition numberedFrom (s0 s : Spec) (e : Element) (tr : EntryRef) : Prop :=
  ∃ final o,
    entries s !! tr = Some final ∧
    rootLists s0 !! e = Some o ∧
    rootLists s !! e = Some (setStart (stepNumbers final) o) ∧
    ∀ l r own,
      replacementAlgorithmToContainedLabeledStepEntries s0 !! e = Some l →
      r ∈ l → entries s0 !! r = Some own →
      entries s !! r =
        Some (mkStep (id own) (rectified (stepNumbers final) (stepNumbers own))).

(** The state of a pass started in [s0]. The algorithms not numbered yet
    are those that wait in [pending] and those of [X] (met neither by the
    loop nor by a call so far); those of [P] are being numbered. *)
Record chainInvariant (s0 : Spec) (X P : Element → Prop) (s : Spec)
  : Prop := mkChainInvariant {
  chain_tables : sameTables s0 s;
  chain_kept : ∀ e, waitingOn (pending s) e ∨ X e → kept s0 s e;
  chain_labeled : ∀ e l r own, waitingOn (pending s) e ∨ X e →
    replacementAlgorithmToContainedLabeledStepEntries s0 !! e = Some l →
    r ∈ l → entries s0 !! r = Some own →
    id own ∈ labeledStepsToBeRectified s;
  chain_numbered : ∀ e t tr, (e, t) ∈ replacementAlgorithms s0 →
    ¬ waitingOn (pending s) e → ¬ X e → ¬ P e →
    biblio s0 !! t = Some (StepEntry tr) →
    (t ∉ labeledStepsToBeRectified s) ∧ numberedFrom s0 s e tr;
  chain_waits : ∀ k l, pending s !! k = Some l →
    NoDup l ∧ ∀ e, e ∈ l → (e, k) ∈ replacementAlgorithms s0;
  chain_apart : ∀ e, X e → ¬ waitingOn (pending s) e
}.

(** An algorithm waits under a step id that is still to be rectified. *)
Definition keysAwait (s : Spec) : Prop :=
  ∀ k l, pending s !! k = Some l → k ∈ labeledStepsToBeRectified s.

End ReplacementChains.

Module ReplacementChainExamples.
Import Replacement.

(** A chain, declared against its direction. The step [s1] lies in an
    ordinary algorithm at path [2,1]. Algorithm 7 replaces it and holds the
    labelled steps [a] and [b]; algorithm 8 replaces [b], holds the step
    [c], and is declared first. *)
Definition relay : Spec :=
  mkSpec {[ 7 := mkOList 1 []; 8 := mkOList 1 [] ]}
    {[ 0 := mkStep "s1" [2%Z; 1%Z];
       1 := mkStep "a" [1%Z; 2%Z];
       2 := mkStep "b" [1%Z; 4%Z];
       3 := mkStep "c" [1%Z; 3%Z] ]}
    {[ "s1" := StepEntry 0; "a" := StepEntry 1; "b" := StepEntry 2;
       "c" := StepEntry 3 ]}
    {[ 7 := [1; 2]; 8 := [3] ]}
    {[ "a"; "b"; "c" ]}
    [(8, "b"); (7, "s1")] [] ∅.

End ReplacementChainExamples.

Module WalkSteps.
Import Walk.

(** The text nodes of the parsed tree below and at a node. *)
Fixpoint texts (x : Node) : nat :=
  match x with
  | Text _ _ _ => 1
  | Element _ _ _ childNodes => list_sum (map texts childNodes)
  end.

(** No text node of the tree is replaced by other nodes when expanded. *)
Fixpoint plain (x : Node) : bool :=
  match x with
  | Text _ _ emd => match emd with [] => true | _ => false end
  | Element _ _ _ childNodes => forallb plain childNodes
  end.

(** The tree as it is while no text node has been expanded. *)
Fixpoint unexpanded (x : Node) : Node :=
  match x with
  | Text n textContent _ => Text n textContent []
  | Element n nodeName attributes childNodes =>
    Element n nodeName attributes (map unexpanded childNodes)
  end.

Section Steps.
Variable NO_CLAUSE_AUTOLINK : gset string.
Variable visitorMap : gmap string BuilderInterface.

(** The element branch of [walk] up to the visit of the child nodes. *)
Definition entering (el : ElementInfo) (ctx : Context) : Context :=
  let ctx := arrive (el_ref el) ctx in
  let ctx :=
    match getAttribute "id" (el_attributes el) with
    | Some i => set_currentId (Some i) ctx
    | None => ctx
    end in
  let changedInNoAutolink :=
    bool_decide (el_nodeName el ∈ NO_CLAUSE_AUTOLINK) && negb (inNoAutolink ctx) in
  let ctx := if changedInNoAutolink then set_inNoAutolink true ctx else ctx in
  let changedInNoEmd :=
    bool_decide (el_nodeName el ∈ NO_EMD) && negb (inNoEmd ctx) in
  let ctx := if changedInNoEmd then set_inNoEmd true ctx else ctx in
  match visitorMap !! el_nodeName el with
  | Some v => enter v el ctx
  | None => ctx
  end.

(** The element branch of [walk] after the visit of the child nodes, which
    has ended in [visited]; [ctx] is the context the branch began in, from
    which [parentId] and the two [changed] flags were taken. *)
Definition leaving (el : ElementInfo) (ctx visited : Context) : Context :=
  let c := arrive (el_ref el) ctx in
  let parentId := currentId c in
  let c :=
    match getAttribute "id" (el_attributes el) with
    | Some i => set_currentId (Some i) c
    | None => c
    end in
  let changedInNoAutolink :=
    bool_decide (el_nodeName el ∈ NO_CLAUSE_AUTOLINK) && negb (inNoAutolink c) in
  let c := if changedInNoAutolink then set_inNoAutolink true c else c in
  let changedInNoEmd :=
    bool_decide (el_nodeName el ∈ NO_EMD) && negb (inNoEmd c) in
  let ctx :=
    match visitorMap !! el_nodeName el with
    | Some v => exit v el visited
    | None => visited
    end in
  let ctx := if changedInNoAutolink then set_inNoAutolink false ctx else ctx in
  let ctx := if changedInNoEmd then set_inNoEmd false ctx else ctx in
  set_tagStack (tail (tagStack ctx)) (set_currentId parentId ctx).

End Steps.

(** [_textNodes] has gained entries at the ends of its lists and lost
    none. *)
Definition grown (t t' : gmap string (list TextNodeContext)) : Prop :=
  ∀ ns, default [] (t !! ns) `prefix_of` default [] (t' !! ns).

(** The builder registered last among those of [builders] that list the
    element name. *)
Definition lastListing (name : string) (builders : list BuilderInterface)
  : option BuilderInterface :=
  last (filter (λ T, name ∈ elements T) builders).

End WalkSteps.

Module ReferenceGraph.
Import References.

(** The entry [b] is the entry [a] with referencing ids added at the end. *)
Definition laterEntry (a b : BiblioEntry) : Prop :=
  id b = id a ∧ refId b = refId a ∧ namespace b = namespace a ∧
  referencingIds a `prefix_of` referencingIds b.

(** The xref [b] is the xref [a], with an id if [a] had none. *)
Definition laterXref (a b : Xref) : Prop :=
  xref_node b = xref_node a ∧ xref_entry b = xref_entry a ∧
  (truthy (xref_id a) = true → xref_id b = xref_id a).

(** What the pass may change between [s] and [s']. *)
Record later (s s' : Spec) : Prop := mkLater {
  later_byId : byId s' = byId s;
  later_xrefList : _xrefs s' = _xrefs s;
  later_ntRefs : _ntRefs s' = _ntRefs s;
  later_entries : ∀ e, option_Forall2 laterEntry (entries s !! e) (entries s' !! e);
  later_xrefs : ∀ x, option_Forall2 laterXref (xrefs s !! x) (xrefs s' !! x)
}.

(** [made] gives, for the nodes that the pass started in [s0] has given an
    id so far, the number in the id. *)
Definition numbered (s0 s : Spec) (made : gmap NodeId nat) : Prop :=
  (∀ n k, made !! n = Some k →
     k < counter s ∧ idAttribute s !! n = Some (refName k)) ∧
  (∀ n, made !! n = None → idAttribute s !! n = idAttribute s0 !! n) ∧
  (∀ n1 n2 k, made !! n1 = Some k → made !! n2 = Some k → n1 = n2).

(** A cross-reference whose entry has no id of its own and names, by
    [refId], an entry that the biblio does not have. *)
Definition dangling (s : Spec) (x : XrefRef) : Prop :=
  ∃ xref e entry,
    xrefs s !! x = Some xref ∧ xref_entry xref = Some e ∧
    entries s !! e = Some entry ∧ namespace entry ≠ "global" ∧
    truthy (id entry) = false ∧ truthy (refId entry) = true ∧
    refId entry ≫= (λ r, byId s !! r) = None.

(** A term whose entry has no id and whose [refId] names a clause that
    is not in the biblio, and a cross-reference to it. *)
Definition orphan : Spec :=
  mkSpec {[ 0 := mkEntry None (Some "sec-gone") "https://example.org/spec" [] ]}
    ∅ {[ 0 := mkXref 10 None (Some 0) ]} [0] [] ∅ 0.

End ReferenceGraph.

(** ** Warnings and the places they point at *)

Module Warnings.

(** A node as [wrapWarn] looks at it: whether it is a text node, its tag
    name, and its identity. *)
Record Node : Type := mkNode {
  ident : nat;
  isText : bool;
  tagName : string
}.

(** A tag as parse5 places it. *)
Record TagLocation : Type := mkTagLocation {
  tag_line : Z;
  tag_col : Z;
  tag_startOffset : nat;
  tag_endOffset : nat
}.

(** What [spec.locate] returns. *)
Record Location : Type := mkLocation {
  file : option string;
  source : string;
  startTag : TagLocation;
  startOffset : nat;
  line : Z;
  col : Z
}.

Inductive Warning : Type :=
| GlobalWarning (ruleId message : string)
| NodeWarning (node : Node) (ruleId message : string)
| AttrWarning (node : Node) (attr ruleId message : string)
| ContentsWarning (node : Node) (ruleId message : string)
    (nodeRelativeLine nodeRelativeColumn : Z)
| RawWarning (ruleId message : string) (line column : Z)
    (file source : option string).

Record EcmarkupError : Type := mkError {
  err_message : string;
  err_ruleId : string;
  err_source : option string;
  err_file : option string;
  err_nodeType : string;
  err_line : option Z;
  err_column : option Z
}.

(** What [JSDOM.nodeLocation] knows of a node: the part of parse5's
    location that [locate] copies. *)
Record ElementLocation : Type := mkElementLocation {
  el_startTag : TagLocation;
  el_startOffset : nat;
  el_line : Z;
  el_col : Z
}.

(** A document that was parsed with locations: [nodeLocation] by node. *)
Definition Dom : Type := nat → option ElementLocation.

(** The node handed to [locate] or one of its ancestors, with the fields
    that an [emu-import] element carries once it is built. *)
Record Pointer : Type := mkPointer {
  nodeType : nat;
  nodeName : string;
  dom : option Dom;
  importPath : option string;
  importSource : string
}.

Definition isEmuImportElement (node : Pointer) : bool :=
  (nodeType node =? 1) && String.eqb (nodeName node) "EMU-IMPORT".

(** The loop of [locate]: from the node upwards along [parentElement],
    to the first [emu-import]. *)
Fixpoint climb (chain : list Pointer) : option Pointer :=
  match chain with
  | [] => None
  | pointer :: parents =>
    if isEmuImportElement pointer then Some pointer else climb parents
  end.

Definition located (file : option string) (source : string)
    (loc : ElementLocation) : Location :=
  mkLocation file source (el_startTag loc) (el_startOffset loc) (el_line loc)
    (el_col loc).

(** [spec.locate(node)]; [chain] is the node and, after it, its ancestors
    from the nearest on. *)
Definition locate (sourceText : string) (specDom : Dom) (node : nat)
    (chain : list Pointer) : option Location :=
  match climb chain with
  | None => located None sourceText <$> specDom node
  | Some pointer =>
    d ← dom pointer;
    located (importPath pointer) (importSource pointer) <$> d node
  end.

(** [toLowerCase] on the letters of a tag name. *)
Fixpoint toLowerCase (t : string) : string :=
  match t with
  | String c rest => String (Grammar.lower c) (toLowerCase rest)
  | EmptyString => EmptyString
  end.

Definition slice (from to : nat) (t : string) : string :=
  String.substring from (to - from) t.

Section WrapWarn.

(** [spec.locate], [utils.attrValueLocation] and
    [utils.offsetToLineAndColumn]. *)
Variable locate : Node → option Location.
Variable attrValueLocation : string → Location → string → Z * Z.
Variable offsetToLineAndColumn : string → nat → Z * Z.

(** The function that [wrapWarn] returns. Its variable [source] is the
    parameter of [wrapWarn], which the function assigns to: the value lives
    on from one call to the next, and is threaded through here. The result
    is what is passed to [warn], and the value of [source] after the
    call. *)
Definition wrapWarn (e : Warning) (source : option string)
  : EcmarkupError * option string :=
  match e with
  | GlobalWarning ruleId message =>
    (mkError message ruleId None None "html" None None, source)
  | RawWarning ruleId message line column efile esource =>
    let '(file, source) :=
      match efile with
      | Some f => (Some f, esource)
      | None => (None, source)
      end in
    (mkError message ruleId source file "html" (Some line) (Some column), source)
  | NodeWarning node ruleId message =>
    let nodeType := if isText node then "text" else toLowerCase (tagName node) in
    match locate node with
    | Some loc =>
      let '(line, column) :=
        if isText node then (Warnings.line loc, col loc)
        else (tag_line (startTag loc), tag_col (startTag loc)) in
      (mkError message ruleId (Some (Warnings.source loc)) (file loc) nodeType
         (Some line) (Some column),
       Some (Warnings.source loc))
    | None => (mkError message ruleId source None nodeType None None, source)
    end
  | AttrWarning node attr ruleId message =>
    let nodeType := toLowerCase (tagName node) in
    match locate node with
    | Some loc =>
      let '(line, column) := attrValueLocation (Warnings.source loc) loc attr in
      (mkError message ruleId (Some (Warnings.source loc)) (file loc) nodeType
         (Some line) (Some column),
       Some (Warnings.source loc))
    | None => (mkError message ruleId source None nodeType None None, source)
    end
  | ContentsWarning node ruleId message nodeRelativeLine nodeRelativeColumn =>
    let nodeType := if isText node then "text" else toLowerCase (tagName node) in
    match locate node with
    | Some loc =>
      let '(line, column) :=
        if isText node then
          ((Warnings.line loc + nodeRelativeLine - 1)%Z,
           if decide (nodeRelativeLine = 1%Z)
           then (col loc + nodeRelativeColumn - 1)%Z
           else nodeRelativeColumn)
        else
          let tagSrc :=
            slice (tag_startOffset (startTag loc)) (tag_endOffset (startTag loc))
              (Warnings.source loc) in
          let tagEnd :=
            offsetToLineAndColumn tagSrc
              (tag_endOffset (startTag loc) - startOffset loc) in
          ((tag_line (startTag loc) + tagEnd.1 + nodeRelativeLine - 2)%Z,
           if decide (nodeRelativeLine = 1%Z) then
             if decide (tagEnd.1 = 1%Z)
             then (tag_col (startTag loc) + tagEnd.2 + nodeRelativeColumn - 2)%Z
             else (tagEnd.2 + nodeRelativeColumn - 1)%Z
           else nodeRelativeColumn) in
      (mkError message ruleId (Some (Warnings.source loc)) (file loc) nodeType
         (Some line) (Some column),
       Some (Warnings.source loc))
    | None => (mkError message ruleId source None nodeType None None, source)
    end
  end.

(** The warnings of a build, one after the other, through one wrapped
    function. *)
Fixpoint wrapWarns (es : list Warning) (source : option string)
  : list EcmarkupError :=
  match es with
  | [] => []
  | e :: rest =>
    let '(err, source) := wrapWarn e source in
    err :: wrapWarns rest source
  end.

(** The node that a warning is about. *)
Definition nodeOf (e : Warning) : option Node :=
  match e with
  | NodeWarning node _ _ | AttrWarning node _ _ _
  | ContentsWarning node _ _ _ _ => Some node
  | GlobalWarning _ _ | RawWarning _ _ _ _ _ _ => None
  end.

(** A warning that brings no source of its own: a raw warning without a
    file, or one about a node that [locate] does not find. *)
Definition unplaced (e : Warning) : Prop :=
  match e with
  | GlobalWarning _ _ => False
  | RawWarning _ _ _ _ efile _ => efile = None
  | NodeWarning node _ _ | AttrWarning node _ _ _
  | ContentsWarning node _ _ _ _ => locate node = None
  end.

End WrapWarn.

(** A document that imports a file: the paragraph 2 lies in the import,
    whose source is not that of the document. *)
Definition imported (n : nat) : option ElementLocation :=
  if n =? 2 then Some (mkElementLocation (mkTagLocation 1 1 0 3) 0 1 1) else None.

Definition importElement : Pointer :=
  mkPointer 1 "EMU-IMPORT" (Some imported) (Some "part.html") "<p>part</p>".

Definition paragraphInImport : Node := mkNode 2 false "P".

Definition locateSample (node : Node) : option Location :=
  locate "<emu-import href=part.html></emu-import>" (λ _, None) (ident node)
    (if ident node =? 2
     then [mkPointer 1 "P" None None ""; importElement; mkPointer 1 "BODY" None None ""]
     else [mkPointer 1 "BODY" None None ""]).

End Warnings.

(** ** The options of a [Spec] *)

Module Options.

(** The JavaScript values that options take. Numbers are the integers;
    a [Date] is given by its time value. *)
Inductive Value : Type :=
| VUndefined
| VNull
| VBoolean (b : bool)
| VNumber (n : Z)
| VString (t : string)
| VDate (time : Z).

(** An object as the map of its own properties; a property can be there
    with the value [undefined]. *)
Abbreviation Object := (gmap string Value).

(** [o.k] *)
Definition get (k : string) (o : Object) : Value := default VUndefined (o !! k).

(** [Object.assign(target, source)] *)
Definition assign (target source : Object) : Object := source ∪ target.

(** [!v] is [negb (truthy v)]. *)
Definition truthy (v : Value) : bool :=
  match v with
  | VUndefined | VNull => false
  | VBoolean b => b
  | VNumber n => negb (n =? 0)%Z
  | VString t => negb (String.eqb t EmptyString)
  | VDate _ => true
  end.

(** [typeof v === 'undefined'] *)
Definition isUndefined (v : Value) : bool :=
  match v with VUndefined => true | _ => false end.

(** [v != undefined] *)
Definition notNullish (v : Value) : bool :=
  match v with VUndefined | VNull => false | _ => true end.

(** What [yaml.safeLoad] returns for a block that parses. *)
Inductive YamlValue : Type :=
| YScalar (v : Value)
| YSequence (items : list Value)
| YMapping (o : Object).

Fixpoint characters (t : string) : list Value :=
  match t with
  | String c rest => VString (String c EmptyString) :: characters rest
  | EmptyString => []
  end.

Definition indexed (items : list Value) : Object :=
  list_to_map (imap (λ i v, (pretty i, v)) items).

(** The own enumerable properties that [Object.assign] copies from its
    source: those of a mapping, the items of a sequence by index, the
    characters of a string by index, and none of another scalar. *)
Definition ownProperties (data : YamlValue) : Object :=
  match data with
  | YMapping o => o
  | YSequence items => indexed items
  | YScalar (VString t) => indexed (characters t)
  | YScalar _ => ∅
  end.

(** The [mark] of what [yaml.safeLoad] threw: [line] and [column] when
    they are numbers. *)
Inductive Mark : Type :=
| NoMark
| SomeMark (line column : option Z).

(** The [pre.metadata] block of the document: none; one that does not
    parse, with what was thrown ([None] for a thrown [null] or
    [undefined]); one that parses. *)
Inductive Metadata : Type :=
| NoBlock
| Unparsable (thrown : option (Mark * string))
| Parsable (data : YamlValue).

Inductive Warning : Type :=
| ContentsWarning (ruleId message : string) (nodeRelativeLine nodeRelativeColumn : Z)
| NodeWarning (ruleId message : string)
| GlobalWarning (ruleId message : string).

(** The state of the constructor that the code below touches: [opts] and
    the warnings given. *)
Record State : Type := mkState {
  opts : Object;
  warnings : list Warning
}.

(** [processMetadata], and whether it has removed the block from the
    document. The [finally] clause removes the block also when the [catch]
    clause throws, which it does on an exception without a [mark]. *)
Definition processMetadata (metadata : Metadata) (s : State) : Outcome State * bool :=
  match metadata with
  | NoBlock => (Done s, false)
  | Unparsable thrown =>
    (match thrown with
     | None =>
       Done (mkState (opts s)
               (warnings s ++
                  [NodeWarning "invalid-metadata" "metadata block failed to parse"]))
     | Some (NoMark, _) => Thrown "line of undefined"
     | Some (SomeMark (Some line) (Some column), reason) =>
       Done (mkState (opts s)
               (warnings s ++
                  [ContentsWarning "invalid-metadata"
                     ("metadata block failed to parse: " +:+ reason)
                     (line + 1) (column + 1)]))
     | Some (SomeMark _ _, _) =>
       Done (mkState (opts s)
               (warnings s ++
                  [NodeWarning "invalid-metadata" "metadata block failed to parse"]))
     end, true)
  | Parsable data =>
    (Done (mkState (assign (opts s) (ownProperties data)) (warnings s)), true)
  end.

Section Constructor.

(** [String] of a date, and the time of [new Date()]. *)
Variable dateString : Z → string.
Variable now : Z.

(** [String(v)] *)
Definition toString (v : Value) : string :=
  match v with
  | VUndefined => "undefined"
  | VNull => "null"
  | VBoolean true => "true"
  | VBoolean false => "false"
  | VNumber n => pretty n
  | VString t => t
  | VDate time => dateString time
  end.

Definition orDefault (k : string) (v : Value) (o : Object) : Object :=
  if isUndefined (get k o) then <[k := v]> o else o.

(** The statements of the constructor that give options their
    defaults. *)
Definition settle (o : Object) : Object :=
  let o := orDefault "status" (VString "proposal") o in
  let o := orDefault "toc" (VBoolean true) o in
  let o := orDefault "copyright" (VBoolean true) o in
  let o := orDefault "ecma262Biblio" (VBoolean true) o in
  let o := if truthy (get "date" o) then o else <["date" := VDate now]> o in
  let o :=
    if notNullish (get "stage" o)
    then <["stage" := VString (toString (get "stage" o))]> o else o in
  if truthy (get "location" o) then o
  else <["location" := VString "<no location>"]> o.

(** The part of the constructor that fills [this.opts]; [given] is the
    [opts] argument, [None] when it is not passed. The result holds
    [opts] and [namespace]. *)
Definition constructor (metadata : Metadata) (given : option Object)
  : Outcome (State * Value) :=
  let given := default ∅ given in
  s ← (processMetadata metadata (mkState ∅ [])).1;
  let o := settle (assign (opts s) given) in
  Done (mkState o (warnings s), get "location" o).

(** [exportBiblio]; [json] is [this.biblio.toJSON()]. *)
Definition exportBiblio {J : Type} (json : J) (s : State) : gmap string J * State :=
  if truthy (get "location" (opts s))
  then ({[ toString (get "location" (opts s)) := json ]}, s)
  else (∅, mkState (opts s)
              (warnings s ++
                 [GlobalWarning "no-location"
                    "no spec location specified; biblio not generated. try --location or setting the location in the document's metadata block"])).

End Constructor.

(** What the metadata block adds to [opts]: the properties of what it
    parses to, and nothing when it is not there or does not parse. *)
Definition fromMetadata (metadata : Metadata) : Object :=
  match metadata with
  | Parsable data => ownProperties data
  | NoBlock | Unparsable _ => ∅
  end.

(** A proposal at stage 3 by its metadata block, built with a location
    given by the caller. *)
Definition stage3 : Metadata :=
  Parsable (YMapping {[ "stage" := VNumber 3; "status" := VString "draft";
                        "title" := VString "Proposal" ]}).

Definition fromCaller : Object :=
  {[ "location" := VString "https://example.org/"; "status" := VUndefined ]}.

End Options.

(** ** The page: the first heading and the wrapper *)

Module Page.

(** The document tree as the tree walker of [setFirstH1Class] sees it:
    text nodes and elements, in document order. *)
Inductive Node : Type :=
| Text (data : string)
| Element (nodeName : string) (id : option string) (classList : list string)
    (childNodes : list Node).

(** [t.trim().length > 0] *)
Definition nonBlank (t : string) : bool :=
  negb (String.length (Walk.trim t) =? 0).

(** *** [setFirstH1Class]

    The loop over [walker.nextNode()], which goes through the nodes below
    [body] in document order, as a descent into the tree. The boolean tells
    that the loop has returned. *)
Fixpoint setFirstH1Class (x : Node) : Node * bool :=
  match x with
  | Text data => (x, nonBlank data)
  | Element nodeName i classList childNodes =>
    if String.eqb nodeName "H1"
    then (Element nodeName i (Replacement.classList_add "first" classList)
            childNodes, true)
    else
      let '(childNodes, returned) :=
        (fix next (nodes : list Node) : list Node * bool :=
           match nodes with
           | [] => ([], false)
           | y :: rest =>
             let '(y, returned) := setFirstH1Class y in
             if returned then (y :: rest, true)
             else let '(rest, returned) := next rest in (y :: rest, returned)
           end) childNodes in
      (Element nodeName i classList childNodes, returned)
  end.

(** The loop over the child nodes of an element, by itself. *)
Fixpoint setFirstAmong (nodes : list Node) : list Node * bool :=
  match nodes with
  | [] => ([], false)
  | y :: rest =>
    let '(y, returned) := setFirstH1Class y in
    if returned then (y :: rest, true)
    else let '(rest, returned) := setFirstAmong rest in (y :: rest, returned)
  end.

(** *** [buildSpecWrapper] *)

(** [while (elements.length > 0) wrapper.appendChild(elements[0])]:
    [elements] is the live list of the child nodes of [body], which loses
    the node that [appendChild] moves. *)
Fixpoint moveAll (elements wrapped : list Node) : list Node * list Node :=
  match elements with
  | [] => (elements, wrapped)
  | first :: rest => moveAll rest (wrapped ++ [first])
  end.

(** The child nodes of [body] after [buildSpecWrapper]. *)
Definition buildSpecWrapper (body : list Node) : list Node :=
  let '(elements, wrapped) := moveAll body [] in
  elements ++ [Element "DIV" (Some "spec-container") [] wrapped].

(** *** Document order *)

(** A node without what is below it. *)
Inductive Label : Type :=
| TextLabel (data : string)
| ElementLabel (nodeName : string) (id : option string) (classList : list string).

(** The nodes at and below [x] in document order, each with its depth. *)
Fixpoint outline (depth : nat) (x : Node) : list (nat * Label) :=
  match x with
  | Text data => [(depth, TextLabel data)]
  | Element nodeName i classList childNodes =>
    (depth, ElementLabel nodeName i classList) ::
    (fix below (nodes : list Node) : list (nat * Label) :=
       match nodes with
       | [] => []
       | y :: rest => outline (S depth) y ++ below rest
       end) childNodes
  end.

Fixpoint outlines (depth : nat) (nodes : list Node) : list (nat * Label) :=
  match nodes with
  | [] => []
  | y :: rest => outline depth y ++ outlines depth rest
  end.

(** A node at which the loop of [setFirstH1Class] returns. *)
Definition decisive (l : nat * Label) : bool :=
  match l.2 with
  | TextLabel data => nonBlank data
  | ElementLabel nodeName _ _ => String.eqb nodeName "H1"
  end.

(** What the loop does to the node at which it returns. *)
Definition marked (l : nat * Label) : nat * Label :=
  match l.2 with
  | TextLabel data => l
  | ElementLabel nodeName i classList =>
    (l.1, ElementLabel nodeName i (Replacement.classList_add "first" classList))
  end.

(** What [setFirstH1Class] does to a tree, told of its outline: nothing,
    no node being decisive; or it returns at the first decisive node, which
    it marks if it is a heading. *)
Definition firstMarked (before after : list (nat * Label)) (returned : bool) : Prop :=
  (returned = false ∧ after = before ∧ Forall (λ l, decisive l = false) before) ∨
  (returned = true ∧
   ∃ pre l post, before = pre ++ l :: post ∧
     Forall (λ l, decisive l = false) pre ∧ decisive l = true ∧
     after = pre ++ marked l :: post).

(** The document with a heading of the specification and some text before
    it, and the same without the text. *)
Definition textFirst : Node :=
  Element "BODY" None []
    [Element "P" None [] [Text "Draft"]; Element "H1" None [] [Text "Title"]].

Definition headingFirst : Node :=
  Element "BODY" None []
    [Text " "; Element "DIV" None [] [Element "H1" None ["title"] [Text "Title"]];
     Element "H1" None [] [Text "Other"]].

End Page.

(** * Properties *)

(** ** Loops *)

Section ForOf.
Context {A S : Type} (body : A → S → Outcome S).

Lemma forOf_app (xs ys : list A) (s : S) :
  forOf body (xs ++ ys) s = (s' ← forOf body xs s; forOf body ys s').
Proof.
  revert s; induction xs as [|x xs IH]; intros s; simpl; [done|].
  unfold mbind, Outcome_bind, obind. destruct (body x s); simpl; auto.
Qed.

(** The invariant [I] speaks of the part of the list already done. *)
Lemma forOf_invariant_split (I : list A → S → Prop) (xs : list A) (s s' : S) :
  I [] s →
  (∀ done x rest s1 s2, xs = done ++ x :: rest → I done s1 →
     body x s1 = Done s2 → I (done ++ [x]) s2) →
  forOf body xs s = Done s' → I xs s'.
Proof.
  intros H0 Hstep.
  assert (G : ∀ rest done s1, I done s1 → done ++ rest = xs →
               forOf body rest s1 = Done s' → I xs s').
  { induction rest as [|x rest IH]; intros done s1 HI Heq Hrun; simpl in Hrun.
    - rewrite app_nil_r in Heq. by simplify_eq.
    - unfold mbind, Outcome_bind, obind in Hrun.
      destruct (body x s1) as [s2| |] eqn:Hb; try done.
      apply (IH (done ++ [x]) s2); [|by rewrite <- app_assoc|done].
      by apply (Hstep done x rest s1). }
  intros Hrun. by apply (G xs [] s).
Qed.

Lemma forOf_invariant (I : list A → S → Prop) (xs : list A) (s s' : S) :
  I [] s →
  (∀ done x s1 s2, I done s1 → x ∈ xs → body x s1 = Done s2 →
     I (done ++ [x]) s2) →
  forOf body xs s = Done s' → I xs s'.
Proof.
  intros H0 Hstep. apply forOf_invariant_split; [done|].
  intros done x rest s1 s2 -> HI Hb. apply (Hstep done x s1 s2); [done| |done].
  set_solver.
Qed.

(** A loop whose every turn completes, completes; the invariant may speak
    of the part already done. *)
Lemma forOf_total_split (I : list A → S → Prop) (xs : list A) (s : S) :
  I [] s →
  (∀ done x rest s1, xs = done ++ x :: rest → I done s1 →
     ∃ s2, body x s1 = Done s2 ∧ I (done ++ [x]) s2) →
  ∃ s', forOf body xs s = Done s' ∧ I xs s'.
Proof.
  intros H0 Hstep.
  assert (G : ∀ rest done s1, I done s1 → done ++ rest = xs →
               ∃ s', forOf body rest s1 = Done s' ∧ I xs s').
  { induction rest as [|x rest IH]; intros done s1 HI Heq; simpl.
    - rewrite app_nil_r in Heq. subst. by exists s1.
    - destruct (Hstep done x rest s1) as (s2 & Hb & H2); [done..|].
      rewrite Hb. simpl. apply (IH (done ++ [x]) s2); [done|].
      by rewrite <- app_assoc. }
  by apply (G xs [] s).
Qed.

(** A loop whose every turn completes, completes. *)
Lemma forOf_total (I : S → Prop) (xs : list A) (s : S) :
  I s →
  (∀ x s1, I s1 → x ∈ xs → ∃ s2, body x s1 = Done s2 ∧ I s2) →
  ∃ s', forOf body xs s = Done s' ∧ I s'.
Proof.
  revert s; induction xs as [|x xs IH]; intros s HI Hstep; simpl.
  - by exists s.
  - destruct (Hstep x s HI) as (s2 & Hb & HI2); [set_solver|].
    rewrite Hb; simpl. apply IH; [done|].
    intros y s1 H1 Hy. apply Hstep; [done|set_solver].
Qed.

(** A loop none of whose turns runs out of fuel does not run out of
    fuel. *)
Lemma forOf_fuelled (I : S → Prop) (xs : list A) (s : S) :
  I s →
  (∀ x s1, I s1 → x ∈ xs →
     body x s1 ≠ OutOfFuel ∧ ∀ s2, body x s1 = Done s2 → I s2) →
  forOf body xs s ≠ OutOfFuel ∧ ∀ s', forOf body xs s = Done s' → I s'.
Proof.
  revert s; induction xs as [|x xs IH]; intros s HI Hstep; simpl.
  - split; [done|]. by intros s' [= <-].
  - destruct (Hstep x s HI) as [Hne Hdone]; [set_solver|].
    destruct (body x s) as [s2| |] eqn:Hb; simpl; try done.
    apply IH; [by apply Hdone|].
    intros y s1 H1 Hy. apply Hstep; [done|set_solver].
Qed.

End ForOf.

(** ** The replacement-step resolver *)

Module ReplacementFacts.
Import Replacement.

Lemma setReplacementAlgorithmStart_S fuel element numbers s :
  setReplacementAlgorithmStart (S fuel) element numbers s =
  (rootList ← nonNull "firstElementChild" (rootLists s !! element);
   contained ← nonNull "not iterable"
     (replacementAlgorithmToContainedLabeledStepEntries s !! element);
   forOf (entryTurn (setReplacementAlgorithmStart fuel) numbers) contained
     (with_rootList element (setStart numbers rootList) s)).
Proof. reflexivity. Qed.

Lemma bind_Done {A B} (m : Outcome A) (k : A → Outcome B) (b : B) :
  (a ← m; k a) = Done b → ∃ a, m = Done a ∧ k a = Done b.
Proof. destruct m; simpl; try done. eauto. Qed.

Lemma nonNull_Done {A} what (o : option A) a :
  nonNull what o = Done a → o = Some a.
Proof. destruct o; simpl; congruence. Qed.

Lemma sameShape_refl s : sameShape s s.
Proof. by split. Qed.

Lemma sameShape_trans s1 s2 s3 :
  sameShape s1 s2 → sameShape s2 s3 → sameShape s1 s3.
Proof.
  intros H12 H23; split.
  - intros e. rewrite (shape_rootLists _ _ H23). apply H12.
  - intros r. rewrite (shape_ids _ _ H23). apply H12.
  - rewrite (shape_biblio _ _ H23). apply H12.
  - rewrite (shape_contained _ _ H23). apply H12.
  - rewrite (shape_declared _ _ H23). apply H12.
  - rewrite (shape_warnings _ _ H23). apply H12.
  - transitivity (pending s2); [apply H23|apply H12].
  - transitivity (labeledStepsToBeRectified s2); [apply H23|apply H12].
Qed.

Lemma sameShape_rootList e o s :
  is_Some (rootLists s !! e) → sameShape s (with_rootList e o s).
Proof.
  intros He; split; simpl; try done.
  intros e'. destruct (decide (e = e')) as [->|Hne].
  - rewrite lookup_insert_eq. split; eauto.
  - by rewrite lookup_insert_ne.
Qed.

Lemma sameShape_entry r entry numbers s :
  entries s !! r = Some entry →
  sameShape s (with_entry r (mkStep (id entry) numbers) s).
Proof.
  intros Hr; split; simpl; try done.
  - intros r'. destruct (decide (r = r')) as [->|Hne].
    + by rewrite lookup_insert_eq, Hr.
    + by rewrite lookup_insert_ne.
  - apply subseteq_difference_l. reflexivity.
Qed.

Lemma sameShape_delete k s :
  sameShape s (with_pending (delete k (pending s)) s).
Proof. split; simpl; try done. apply delete_subseteq. Qed.

Lemma waitingOn_weaken (p p' : gmap string (list Element)) e :
  p' ⊆ p → waitingOn p' e → waitingOn p e.
Proof.
  intros Hsub (k & l & Hk & He). exists k, l. split; [|done].
  by eapply lookup_weaken.
Qed.

(** Every completed call leaves the shape of the state alone. *)
Lemma setReplacementAlgorithmStart_shape fuel :
  ∀ element numbers s s',
    setReplacementAlgorithmStart fuel element numbers s = Done s' →
    sameShape s s'.
Proof.
  induction fuel as [|fuel IH]; intros element numbers s s' Hrun; [done|].
  rewrite setReplacementAlgorithmStart_S in Hrun.
  apply bind_Done in Hrun as (rootList & Hroot & Hrun).
  apply nonNull_Done in Hroot.
  apply bind_Done in Hrun as (contained & _ & Hrun).
  set (s0 := with_rootList element (setStart numbers rootList) s) in *.
  assert (H0 : sameShape s s0) by (apply sameShape_rootList; eauto).
  revert Hrun.
  apply (forOf_invariant _ (λ _ s1, sameShape s s1)); [done|].
  intros _ r s1 s2 H1 _ Hturn. unfold entryTurn in Hturn.
  apply bind_Done in Hturn as (entry & Hentry & Hturn).
  apply nonNull_Done in Hentry. simpl in Hturn.
  set (s1' := with_entry r _ s1) in *.
  assert (H1' : sameShape s s1').
  { eapply sameShape_trans; [done|]. by apply sameShape_entry. }
  destruct (pending s1 !! id entry) as [todo|]; [|by simplify_eq].
  revert Hturn.
  apply (forOf_invariant _ (λ _ s3, sameShape s s3)).
  - eapply sameShape_trans; [done|]. apply (sameShape_delete _ s1').
  - intros _ ra s3 s4 H3 _ Hcall.
    apply bind_Done in Hcall as (now & _ & Hcall).
    eapply sameShape_trans; [done|]. by eapply IH.
Qed.

Lemma pendingTotal_delete (p : gmap string (list Element)) k l :
  p !! k = Some l → pendingTotal (delete k p) + length l = pendingTotal p.
Proof.
  intros Hk. unfold pendingTotal.
  rewrite <- (map_to_list_delete p k l Hk). simpl. lia.
Qed.

Lemma ready_shape s s' e : sameShape s s' → ready s e → ready s' e.
Proof.
  intros Hs [Hr Hc]. split.
  - by apply Hs.
  - by rewrite (shape_contained _ _ Hs).
Qed.

Lemma liveEntries_shape s s' : sameShape s s' → liveEntries s → liveEntries s'.
Proof.
  intros Hs Hl e l r He Hr. rewrite (shape_contained _ _ Hs) in He.
  destruct (Hl e l r He Hr) as [entry Hentry].
  pose proof (shape_ids _ _ Hs r) as Hid. rewrite Hentry in Hid.
  destruct (entries s' !! r); [eauto|done].
Qed.

(** A call with more fuel than there are waiting algorithms completes, and
    no algorithm is added to [pending]. *)
Lemma setReplacementAlgorithmStart_total fuel :
  ∀ element numbers s,
    pendingTotal (pending s) < fuel →
    ready s element →
    (∀ e, waitingOn (pending s) e → ready s e) →
    liveEntries s →
    ∃ s', setReplacementAlgorithmStart fuel element numbers s = Done s' ∧
          pendingTotal (pending s') ≤ pendingTotal (pending s).
Proof.
  induction fuel as [|fuel IH]; intros element numbers s Hfuel [Hroot Hcont] Hwait Hlive;
    [lia|].
  rewrite setReplacementAlgorithmStart_S.
  destruct Hroot as [rootList Hroot]. destruct Hcont as [contained Hcont].
  rewrite Hroot, Hcont. simpl.
  set (s0 := with_rootList element (setStart numbers rootList) s).
  assert (H0 : sameShape s s0) by (apply sameShape_rootList; eauto).
  pose (I := λ s1 : Spec,
    sameShape s s1 ∧ pendingTotal (pending s1) ≤ pendingTotal (pending s)).
  destruct (forOf_total (entryTurn (setReplacementAlgorithmStart fuel) numbers)
              I contained s0) as (s' & Hrun & _ & Hle); [by split| |eauto].
  intros r s1 [Hs1 Hle1] Hr. unfold entryTurn.
  destruct (liveEntries_shape _ _ Hs1 Hlive element contained r) as [entry Hentry];
    [by rewrite (shape_contained _ _ Hs1)|done|].
  rewrite Hentry. simpl.
  set (s1' := with_entry r _ s1).
  assert (H1' : sameShape s s1').
  { eapply sameShape_trans; [done|]. by apply sameShape_entry. }
  destruct (pending s1 !! id entry) as [todo|] eqn:Htodo; [|by exists s1'].
  pose proof (pendingTotal_delete _ _ _ Htodo) as Hdel.
  set (s2 := with_pending (delete (id entry) (pending s1')) s1').
  assert (H2 : sameShape s s2).
  { eapply sameShape_trans; [done|]. apply (sameShape_delete _ s1'). }
  pose (J := λ s3 : Spec,
    sameShape s s3 ∧
    pendingTotal (pending s3) + length todo ≤ pendingTotal (pending s1)).
  destruct (forOf_total
              (λ ra s3,
                 now ← nonNull "entry" (entries s3 !! r);
                 setReplacementAlgorithmStart fuel ra (stepNumbers now) s3)
              J todo s2) as (s3 & Hrun & Hs3 & Hle3).
  - split; [done|]. simpl. lia.
  - intros ra s3 [Hs3 Hle3] Hra.
    assert (0 < length todo) by (destruct todo; [set_solver|simpl; lia]).
    assert (Hw : ∀ e, waitingOn (pending s3) e → ready s3 e).
    { intros e He. apply (ready_shape s); [done|]. apply Hwait.
      eapply waitingOn_weaken; [apply Hs3|done]. }
    assert (Hnow : is_Some (entries s3 !! r)).
    { pose proof (shape_ids _ _ Hs3 r) as Hid.
      pose proof (shape_ids _ _ Hs1 r) as Hid1. rewrite Hentry in Hid1.
      rewrite <- Hid1 in Hid. destruct (entries s3 !! r); [eauto|done]. }
    destruct Hnow as [now Hnow]. rewrite Hnow. simpl.
    destruct (IH ra (stepNumbers now) s3) as (s4 & Hcall & Hle4).
    + lia.
    + apply (ready_shape s); [done|]. apply Hwait.
      exists (id entry), todo. split; [|done].
      eapply lookup_weaken; [done|apply Hs1].
    + done.
    + by apply (liveEntries_shape s).
    + exists s4. split; [done|]. split; [|lia].
      eapply sameShape_trans; [done|].
      by eapply setReplacementAlgorithmStart_shape.
  - exists s3. split; [done|]. split; [done|lia].
Qed.

Lemma kept_trans_eq s1 s2 s3 e :
  replacementAlgorithmToContainedLabeledStepEntries s2 =
    replacementAlgorithmToContainedLabeledStepEntries s1 →
  kept s1 s2 e → kept s2 s3 e → kept s1 s3 e.
Proof.
  intros Hs [Hr1 He1] [Hr2 He2]. split; [congruence|].
  intros l r Hl Hr. rewrite <- (He1 l r Hl Hr). apply (He2 l r); [|done].
  by rewrite Hs.
Qed.

Lemma kept_trans s1 s2 s3 e :
  sameShape s1 s2 → kept s1 s2 e → kept s2 s3 e → kept s1 s3 e.
Proof. intros Hs. apply kept_trans_eq, Hs. Qed.

Lemma pendingOnce_weaken (p p' : gmap string (list Element)) :
  p' ⊆ p → pendingOnce p → pendingOnce p'.
Proof.
  intros Hsub Hp k1 k2 l1 l2 e H1 H2. apply Hp; by eapply lookup_weaken.
Qed.

(** A call renumbers [element] and the algorithms it takes out of
    [pending], and nothing else. *)
Lemma setReplacementAlgorithmStart_kept fuel :
  ∀ element numbers s s',
    pendingOnce (pending s) → ownsDisjoint s →
    setReplacementAlgorithmStart fuel element numbers s = Done s' →
    ∀ e, e ≠ element →
      (waitingOn (pending s) e → waitingOn (pending s') e) →
      kept s s' e.
Proof.
  induction fuel as [|fuel IH]; intros element numbers s s' Honce Hown Hrun; [done|].
  rewrite setReplacementAlgorithmStart_S in Hrun.
  apply bind_Done in Hrun as (rootList & Hroot & Hrun).
  apply nonNull_Done in Hroot.
  apply bind_Done in Hrun as (contained & Hcont & Hrun).
  apply nonNull_Done in Hcont.
  set (s0 := with_rootList element (setStart numbers rootList) s) in *.
  assert (H0 : sameShape s s0) by (apply sameShape_rootList; eauto).
  pose (I := λ (_ : list EntryRef) (s1 : Spec),
    sameShape s s1 ∧
    ∀ e, e ≠ element → (waitingOn (pending s) e → waitingOn (pending s1) e) →
         kept s s1 e).
  enough (HI : I contained s') by apply HI.
  revert Hrun. apply forOf_invariant.
  { split; [done|]. intros e Hne _. split; simpl; [|done].
    by rewrite lookup_insert_ne. }
  intros pre r s1 s2 [Hs1 Hk1] Hr Hturn. unfold entryTurn in Hturn.
  apply bind_Done in Hturn as (entry & Hentry & Hturn).
  apply nonNull_Done in Hentry. simpl in Hturn.
  set (s1' := with_entry r _ s1) in *.
  assert (H11 : sameShape s1 s1') by (by apply sameShape_entry).
  assert (Hk11 : ∀ e, e ≠ element → kept s1 s1' e).
  { intros e Hne. split; simpl; [done|]. intros l r' Hl Hr'.
    rewrite lookup_insert_ne; [done|]. intros ->. apply Hne.
    rewrite (shape_contained _ _ Hs1) in Hl. by apply (Hown e element l contained r'). }
  destruct (pending s1 !! id entry) as [todo|] eqn:Htodo.
  2:{ simplify_eq. split; [by eapply sameShape_trans|].
      intros e Hne Hw. eapply kept_trans; [done| |by apply Hk11].
      apply Hk1; [done|]. intros He. by apply Hw in He. }
  set (s2' := with_pending (delete (id entry) (pending s1')) s1') in *.
  assert (H12 : sameShape s1 s2').
  { eapply sameShape_trans; [done|]. apply (sameShape_delete _ s1'). }
  pose (J := λ (_ : list Element) (s3 : Spec),
    sameShape s2' s3 ∧
    ∀ e, e ≠ element → (waitingOn (pending s) e → waitingOn (pending s3) e) →
         kept s s3 e).
  enough (HJ : J todo s2).
  { destruct HJ as [Hs3 Hk3]. split; [|done].
    eapply sameShape_trans; [done|]. by eapply sameShape_trans. }
  revert Hturn. apply forOf_invariant.
  { split; [apply sameShape_refl|]. intros e Hne Hw.
    eapply kept_trans; [done| |].
    - apply Hk1; [done|]. intros He. apply Hw in He.
      eapply waitingOn_weaken; [|done]. apply H12.
    - split; [done|]. apply (Hk11 e Hne). }
  intros pre' ra s3 s4 [Hs3 Hk3] Hra Hcall.
  apply bind_Done in Hcall as (now & _ & Hcall).
  pose proof (setReplacementAlgorithmStart_shape _ _ _ _ _ Hcall) as Hs34.
  assert (Hs_3 : sameShape s s3).
  { eapply sameShape_trans; [done|]. by eapply sameShape_trans. }
  split; [by eapply sameShape_trans|].
  intros e Hne Hw.
  assert (Hw3 : waitingOn (pending s) e → waitingOn (pending s3) e).
  { intros He. apply Hw in He. eapply waitingOn_weaken; [|done]. apply Hs34. }
  assert (Hnot : ¬ waitingOn (pending s3) ra).
  { intros (k & l & Hk & Hl).
    assert (Hk2 : pending s2' !! k = Some l) by (eapply lookup_weaken; [done|apply Hs3]).
    simpl in Hk2. apply lookup_delete_Some in Hk2 as [Hkne Hk1'].
    apply Hkne. symmetry.
    apply (pendingOnce_weaken _ _ (shape_pending _ _ Hs1) Honce k (id entry) l todo ra);
      done. }
  eapply kept_trans; [done|by apply Hk3|].
  eapply (IH ra _ s3 s4); try done.
  - eapply pendingOnce_weaken; [apply Hs_3|done].
  - intros e1 e2 l1 l2 r'. rewrite (shape_contained _ _ Hs_3). apply Hown.
  - intros ->. apply Hnot. apply Hw3.
    exists (id entry), todo. split; [|done].
    eapply lookup_weaken; [done|apply Hs1].
  - intros He. apply Hw. eapply waitingOn_weaken; [apply Hs_3|done].
Qed.

Lemma kept_refl s e : kept s s e.
Proof. by split. Qed.

(** The effect of a call on the algorithm it is called for. *)
Lemma setReplacementAlgorithmStart_rectifies fuel element numbers s s'
    rootList contained :
  rootLists s !! element = Some rootList →
  replacementAlgorithmToContainedLabeledStepEntries s !! element = Some contained →
  NoDup contained →
  pendingOnce (pending s) → ownsDisjoint s →
  ¬ waitingOn (pending s) element →
  setReplacementAlgorithmStart fuel element numbers s = Done s' →
  rootLists s' !! element = Some (setStart numbers rootList) ∧
  ∀ r entry, r ∈ contained → entries s !! r = Some entry →
    entries s' !! r =
      Some (mkStep (id entry) (rectified numbers (stepNumbers entry))).
Proof.
  intros Hroot Hcont Hnodup Honce Hown Hnot Hrun.
  destruct fuel as [|fuel]; [done|].
  rewrite setReplacementAlgorithmStart_S, Hroot, Hcont in Hrun. simpl in Hrun.
  set (s0 := with_rootList element (setStart numbers rootList) s) in *.
  assert (H0 : sameShape s s0) by (apply sameShape_rootList; eauto).
  pose (I := λ (pre : list EntryRef) (s1 : Spec),
    sameShape s s1 ∧
    rootLists s1 !! element = Some (setStart numbers rootList) ∧
    (∀ r entry, r ∈ pre → entries s !! r = Some entry →
       entries s1 !! r =
         Some (mkStep (id entry) (rectified numbers (stepNumbers entry)))) ∧
    (∀ r, r ∈ contained → r ∉ pre → entries s1 !! r = entries s !! r)).
  enough (HI : I contained s') by (destruct HI as (_ & ? & ? & _); done).
  revert Hrun. apply forOf_invariant_split.
  { split; [done|]. split; [apply lookup_insert_eq|]. split; [set_solver|done]. }
  intros pre r rest s1 s2 Hsplit (Hs1 & Hr1 & Hpre & Hpost) Hturn.
  assert (Hfresh : r ∉ pre ∧ r ∉ rest).
  { rewrite Hsplit in Hnodup. apply NoDup_app in Hnodup as (_ & Hd & Hn).
    apply NoDup_cons in Hn as [Hn _]. split; [|done].
    intros Hin. apply (Hd r Hin). set_solver. }
  destruct Hfresh as [Hr_pre Hr_rest].
  assert (Hr_in : r ∈ contained) by (rewrite Hsplit; set_solver).
  unfold entryTurn in Hturn.
  apply bind_Done in Hturn as (entry & Hentry & Hturn).
  apply nonNull_Done in Hentry. simpl in Hturn.
  assert (Hentry0 : entries s !! r = Some entry)
    by (by rewrite <- (Hpost r Hr_in Hr_pre)).
  set (s1' := with_entry r _ s1) in *.
  assert (H11 : sameShape s1 s1') by (by apply sameShape_entry).
  assert (Hmid : I (pre ++ [r]) s1').
  { split; [by eapply sameShape_trans|]. split; [done|]. split.
    - intros r' entry' Hin Hsome. simpl.
      destruct (decide (r = r')) as [<-|Hne].
      + rewrite lookup_insert_eq. by simplify_eq.
      + rewrite lookup_insert_ne; [|done]. apply Hpre; [set_solver|done].
    - intros r' Hin Hnin. simpl.
      rewrite lookup_insert_ne; [|set_solver]. apply Hpost; [done|set_solver]. }
  destruct (pending s1 !! id entry) as [todo|] eqn:Htodo; [|by simplify_eq].
  set (s2' := with_pending (delete (id entry) (pending s1')) s1') in *.
  assert (H12 : sameShape s s2').
  { eapply sameShape_trans; [done|]. eapply sameShape_trans; [done|].
    apply (sameShape_delete _ s1'). }
  pose (J := λ (_ : list Element) (s3 : Spec), sameShape s s3 ∧ kept s1' s3 element).
  assert (HJ : J todo s2).
  { revert Hturn. apply forOf_invariant; [by split|].
    intros pre' ra s3 s4 [Hs3 Hk3] Hra Hcall.
    apply bind_Done in Hcall as (now & _ & Hcall).
    pose proof (setReplacementAlgorithmStart_shape _ _ _ _ _ Hcall) as Hs34.
    split; [by eapply sameShape_trans|].
    assert (Hnot3 : ¬ waitingOn (pending s3) element).
    { intros Hw. apply Hnot. eapply waitingOn_weaken; [apply Hs3|done]. }
    assert (Hk34 : kept s3 s4 element).
    { eapply (setReplacementAlgorithmStart_kept _ ra _ s3 s4); try done.
      - eapply pendingOnce_weaken; [apply Hs3|done].
      - intros e1 e2 l1 l2 r'. rewrite (shape_contained _ _ Hs3). apply Hown.
      - intros ->. apply Hnot. exists (id entry), todo. split; [|done].
        eapply lookup_weaken; [done|apply Hs1]. }
    eapply kept_trans_eq; [|done|done].
    rewrite (shape_contained _ _ Hs3). simpl. by rewrite (shape_contained _ _ Hs1). }
  destruct HJ as [Hs2 [Hkr Hke]]. destruct Hmid as (_ & Hr1' & Hpre' & Hpost').
  assert (Hc1 : replacementAlgorithmToContainedLabeledStepEntries s1' !! element
                = Some contained).
  { simpl. by rewrite (shape_contained _ _ Hs1). }
  split; [done|]. split; [by rewrite Hkr|]. split.
  - intros r' entry' Hin Hsome. rewrite (Hke contained r' Hc1).
    + by apply Hpre'.
    + rewrite Hsplit. set_solver.
  - intros r' Hin Hnin. rewrite (Hke contained r' Hc1 Hin). by apply Hpost'.
Qed.

Lemma sum_list_with_submseteq {A} (f : A → nat) (l1 l2 : list A) :
  l1 ⊆+ l2 → sum_list_with f l1 ≤ sum_list_with f l2.
Proof. induction 1; simpl; lia. Qed.

Lemma pendingTotal_mono (p p' : gmap string (list Element)) :
  p' ⊆ p → pendingTotal p' ≤ pendingTotal p.
Proof.
  intros Hsub. unfold pendingTotal.
  by apply sum_list_with_submseteq, map_to_list_submseteq.
Qed.

(** Fuel above the number of waiting algorithms is never used up, whatever
    the state. *)
Lemma setReplacementAlgorithmStart_fuelled fuel :
  ∀ element numbers s,
    pendingTotal (pending s) < fuel →
    setReplacementAlgorithmStart fuel element numbers s ≠ OutOfFuel.
Proof.
  induction fuel as [|fuel IH]; intros element numbers s Hfuel; [lia|].
  rewrite setReplacementAlgorithmStart_S.
  destruct (rootLists s !! element) as [rootList|]; simpl; [|done].
  destruct (replacementAlgorithmToContainedLabeledStepEntries s !! element)
    as [contained|]; simpl; [|done].
  set (s0 := with_rootList element (setStart numbers rootList) s).
  pose (I := λ s1 : Spec, pendingTotal (pending s1) ≤ pendingTotal (pending s)).
  apply (forOf_fuelled (entryTurn (setReplacementAlgorithmStart fuel) numbers)
           I contained s0); [unfold I; simpl; lia|].
  intros r s1 Hle1 _. unfold entryTurn.
  destruct (entries s1 !! r) as [entry|]; simpl; [|by split].
  destruct (pending s1 !! id entry) as [todo|] eqn:Htodo.
  2:{ split; [done|]. by intros s2 [= <-]. }
  pose proof (pendingTotal_delete _ _ _ Htodo) as Hdel.
  pose (J := λ s3 : Spec,
    pendingTotal (pending s3) + length todo ≤ pendingTotal (pending s1)).
  match goal with |- forOf ?f todo ?s2 ≠ _ ∧ _ =>
    destruct (forOf_fuelled f J todo s2) as [Hne Hdone] end.
  - unfold J. simpl. lia.
  - intros ra s3 Hle3 Hra.
    assert (0 < length todo) by (destruct todo; [set_solver|simpl; lia]).
    destruct (entries s3 !! r) as [now|]; simpl; [|by split].
    split; [apply IH; unfold J in Hle3; unfold I in Hle1; lia|].
    intros s4 Hcall. apply setReplacementAlgorithmStart_shape in Hcall.
    unfold J in *.
    assert (pendingTotal (pending s4) ≤ pendingTotal (pending s3)); [|lia].
    clear -Hcall. destruct Hcall as [_ _ _ _ _ _ Hsub _].
    by apply pendingTotal_mono.
  - split; [done|]. intros s2 H2. apply Hdone in H2. unfold I, J in *. lia.
Qed.

(** The pass over the declarations ends, whatever the state. *)
Lemma setReplacementAlgorithmOffsets_ends s :
  setReplacementAlgorithmOffsets s ≠ OutOfFuel.
Proof.
  unfold setReplacementAlgorithmOffsets.
  destruct (forOf_fuelled declaration (λ _, True) (replacementAlgorithms s)
              (with_pending ∅ s)) as [Hne _]; [done| |].
  - intros [e t] s1 _ _. split; [|done]. unfold declaration.
    case_decide; [done|].
    destruct (biblio s1 !! t) as [[r|type]|]; try done.
    destruct (entries s1 !! r) as [targetEntry|]; [|done].
    apply (setReplacementAlgorithmStart_fuelled (S (pendingTotal (pending s1))) e
             (stepNumbers targetEntry) s1). lia.
  - by destruct (forOf declaration _ _).
Qed.

(** *** The loop over the declarations *)

Lemma sameShape_tables s s' : sameShape s s' → sameTables s s'.
Proof. intros []; by split. Qed.

Lemma sameTables_refl s : sameTables s s.
Proof. by split. Qed.

Lemma sameTables_trans s1 s2 s3 :
  sameTables s1 s2 → sameTables s2 s3 → sameTables s1 s3.
Proof.
  intros H12 H23; split.
  - intros e. rewrite (tables_rootLists _ _ H23). apply H12.
  - intros r. rewrite (tables_ids _ _ H23). apply H12.
  - rewrite (tables_biblio _ _ H23). apply H12.
  - rewrite (tables_contained _ _ H23). apply H12.
  - rewrite (tables_declared _ _ H23). apply H12.
  - transitivity (labeledStepsToBeRectified s2); [apply H23|apply H12].
Qed.

Lemma ready_tables s s' e : sameTables s s' → ready s e → ready s' e.
Proof.
  intros Hs [Hr Hc]. split.
  - by apply Hs.
  - by rewrite (tables_contained _ _ Hs).
Qed.

Lemma liveEntries_tables s s' : sameTables s s' → liveEntries s → liveEntries s'.
Proof.
  intros Hs Hl e l r He Hr. rewrite (tables_contained _ _ Hs) in He.
  destruct (Hl e l r He Hr) as [entry Hentry].
  pose proof (tables_ids _ _ Hs r) as Hid. rewrite Hentry in Hid.
  destruct (entries s' !! r); [eauto|done].
Qed.

Lemma liveBiblio_tables s s' : sameTables s s' → liveBiblio s → liveBiblio s'.
Proof.
  intros Hs Hl t r Ht. rewrite (tables_biblio _ _ Hs) in Ht.
  destruct (Hl t r Ht) as [entry Hentry].
  pose proof (tables_ids _ _ Hs r) as Hid. rewrite Hentry in Hid.
  destruct (entries s' !! r); [eauto|done].
Qed.

Lemma waitingOn_push (p : gmap string (list Element)) t e e' :
  waitingOn (<[t := default [] (p !! t) ++ [e]]> p) e' ↔ e' = e ∨ waitingOn p e'.
Proof.
  split.
  - intros (k & l & Hk & Hl). destruct (decide (t = k)) as [->|Hne].
    + rewrite lookup_insert_eq in Hk. simplify_eq.
      apply elem_of_app in Hl as [Hl|Hl]; [|left; set_solver].
      right. destruct (p !! k) as [l0|] eqn:Hp; simpl in Hl; [|set_solver].
      by exists k, l0.
    + rewrite lookup_insert_ne in Hk; [|done]. right. by exists k, l.
  - intros [->|(k & l & Hk & Hl)].
    + exists t, (default [] (p !! t) ++ [e]). rewrite lookup_insert_eq.
      split; [done|set_solver].
    + destruct (decide (t = k)) as [->|Hne].
      * exists k, (default [] (p !! k) ++ [e]). rewrite lookup_insert_eq, Hk.
        split; [done|]. simpl. set_solver.
      * exists k, l. by rewrite lookup_insert_ne.
Qed.

Lemma pendingOnce_push (p : gmap string (list Element)) t e :
  pendingOnce p → ¬ waitingOn p e →
  pendingOnce (<[t := default [] (p !! t) ++ [e]]> p).
Proof.
  intros Hp Hnot k1 k2 l1 l2 e' H1 H2 He1 He2.
  assert (Hold : ∀ k l, <[t := default [] (p !! t) ++ [e]]> p !! k = Some l →
            e' ∈ l → e' ≠ e → ∃ l0, p !! k = Some l0 ∧ e' ∈ l0).
  { intros k l Hk Hl Hne. destruct (decide (t = k)) as [->|Hkne].
    - rewrite lookup_insert_eq in Hk. simplify_eq.
      apply elem_of_app in Hl as [Hl|Hl]; [|set_solver].
      destruct (p !! k) as [l0|]; simpl in Hl; [eauto|set_solver].
    - rewrite lookup_insert_ne in Hk; eauto. }
  assert (Hnew : ∀ k l, <[t := default [] (p !! t) ++ [e]]> p !! k = Some l →
            e ∈ l → k = t).
  { intros k l Hk Hl. destruct (decide (t = k)) as [->|Hkne]; [done|].
    rewrite lookup_insert_ne in Hk; [|done]. destruct Hnot. by exists k, l. }
  destruct (decide (e' = e)) as [->|Hne].
  - rewrite (Hnew k1 l1), (Hnew k2 l2); done.
  - destruct (Hold k1 l1) as (m1 & ? & ?); [done..|].
    destruct (Hold k2 l2) as (m2 & ? & ?); [done..|].
    by apply (Hp k1 k2 m1 m2 e').
Qed.

Lemma pendingOnce_empty : pendingOnce ∅.
Proof. intros k1 k2 l1 l2 e H1. by rewrite lookup_empty in H1. Qed.

Lemma loopInvariant_start s : loopInvariant s [] (with_pending ∅ s).
Proof.
  split; simpl.
  - by split.
  - intros e (k & l & Hk & _). by rewrite lookup_empty in Hk.
  - apply pendingOnce_empty.
  - intros e _. by split.
  - exists []. by rewrite app_nil_r.
Qed.

Lemma loopInvariant_warn s pre d w s1 :
  isGlobal w = false →
  loopInvariant s pre s1 → loopInvariant s (pre ++ [d]) (warn w s1).
Proof.
  intros Hw [Ht Hwait Honce Hkept (ws & Hws & Hall)]. split; simpl.
  - destruct Ht; by split.
  - intros e' He'. rewrite fmap_app. set_solver.
  - done.
  - intros e' He'. destruct (Hkept e') as [Hr He].
    + destruct He' as [?|Hn]; [by left|right]. rewrite fmap_app in Hn. set_solver.
    + by split.
  - exists (ws ++ [w]). rewrite Hws, <- app_assoc. split; [done|].
    apply Forall_app. split; [done|]. by apply Forall_singleton.
Qed.

(** One turn of the loop completes and keeps the invariant. *)
Lemma declaration_step s pre e t rest s1 :
  prepared s → ownsDisjoint s → NoDup (replacementAlgorithms s).*1 →
  replacementAlgorithms s = pre ++ (e, t) :: rest →
  loopInvariant s pre s1 →
  ∃ s2, declaration (e, t) s1 = Done s2 ∧ loopInvariant s (pre ++ [(e, t)]) s2.
Proof.
  intros [Hready Hlive Hbib] Hown Hnodup Hsplit Hinv.
  pose proof Hinv as [Ht Hwait Honce Hkept (ws & Hws & Hall)].
  assert (Hfresh : e ∉ pre.*1).
  { rewrite Hsplit, fmap_app in Hnodup. apply NoDup_app in Hnodup as (_ & Hd & _).
    intros Hin. apply (Hd e Hin). simpl. set_solver. }
  assert (Hdecl : ∀ e', e' ∈ pre.*1 ∨ e' = e → ready s1 e').
  { intros e' He'. apply (ready_tables s); [done|].
    destruct He' as [He'| ->].
    - apply list_elem_of_fmap in He' as ([e0 t0] & -> & Hin).
      apply (Hready e0 t0). rewrite Hsplit. set_solver.
    - apply (Hready e t). rewrite Hsplit. set_solver. }
  unfold declaration.
  destruct (decide (t ∈ labeledStepsToBeRectified s1)) as [Hlab|Hlab].
  { eexists. split; [done|]. split; simpl.
    - destruct Ht; by split.
    - intros e' He'. apply waitingOn_push in He' as [->|He'];
        rewrite fmap_app; [set_solver|]. apply Hwait in He'. set_solver.
    - apply pendingOnce_push; [done|]. intros He. by apply Hwait in He.
    - intros e' He'. destruct (Hkept e') as [Hr He].
      + destruct He' as [He'|Hn].
        * apply waitingOn_push in He' as [->|He']; [by right|by left].
        * right. rewrite fmap_app in Hn. set_solver.
      + by split.
    - by exists ws. }
  destruct (biblio s1 !! t) as [[r|type]|] eqn:Hbt.
  - destruct (liveBiblio_tables _ _ Ht Hbib t r Hbt) as [targetEntry Htarget].
    rewrite Htarget. simpl.
    destruct (setReplacementAlgorithmStart_total (S (pendingTotal (pending s1))) e
                (stepNumbers targetEntry) s1) as (s2 & Hcall & _).
    + lia.
    + apply Hdecl. by right.
    + intros e' He'. apply Hdecl. left. by apply Hwait.
    + by apply (liveEntries_tables s).
    + exists s2. split; [done|].
      pose proof (setReplacementAlgorithmStart_shape _ _ _ _ _ Hcall) as Hs12.
      assert (Hw21 : ∀ e', waitingOn (pending s2) e' → waitingOn (pending s1) e').
      { intros e'. apply waitingOn_weaken, Hs12. }
      split.
      * eapply sameTables_trans; [done|]. by apply sameShape_tables.
      * intros e' He'. rewrite fmap_app. apply Hw21, Hwait in He'. set_solver.
      * eapply pendingOnce_weaken; [apply Hs12|done].
      * intros e' He'. eapply kept_trans_eq; [apply Ht| |].
        -- apply Hkept. destruct He' as [He'|Hn]; [left; by apply Hw21|right].
           rewrite fmap_app in Hn. set_solver.
        -- eapply (setReplacementAlgorithmStart_kept _ e _ s1 s2); try done.
           ++ intros e1 e2 l1 l2 r'. rewrite (tables_contained _ _ Ht). apply Hown.
           ++ intros ->. destruct He' as [He'|Hn].
              ** by apply Hw21, Hwait in He'.
              ** apply Hn. rewrite fmap_app. set_solver.
           ++ intros Hw1. destruct He' as [?|Hn]; [done|].
              apply Hwait in Hw1. destruct Hn. rewrite fmap_app. set_solver.
      * exists ws. by rewrite (shape_warnings _ _ Hs12).
  - eexists. split; [done|]. by apply loopInvariant_warn.
  - eexists. split; [done|]. by apply loopInvariant_warn.
Qed.

(** The loop over the declarations completes. *)
Lemma declarations_total s :
  prepared s → ownsDisjoint s → NoDup (replacementAlgorithms s).*1 →
  ∃ s', forOf declaration (replacementAlgorithms s) (with_pending ∅ s) = Done s' ∧
        loopInvariant s (replacementAlgorithms s) s'.
Proof.
  intros Hprep Hown Hnodup. apply forOf_total_split.
  - apply loopInvariant_start.
  - intros pre [e t] rest s1 Hsplit Hinv. by eapply declaration_step.
Qed.

(** *** Algorithms that stay pending *)

Section Protected.
Context (X : Element → Prop) (T : string → Prop).

Lemma ownedBy_tables s s' : sameTables s s' → ownedBy X T s → ownedBy X T s'.
Proof.
  intros Hs Ho e l r entry Hl Hr Hentry HT.
  rewrite (tables_contained _ _ Hs) in Hl.
  pose proof (tables_ids _ _ Hs r) as Hid. rewrite Hentry in Hid.
  destruct (entries s !! r) as [entry0|] eqn:H0; [|done].
  simpl in Hid. apply (Ho e l r entry0); try done. congruence.
Qed.

(** A call for an algorithm outside [X] leaves the lists under the keys of
    [T] and the ids of [T] as they are. *)
Lemma setReplacementAlgorithmStart_protects fuel :
  ∀ element numbers s s',
    ¬ X element → waitsUnder X T s → ownedBy X T s →
    setReplacementAlgorithmStart fuel element numbers s = Done s' →
    (∀ k, T k → pending s' !! k = pending s !! k) ∧
    (∀ t, T t → t ∈ labeledStepsToBeRectified s →
            t ∈ labeledStepsToBeRectified s').
Proof.
  induction fuel as [|fuel IH]; intros element numbers s s' HX Hw Ho Hrun; [done|].
  rewrite setReplacementAlgorithmStart_S in Hrun.
  apply bind_Done in Hrun as (rootList & Hroot & Hrun).
  apply nonNull_Done in Hroot.
  apply bind_Done in Hrun as (contained & Hcont & Hrun).
  apply nonNull_Done in Hcont.
  set (s0 := with_rootList element (setStart numbers rootList) s) in *.
  assert (H0 : sameShape s s0) by (apply sameShape_rootList; eauto).
  pose (I := λ (_ : list EntryRef) (s1 : Spec),
    sameShape s s1 ∧
    (∀ k, T k → pending s1 !! k = pending s !! k) ∧
    (∀ t, T t → t ∈ labeledStepsToBeRectified s →
            t ∈ labeledStepsToBeRectified s1)).
  enough (HI : I contained s') by apply HI.
  revert Hrun. apply forOf_invariant; [by split|].
  intros pre r s1 s2 (Hs1 & Hp1 & Hl1) Hr Hturn. unfold entryTurn in Hturn.
  apply bind_Done in Hturn as (entry & Hentry & Hturn).
  apply nonNull_Done in Hentry. simpl in Hturn.
  assert (HnT : ¬ T (id entry)).
  { intros HT. apply HX.
    apply (ownedBy_tables s s1 (sameShape_tables _ _ Hs1) Ho element contained r entry);
      try done. by rewrite (shape_contained _ _ Hs1). }
  set (s1' := with_entry r _ s1) in *.
  assert (H11 : sameShape s1 s1') by (by apply sameShape_entry).
  assert (Hl1' : ∀ t, T t → t ∈ labeledStepsToBeRectified s →
                   t ∈ labeledStepsToBeRectified s1').
  { intros t HT Ht. simpl. apply elem_of_difference. split; [by apply Hl1|].
    intros ->%elem_of_singleton. done. }
  destruct (pending s1 !! id entry) as [todo|] eqn:Htodo.
  2:{ simplify_eq. split; [by eapply sameShape_trans|]. by split. }
  set (s2' := with_pending (delete (id entry) (pending s1')) s1') in *.
  pose (J := λ (_ : list Element) (s3 : Spec),
    sameShape s s3 ∧
    (∀ k, T k → pending s3 !! k = pending s !! k) ∧
    (∀ t, T t → t ∈ labeledStepsToBeRectified s →
            t ∈ labeledStepsToBeRectified s3)).
  enough (HJ : J todo s2) by apply HJ.
  revert Hturn. apply forOf_invariant.
  { split; [|split; [|done]].
    - eapply sameShape_trans; [done|]. eapply sameShape_trans; [done|].
      apply (sameShape_delete _ s1').
    - intros k HT. simpl. rewrite lookup_delete_ne; [by apply Hp1|].
      intros <-. done. }
  intros pre' ra s3 s4 (Hs3 & Hp3 & Hl3) Hra Hcall.
  apply bind_Done in Hcall as (now & _ & Hcall).
  pose proof (setReplacementAlgorithmStart_shape _ _ _ _ _ Hcall) as Hs34.
  destruct (IH ra (stepNumbers now) s3 s4) as [Hp4 Hl4]; try done.
  - intros HXra. apply HnT. apply (Hw (id entry) todo ra); [|done..].
    apply (lookup_weaken (pending s1)); [done|apply Hs1].
  - intros k l e Hk He HXe. apply (Hw k l e); [|done..].
    apply (lookup_weaken (pending s3)); [done|apply Hs3].
  - apply (ownedBy_tables s); [by apply sameShape_tables|done].
  - split; [by eapply sameShape_trans|]. split.
    + intros k HT. rewrite Hp4; auto.
    + intros t HT Ht. apply Hl4; auto.
Qed.

End Protected.

Section Stuck.
Context (X : Element → Prop) (s : Spec) (Hstuck : stuck X s).

Lemma stuck_ownedBy : ownedBy X (awaited X s) s.
Proof.
  intros e l r entry Hl Hr Hentry (Hlab & e0 & HX & Hdecl).
  destruct (Hstuck e0 (id entry) Hdecl HX) as [[_ Hclosed]|[Hn _]]; [|done].
  by apply (Hclosed e l r entry).
Qed.

Lemma stuckInvariant_warn pre e t w s1 :
  replacementAlgorithms s = pre ++ (e, t) :: drop (S (length pre)) (replacementAlgorithms s) →
  t ∉ labeledStepsToBeRectified s1 →
  stuckInvariant X s pre s1 → stuckInvariant X s (pre ++ [(e, t)]) (warn w s1).
Proof.
  intros Hsplit Hlab [Ht Hu Hl Hw]. split; simpl; try done.
  - destruct Ht; by split.
  - intros e0 t0 Hin HX Hlab0. apply elem_of_app in Hin as [Hin|Hin]; [eauto|].
    apply list_elem_of_singleton in Hin. simplify_eq.
    destruct Hlab. apply Hl. split; [done|]. exists e. split; [done|].
    rewrite Hsplit. set_solver.
Qed.

Lemma declaration_stuck pre e t rest s1 s2 :
  replacementAlgorithms s = pre ++ (e, t) :: rest →
  stuckInvariant X s pre s1 →
  declaration (e, t) s1 = Done s2 →
  stuckInvariant X s (pre ++ [(e, t)]) s2.
Proof.
  intros Hsplit Hinv Hrun. pose proof Hinv as [Ht Hu Hl Hw].
  assert (Hdecl : (e, t) ∈ replacementAlgorithms s) by (rewrite Hsplit; set_solver).
  assert (Hrest : rest = drop (S (length pre)) (replacementAlgorithms s)).
  { rewrite Hsplit. rewrite drop_app_ge by lia.
    replace (S (length pre) - length pre) with 1 by lia. done. }
  unfold declaration in Hrun.
  destruct (decide (t ∈ labeledStepsToBeRectified s1)) as [Hlab|Hlab].
  { simplify_eq. split; simpl.
    - destruct Ht; by split.
    - intros k l e0 Hk He0 HX0. simpl in Hk.
      destruct (decide (t = k)) as [->|Hne].
      + rewrite lookup_insert_eq in Hk. simplify_eq.
        apply elem_of_app in He0 as [He0|He0].
        * destruct (pending s1 !! k) as [l0|] eqn:Hp; simpl in He0; [|set_solver].
          by apply (Hu k l0 e0).
        * apply list_elem_of_singleton in He0 as ->. split; [|by exists e].
          by apply (tables_labeled _ _ Ht).
      + rewrite lookup_insert_ne in Hk; [|done]. by apply (Hu k l e0).
    - done.
    - intros e0 t0 Hin HX0 Hlab0. destruct (decide (t = t0)) as [->|Hne].
      + rewrite lookup_insert_eq. eexists. split; [done|].
        apply elem_of_app in Hin as [Hin|Hin].
        * destruct (Hw e0 t0 Hin HX0 Hlab0) as (l & -> & Hl0). set_solver.
        * apply list_elem_of_singleton in Hin. simplify_eq. set_solver.
      + rewrite lookup_insert_ne; [|done].
        apply elem_of_app in Hin as [Hin|Hin]; [eauto|].
        apply list_elem_of_singleton in Hin. by simplify_eq. }
  destruct (biblio s1 !! t) as [[r|type]|] eqn:Hbt.
  - apply bind_Done in Hrun as (targetEntry & _ & Hcall).
    assert (HnX : ¬ X e).
    { intros HX. destruct (Hstuck e t Hdecl HX) as [[Hin _]|[_ Hno]].
      - apply Hlab, Hl. split; [done|]. by exists e.
      - apply (Hno r). by rewrite <- (tables_biblio _ _ Ht). }
    pose proof (setReplacementAlgorithmStart_shape _ _ _ _ _ Hcall) as Hs12.
    destruct (setReplacementAlgorithmStart_protects X (awaited X s) _ _ _ _ _
                HnX Hu (ownedBy_tables _ _ _ _ Ht stuck_ownedBy) Hcall)
      as [Hp2 Hl2].
    split.
    + eapply sameTables_trans; [done|]. by apply sameShape_tables.
    + intros k l e0 Hk. apply (Hu k l e0).
      apply (lookup_weaken (pending s2)); [done|apply Hs12].
    + intros t0 HT. apply Hl2; [done|]. by apply Hl.
    + intros e0 t0 Hin HX0 Hlab0.
      apply elem_of_app in Hin as [Hin|Hin].
      * rewrite Hp2; [eauto|]. split; [done|]. exists e0. split; [done|].
        rewrite Hsplit. set_solver.
      * apply list_elem_of_singleton in Hin. by simplify_eq.
  - simplify_eq. apply stuckInvariant_warn; done.
  - simplify_eq. apply stuckInvariant_warn; done.
Qed.

(** After the loop every algorithm of [X] that met an awaited step is in
    [pending]. *)
Lemma declarations_stuck s' :
  forOf declaration (replacementAlgorithms s) (with_pending ∅ s) = Done s' →
  ∀ e t, (e, t) ∈ replacementAlgorithms s → X e →
    t ∈ labeledStepsToBeRectified s →
    ∃ l, pending s' !! t = Some l ∧ e ∈ l.
Proof.
  intros Hrun.
  enough (Hinv : stuckInvariant X s (replacementAlgorithms s) s') by apply Hinv.
  revert Hrun. apply forOf_invariant_split.
  - split; simpl; [by split| |by intros t []|set_solver].
    intros k l e Hk. simpl in Hk. by rewrite lookup_empty in Hk.
  - intros pre [e t] rest s1 s2 Hsplit Hinv Hrun. by eapply declaration_stuck.
Qed.

End Stuck.

(** *** The claims about the resolver *)

Lemma filter_isGlobal_attr (ws : list Warning) :
  Forall (λ w, isGlobal w = false) ws → List.filter isGlobal ws = [].
Proof.
  induction 1 as [|w ws Hw _ IH]; simpl; [done|]. by rewrite Hw.
Qed.


(** C2. When the declarations contain algorithms that can never be
    numbered (a cycle, or a chain ending in a target that is no step), the
    pass completes, reports exactly one more global diagnostic, leaves every
    algorithm still pending with the numbering it had, and those algorithms
    are still pending. *)
Theorem cycle_reported_once s (X : Element → Prop) :
  prepared s → ownsDisjoint s → NoDup (replacementAlgorithms s).*1 →
  stuck X s →
  (∃ e t, (e, t) ∈ replacementAlgorithms s ∧ X e ∧
          t ∈ labeledStepsToBeRectified s) →
  ∃ s',
    setReplacementAlgorithmOffsets s = Done s' ∧
    List.filter isGlobal (warnings s') =
      List.filter isGlobal (warnings s) ++ [ambiguous] ∧
    (∀ e, waitingOn (pending s') e → kept s s' e) ∧
    (∀ e t, (e, t) ∈ replacementAlgorithms s → X e →
       t ∈ labeledStepsToBeRectified s → waitingOn (pending s') e).
Proof.
  intros Hprep Hown Hnodup Hstuck (e0 & t0 & Hdecl0 & HX0 & Hlab0).
  destruct (declarations_total s Hprep Hown Hnodup) as (s1 & Hrun & Hinv).
  pose proof (declarations_stuck X s Hstuck s1 Hrun) as Hwaits.
  destruct Hinv as [Ht Hwait Honce Hkept (ws & Hws & Hall)].
  destruct (Hwaits e0 t0 Hdecl0 HX0 Hlab0) as (l0 & Hl0 & He0).
  assert (Hsize : 0 < size (pending s1)).
  { enough (size (pending s1) ≠ 0) by lia.
    apply map_size_non_empty_iff. intros Hempty.
    by rewrite Hempty, lookup_empty in Hl0. }
  exists (warn ambiguous s1). split.
  { unfold setReplacementAlgorithmOffsets. rewrite Hrun. simpl.
    unfold reportPending. by rewrite decide_True. }
  simpl. split; [|split].
  - rewrite Hws, !List.filter_app, (filter_isGlobal_attr ws Hall). simpl.
    by rewrite app_nil_r.
  - intros e He. destruct (Hkept e) as [Hr Hen]; [by left|]. by split.
  - intros e t Hdecl HX Hlab.
    destruct (Hwaits e t Hdecl HX Hlab) as (l & Hl & He). by exists t, l.
Qed.

(** C3. A declaration whose target is not waiting to be rectified and is
    missing from the biblio, or is there with a type other than step, adds
    one warning on the algorithm's replaces-step attribute, changes nothing
    else, and the loop goes on with the declarations that follow. *)
Theorem invalid_target_warns s element target rest :
  target ∉ labeledStepsToBeRectified s →
  (biblio s !! target = None ∨
   ∃ type, biblio s !! target = Some (OtherEntry type)) →
  ∃ message,
    let w := AttrWarning element "replaces-step" "invalid-replacement" message in
    declaration (element, target) s = Done (warn w s) ∧
    warnings (warn w s) = warnings s ++ [w] ∧
    rootLists (warn w s) = rootLists s ∧
    entries (warn w s) = entries s ∧
    pending (warn w s) = pending s ∧
    labeledStepsToBeRectified (warn w s) = labeledStepsToBeRectified s ∧
    forOf declaration ((element, target) :: rest) s =
      forOf declaration rest (warn w s).
Proof.
  intros Hlab [Hnone|[type Hother]].
  - exists ("could not find step " +:+ JSON_stringify target). cbv zeta.
    assert (Hd : declaration (element, target) s =
                 Done (warn (couldNotFind element target) s)).
    { unfold declaration. rewrite decide_False by done. by rewrite Hnone. }
    repeat split; try done. cbn [forOf]. by rewrite Hd.
  - exists ("expected algorithm to replace a step, not a " +:+ type). cbv zeta.
    assert (Hd : declaration (element, target) s =
                 Done (warn (notAStep element type) s)).
    { unfold declaration. rewrite decide_False by done. by rewrite Hother. }
    repeat split; try done. cbn [forOf]. by rewrite Hd.
Qed.


(** *** The examples *)

Import ReplacementExamples.

Ltac map_cases H :=
  repeat (apply lookup_insert_Some in H as [[? ?]|[? H]]);
  try (apply lookup_singleton_Some in H as [? ?]);
  try (by rewrite lookup_empty in H); simplify_eq.

Ltac list_cases H :=
  repeat (apply elem_of_cons in H as [?|H]);
  try (by apply elem_of_nil in H); simplify_eq.

Lemma nothing_waits e : ¬ waitingOn ∅ e.
Proof. intros (k & l & Hk & _). by rewrite lookup_empty in Hk. Qed.

Lemma nested_liveEntries : liveEntries nested.
Proof.
  intros e l r Hl Hr. simpl in Hl. map_cases Hl. list_cases Hr; by eexists.
Qed.

Lemma nested_ownsDisjoint : ownsDisjoint nested.
Proof.
  intros e1 e2 l1 l2 r H1 H2 _ _. simpl in H1, H2. map_cases H1. by map_cases H2.
Qed.



Lemma cycle_prepared : prepared cycle.
Proof.
  split.
  - intros e t H. simpl in H.
    list_cases H; split; eexists; vm_compute; reflexivity.
  - intros e l r Hl Hr. simpl in Hl.
    map_cases Hl; list_cases Hr; eexists; vm_compute; reflexivity.
  - intros t r Ht. simpl in Ht.
    map_cases Ht; simplify_eq; eexists; vm_compute; reflexivity.
Qed.

Lemma cycle_ownsDisjoint : ownsDisjoint cycle.
Proof.
  intros e1 e2 l1 l2 r H1 H2 Hr1 Hr2. simpl in H1, H2.
  map_cases H1; map_cases H2; try done; list_cases Hr1; list_cases Hr2.
Qed.

Lemma cycle_stuck : stuck inCycle cycle.
Proof.
  intros e t Hdecl _. left. split.
  - simpl in Hdecl. list_cases Hdecl; simplify_eq; set_solver.
  - intros e' l r entry Hl _ _ _. simpl in Hl.
    map_cases Hl; [by left|by right].
Qed.

Lemma cycle_reported_once_witness :
  ∃ s',
    setReplacementAlgorithmOffsets cycle = Done s' ∧
    List.filter isGlobal (warnings s') =
      List.filter isGlobal (warnings cycle) ++ [ambiguous] ∧
    (∀ e, waitingOn (pending s') e → kept cycle s' e) ∧
    (∀ e t, (e, t) ∈ replacementAlgorithms cycle → inCycle e →
       t ∈ labeledStepsToBeRectified cycle → waitingOn (pending s') e).
Proof.
  apply (cycle_reported_once cycle inCycle).
  - exact cycle_prepared.
  - exact cycle_ownsDisjoint.
  - apply (bool_decide_unpack (NoDup [1; 2])). vm_compute. exact I.
  - exact cycle_stuck.
  - exists 1, "b". split; [simpl; set_solver|]. split; [by left|].
    simpl. set_solver.
Defined.

Lemma invalid_target_warns_witness :
  ∃ message,
    let w := AttrWarning 1 "replaces-step" "invalid-replacement" message in
    declaration (1, "nowhere") mistargeted = Done (warn w mistargeted) ∧
    warnings (warn w mistargeted) = warnings mistargeted ++ [w] ∧
    rootLists (warn w mistargeted) = rootLists mistargeted ∧
    entries (warn w mistargeted) = entries mistargeted ∧
    pending (warn w mistargeted) = pending mistargeted ∧
    labeledStepsToBeRectified (warn w mistargeted) =
      labeledStepsToBeRectified mistargeted ∧
    forOf declaration [(1, "nowhere"); (2, "sec-x")] mistargeted =
      forOf declaration [(2, "sec-x")] (warn w mistargeted).
Proof.
  apply (invalid_target_warns mistargeted 1 "nowhere" [(2, "sec-x")]).
  - vm_compute. intros H. inversion H.
  - left. reflexivity.
Defined.

End ReplacementFacts.

(** ** The walk *)

Module WalkFacts.
Import Walk.

(** Induction on trees, with the hypothesis for every node of the lists. *)
Lemma Node_forall_ind (P : Node → Prop) :
  (∀ n textContent emd, Forall P emd → P (Text n textContent emd)) →
  (∀ n nodeName attributes childNodes,
     Forall P childNodes → P (Element n nodeName attributes childNodes)) →
  ∀ x, P x.
Proof.
  intros HT HE.
  fix IH 1. intros [n t emd|n name attrs children].
  - apply HT. induction emd as [|y emd IHl]; constructor; [apply IH|apply IHl].
  - apply HE. induction children as [|y ch IHl]; constructor; [apply IH|apply IHl].
Qed.

Section Walker.
Context (NO_CLAUSE_AUTOLINK : gset string)
        (visitorMap : gmap string BuilderInterface).

Abbreviation walk := (walk NO_CLAUSE_AUTOLINK visitorMap).
Abbreviation element := (element NO_CLAUSE_AUTOLINK visitorMap).
Abbreviation visitChildren := (visitChildren NO_CLAUSE_AUTOLINK visitorMap).

Lemma walk_Text n textContent emd resume ctx :
  walk (Text n textContent emd) resume ctx =
  let '(ctx, expanded) := text (Parsed n) textContent resume ctx in
  if expanded then siblings walk emd resume ctx else ctx.
Proof. reflexivity. Qed.

Lemma walk_Element n nodeName attributes childNodes resume ctx :
  walk (Element n nodeName attributes childNodes) resume ctx =
  element (mkElementInfo (Parsed n) nodeName attributes)
    (match anchors n attributes, childNodes with
     | [], [] => None
     | _, _ => Some (visitChildren n attributes childNodes resume)
     end) ctx.
Proof.
  unfold Walk.visitChildren. simpl. by destruct (anchors n attributes), childNodes.
Qed.

(** A property of contexts that every walk of the nodes of a list keeps is
    kept by the loop over them. *)
Lemma siblings_keeps (Q : Context → Prop) (nodes : list Node) :
  Forall (λ x, ∀ resume ctx, Q ctx → Q (walk x resume ctx)) nodes →
  ∀ resume ctx, Q ctx → Q (siblings walk nodes resume ctx).
Proof.
  induction 1 as [|x rest Hx _ IH]; intros resume ctx HQ; simpl; [done|].
  apply IH, Hx, HQ.
Qed.

Lemma arrive_inNoAutolink x ctx : inNoAutolink (arrive x ctx) = inNoAutolink ctx.
Proof. unfold arrive. by case_decide. Qed.

Lemma arrive_textNodes x ctx : _textNodes (arrive x ctx) = _textNodes ctx.
Proof. unfold arrive. by case_decide. Qed.

Lemma expand_inNoAutolink resume ctx :
  inNoAutolink (expand resume ctx) = inNoAutolink ctx.
Proof. by destruct resume. Qed.

Lemma expand_textNodes resume ctx : _textNodes (expand resume ctx) = _textNodes ctx.
Proof. by destruct resume. Qed.

Lemma text_inNoAutolink x t resume ctx :
  inNoAutolink (text x t resume ctx).1 = inNoAutolink ctx.
Proof.
  unfold text. case_decide; simpl; [apply arrive_inNoAutolink|].
  destruct (inNoEmd (arrive x ctx)); simpl;
    rewrite ?expand_inNoAutolink, arrive_inNoAutolink;
    destruct (inNoAutolink ctx) eqn:E; simpl;
    by rewrite ?expand_inNoAutolink, ?arrive_inNoAutolink.
Qed.

(** The element branch gives the autolink flag back as it found it, when
    the builders and the visit of the children do. *)
Lemma element_inNoAutolink el children ctx :
  buildersKeep inNoAutolink visitorMap →
  (∀ visit c, children = Some visit → inNoAutolink (visit c) = inNoAutolink c) →
  inNoAutolink (element el children ctx) = inNoAutolink ctx.
Proof.
  intros Hb Hc. unfold Walk.element. simpl.
  rewrite <- (arrive_inNoAutolink (el_ref el) ctx).
  set (c0 := arrive (el_ref el) ctx).
  set (c1 := match getAttribute "id" (el_attributes el) with
             | Some i => set_currentId (Some i) c0 | None => c0 end).
  assert (H1 : inNoAutolink c1 = inNoAutolink c0).
  { unfold c1. by destruct (getAttribute _ _). }
  rewrite H1.
  set (changed := bool_decide (el_nodeName el ∈ NO_CLAUSE_AUTOLINK)
                  && negb (inNoAutolink c0)).
  set (c2 := if changed then set_inNoAutolink true c1 else c1).
  set (changedEmd := bool_decide (el_nodeName el ∈ NO_EMD) && negb (inNoEmd c2)).
  set (c3 := if changedEmd then set_inNoEmd true c2 else c2).
  assert (H3 : inNoAutolink c3 = inNoAutolink c2) by (unfold c3; by destruct changedEmd).
  set (c4 := match visitorMap !! el_nodeName el with
             | Some v => enter v el c3 | None => c3 end).
  assert (H4 : inNoAutolink c4 = inNoAutolink c2).
  { unfold c4. destruct (visitorMap !! el_nodeName el) as [v|] eqn:Hv; [|done].
    by rewrite (proj1 (Hb _ v el c3 Hv)). }
  set (c5 := match children with
             | Some visit => set_node (el_ref el) (visit c4) | None => c4 end).
  assert (H5 : inNoAutolink c5 = inNoAutolink c2).
  { unfold c5. destruct children as [visit|]; [|done]. simpl.
    by rewrite (Hc visit c4). }
  set (c6 := match visitorMap !! el_nodeName el with
             | Some v => exit v el c5 | None => c5 end).
  assert (H6 : inNoAutolink c6 = inNoAutolink c2).
  { unfold c6. destruct (visitorMap !! el_nodeName el) as [v|] eqn:Hv; [|done].
    by rewrite (proj2 (Hb _ v el c5 Hv)). }
  set (c7 := if changed then set_inNoAutolink false c6 else c6).
  assert (H7 : inNoAutolink c7 = inNoAutolink c0).
  { unfold c7, c2 in *. unfold changed in *.
    destruct (bool_decide _); simpl in *; [|congruence].
    destruct (inNoAutolink c0); simpl in *; congruence. }
  by destruct changedEmd.
Qed.

Lemma anchors_inNoAutolink spans ctx :
  buildersKeep inNoAutolink visitorMap →
  inNoAutolink (foldl (λ ctx span, element span None ctx) ctx spans)
  = inNoAutolink ctx.
Proof.
  intros Hb. revert ctx. induction spans as [|sp spans IHs]; intros c'; simpl; [done|].
  rewrite IHs. by apply element_inNoAutolink.
Qed.

(** After the walk of a node the autolink flag is as on entry. *)
Lemma walk_inNoAutolink :
  buildersKeep inNoAutolink visitorMap →
  ∀ x resume ctx, inNoAutolink (walk x resume ctx) = inNoAutolink ctx.
Proof.
  intros Hb x. induction x as [n t emd IH|n name attrs children IH]
    using Node_forall_ind; intros resume ctx.
  - rewrite walk_Text.
    pose proof (text_inNoAutolink (Parsed n) t resume ctx) as Ht.
    destruct (text (Parsed n) t resume ctx) as [c1 [|]]; simpl in *; [|done].
    rewrite <- Ht.
    apply (siblings_keeps (λ c, inNoAutolink c = inNoAutolink c1)); [|done].
    eapply Forall_impl; [exact IH|]. simpl. intros y Hy r c Hc. by rewrite Hy.
  - rewrite walk_Element. apply element_inNoAutolink; [done|].
    intros visit c Hvisit.
    assert (Hvisit' : visit = visitChildren n attrs children resume).
    { destruct (anchors n attrs), children; by simplify_eq. }
    rewrite Hvisit'. unfold Walk.visitChildren.
    rewrite <- (anchors_inNoAutolink (anchors n attrs) c Hb).
    apply (siblings_keeps (λ c', inNoAutolink c' = _)); [|done].
    eapply Forall_impl; [exact IH|]. simpl. intros y Hy r c' Hc'. by rewrite Hy.
Qed.

(** The element branch gives the emphasis flag back as [arrive] left it,
    when the builders and the visit of the children do: the flag is cleared
    on the way out by the call that set it, and by no other. *)
Lemma element_inNoEmd el children ctx :
  buildersKeep inNoEmd visitorMap →
  (∀ visit c, children = Some visit → inNoEmd (visit c) = inNoEmd c) →
  inNoEmd (element el children ctx) = inNoEmd (arrive (el_ref el) ctx).
Proof.
  intros Hb Hc. unfold Walk.element. simpl.
  set (c0 := arrive (el_ref el) ctx).
  set (c1 := match getAttribute "id" (el_attributes el) with
             | Some i => set_currentId (Some i) c0 | None => c0 end).
  assert (H1 : inNoEmd c1 = inNoEmd c0).
  { unfold c1. by destruct (getAttribute _ _). }
  set (changed := bool_decide (el_nodeName el ∈ NO_CLAUSE_AUTOLINK)
                  && negb (inNoAutolink c1)).
  set (c2 := if changed then set_inNoAutolink true c1 else c1).
  assert (H2 : inNoEmd c2 = inNoEmd c0) by (unfold c2; by destruct changed).
  set (changedEmd := bool_decide (el_nodeName el ∈ NO_EMD) && negb (inNoEmd c2)).
  set (c3 := if changedEmd then set_inNoEmd true c2 else c2).
  set (c4 := match visitorMap !! el_nodeName el with
             | Some v => enter v el c3 | None => c3 end).
  assert (H4 : inNoEmd c4 = inNoEmd c3).
  { unfold c4. destruct (visitorMap !! el_nodeName el) as [v|] eqn:Hv; [|done].
    by rewrite (proj1 (Hb _ v el c3 Hv)). }
  set (c5 := match children with
             | Some visit => set_node (el_ref el) (visit c4) | None => c4 end).
  assert (H5 : inNoEmd c5 = inNoEmd c3).
  { unfold c5. destruct children as [visit|]; [|done]. simpl.
    by rewrite (Hc visit c4). }
  set (c6 := match visitorMap !! el_nodeName el with
             | Some v => exit v el c5 | None => c5 end).
  assert (H6 : inNoEmd c6 = inNoEmd c3).
  { unfold c6. destruct (visitorMap !! el_nodeName el) as [v|] eqn:Hv; [|done].
    by rewrite (proj2 (Hb _ v el c5 Hv)). }
  set (c7 := if changed then set_inNoAutolink false c6 else c6).
  assert (H7 : inNoEmd c7 = inNoEmd c3) by (unfold c7; by destruct changed).
  clearbody c7 c6 c5 c4. subst c3 changedEmd.
  destruct (bool_decide (el_nodeName el ∈ NO_EMD)); simpl in *; [|congruence].
  destruct (inNoEmd c2) eqn:E2; simpl in *; congruence.
Qed.

(** *** Text nodes *)

Lemma trimStart_blank t : trimStart t = EmptyString ↔ blank t = true.
Proof.
  induction t as [|c t IH]; simpl; [done|].
  destruct (isWhiteSpace c); simpl; [done|]. split; discriminate.
Qed.

Lemma trimStart_head t c rest :
  trimStart t = String c rest → isWhiteSpace c = false.
Proof.
  induction t as [|d t IH]; simpl; [done|].
  destruct (isWhiteSpace d) eqn:Hd; [done|]. by intros [= <- _].
Qed.

Lemma rev_app_blank t acc :
  blank (String.rev_app t acc) = blank t && blank acc.
Proof.
  revert acc. induction t as [|c t IH]; intros acc; simpl; [done|].
  rewrite IH. simpl. by destruct (isWhiteSpace c), (blank t), (blank acc).
Qed.

Lemma rev_app_empty t acc :
  String.rev_app t acc = EmptyString → t = EmptyString ∧ acc = EmptyString.
Proof.
  revert acc. induction t as [|c t IH]; intros acc; simpl; [done|].
  intros H. by destruct (IH _ H).
Qed.

(** [trim] leaves nothing exactly of the strings that are empty or white
    space. *)
Lemma trim_blank t : String.length (trim t) = 0 ↔ blank t = true.
Proof.
  unfold trim, String.rev. split.
  - intros H.
    destruct (String.rev_app (trimStart (String.rev_app (trimStart t) "")) "")
      eqn:Hr; [|done].
    apply rev_app_empty in Hr as [Hr _].
    apply trimStart_blank in Hr. rewrite rev_app_blank, andb_true_r in Hr.
    destruct (trimStart t) as [|c rest] eqn:Ht; [by apply trimStart_blank|].
    apply trimStart_head in Ht. simpl in Hr. by rewrite Ht in Hr.
  - intros H. apply trimStart_blank in H. by rewrite H.
Qed.

Lemma text_blank x t resume ctx :
  String.length (trim t) = 0 → text x t resume ctx = (arrive x ctx, false).
Proof. intros H. unfold text. by rewrite decide_True. Qed.

Lemma text_suppressed x t resume ctx :
  inNoAutolink ctx = true → _textNodes (text x t resume ctx).1 = _textNodes ctx.
Proof.
  intros H. unfold text. case_decide; cbn [fst]; [apply arrive_textNodes|].
  pose proof (arrive_inNoAutolink x ctx) as A0.
  pose proof (arrive_textNodes x ctx) as A6.
  revert A0 A6. generalize (arrive x ctx). intros c0 A0 A6.
  destruct (inNoEmd c0); cbn [negb].
  - by rewrite A0, H.
  - by rewrite expand_inNoAutolink, A0, H, expand_textNodes.
Qed.

Lemma arrive_frame x ctx :
  clauseStack (arrive x ctx) = clauseStack ctx ∧
  clauses (arrive x ctx) = clauses ctx ∧
  spec_namespace (arrive x ctx) = spec_namespace ctx ∧
  inAlg (arrive x ctx) = inAlg ctx ∧
  currentId (arrive x ctx) = currentId ctx.
Proof. unfold arrive. by case_decide. Qed.

Lemma expand_frame resume ctx :
  clauseStack (expand resume ctx) = clauseStack ctx ∧
  clauses (expand resume ctx) = clauses ctx ∧
  spec_namespace (expand resume ctx) = spec_namespace ctx ∧
  inAlg (expand resume ctx) = inAlg ctx ∧
  currentId (expand resume ctx) = currentId ctx.
Proof. by destruct resume. Qed.

Lemma remember_frame x c c' :
  clauseStack c' = clauseStack c → clauses c' = clauses c →
  spec_namespace c' = spec_namespace c → inAlg c' = inAlg c →
  currentId c' = currentId c → _textNodes c' = _textNodes c →
  _textNodes (remember x c') = _textNodes (remember x c).
Proof.
  intros H1 H2 H3 H4 H5 H6. unfold remember, namespaceOf. simpl.
  by rewrite H1, H2, H3, H4, H5, H6.
Qed.

Lemma text_remembered x t resume ctx :
  String.length (trim t) ≠ 0 → inNoAutolink ctx = false →
  _textNodes (text x t resume ctx).1 = _textNodes (remember x ctx).
Proof.
  intros Ht Ha. unfold text. rewrite decide_False by done.
  destruct (arrive_frame x ctx) as (A1 & A2 & A3 & A4 & A5).
  pose proof (arrive_inNoAutolink x ctx) as A0.
  pose proof (arrive_textNodes x ctx) as A6.
  revert A0 A1 A2 A3 A4 A5 A6. generalize (arrive x ctx). intros c0 A0 A1 A2 A3 A4 A5 A6.
  destruct (inNoEmd c0); cbn [negb fst].
  - rewrite A0, Ha. by apply remember_frame.
  - rewrite expand_inNoAutolink, A0, Ha.
    destruct (expand_frame resume c0) as (E1 & E2 & E3 & E4 & E5).
    apply remember_frame; try congruence.
    by rewrite expand_textNodes.
Qed.

Lemma element_quiet t el children ctx :
  buildersKeep inNoAutolink visitorMap → buildersKeep _textNodes visitorMap →
  (∀ visit c, children = Some visit → quiet t c → quiet t (visit c)) →
  quiet t ctx → quiet t (element el children ctx).
Proof.
  intros Ha Ht Hc [Hq1 Hq2]. unfold Walk.element. simpl.
  set (c0 := arrive (el_ref el) ctx).
  assert (H0 : quiet t c0).
  { unfold c0. split; [by rewrite arrive_inNoAutolink|by rewrite arrive_textNodes]. }
  set (c1 := match getAttribute "id" (el_attributes el) with
             | Some i => set_currentId (Some i) c0 | None => c0 end).
  assert (H1 : quiet t c1) by (unfold c1; by destruct (getAttribute _ _)).
  destruct H1 as [H1a H1t]. rewrite H1a, andb_false_r.
  set (changedEmd := bool_decide (el_nodeName el ∈ NO_EMD) && negb (inNoEmd c1)).
  set (c3 := if changedEmd then set_inNoEmd true c1 else c1).
  assert (H3 : quiet t c3) by (unfold c3; by destruct changedEmd).
  set (c4 := match visitorMap !! el_nodeName el with
             | Some v => enter v el c3 | None => c3 end).
  assert (H4 : quiet t c4).
  { unfold c4. destruct (visitorMap !! el_nodeName el) as [v|] eqn:Hv; [|done].
    destruct H3. split.
    - by rewrite (proj1 (Ha _ v el c3 Hv)).
    - by rewrite (proj1 (Ht _ v el c3 Hv)). }
  set (c5 := match children with
             | Some visit => set_node (el_ref el) (visit c4) | None => c4 end).
  assert (H5 : quiet t c5).
  { unfold c5. destruct children as [visit|]; [|done].
    destruct (Hc visit c4 eq_refl H4). by split. }
  set (c6 := match visitorMap !! el_nodeName el with
             | Some v => exit v el c5 | None => c5 end).
  assert (H6 : quiet t c6).
  { unfold c6. destruct (visitorMap !! el_nodeName el) as [v|] eqn:Hv; [|done].
    destruct H5. split.
    - by rewrite (proj2 (Ha _ v el c5 Hv)).
    - by rewrite (proj2 (Ht _ v el c5 Hv)). }
  destruct H6. by destruct changedEmd.
Qed.

Lemma walk_quiet t :
  buildersKeep inNoAutolink visitorMap → buildersKeep _textNodes visitorMap →
  ∀ x resume ctx, quiet t ctx → quiet t (walk x resume ctx).
Proof.
  intros Ha Ht x. induction x as [n s emd IH|n name attrs children IH]
    using Node_forall_ind; intros resume ctx [Hq1 Hq2].
  - rewrite walk_Text.
    pose proof (text_inNoAutolink (Parsed n) s resume ctx) as H1.
    pose proof (text_suppressed (Parsed n) s resume ctx Hq1) as H2.
    destruct (text (Parsed n) s resume ctx) as [c1 expanded]. simpl in *.
    assert (quiet t c1) by (split; congruence).
    destruct expanded; [|done]. by apply siblings_keeps.
  - rewrite walk_Element. apply element_quiet; try done.
    intros visit c Hvisit Hq.
    assert (Hvisit' : visit = visitChildren n attrs children resume).
    { destruct (anchors n attrs), children; by simplify_eq. }
    rewrite Hvisit'. unfold Walk.visitChildren.
    apply siblings_keeps; [done|].
    generalize (anchors n attrs). intros spans. revert c Hq.
    induction spans as [|sp spans IHs]; intros c Hq; simpl; [done|].
    apply IHs. by apply element_quiet.
Qed.



End Walker.

Import WalkExamples.

Lemma no_builders {A} (flag : Context → A) : buildersKeep flag ∅.
Proof. intros name v el ctx H. by rewrite lookup_empty in H. Qed.


(** *** Headings *)



Example first_heading_is_kept :
  header <$> clauses (walk ∅ clauseAndH1 twoHeadings None start) !! 1
    = Some (Some (Parsed 2)).
Proof. vm_compute. reflexivity. Qed.



End WalkFacts.

(** ** The build *)

Module BuildFacts.
Import Build.

Lemma work_extends w p : extends [p] (work w p).
Proof.
  intros started. unfold work. destruct (fails w p) as [error|]; [right|by left].
  exists (Failed error), [p]. by split.
Qed.

Lemma checked_extends w p :
  extends [p] (λ started,
    andThen (work w p) (throwIfCancellationRequested w p started)).
Proof.
  intros started. unfold throwIfCancellationRequested.
  destruct (cancellationRequested w p); simpl; [right|apply work_extends].
  exists Cancelled, []. rewrite app_nil_r. split; [done|]. split; [|done].
  apply prefix_nil.
Qed.

Lemma skip_extends : extends [] (λ started, inl started).
Proof. intros started. left. by rewrite app_nil_r. Qed.

Lemma lint_extends o w : extends (if lintSpec o then [Lint] else []) (lint o w).
Proof.
  unfold lint. destruct (lintSpec o); [|apply skip_extends].
  destruct (sourceText o); [apply work_extends|].
  intros started. right. eexists _, []. rewrite app_nil_r.
  split; [done|]. split; [apply prefix_nil|done].
Qed.

Lemma buildToc_extends o w :
  extends (if toc o then [if oldToc o then BuildToc else BuildMenu] else [])
    (buildToc o w).
Proof.
  unfold buildToc. destruct (toc o); [|apply skip_extends].
  destruct (oldToc o); apply work_extends.
Qed.

Lemma sequence_ended (fs : list (list Phase → Building)) ended :
  foldl (λ b step, andThen step b) (inr ended) fs = inr ended.
Proof. induction fs as [|f fs IH]; simpl; [done|apply IH]. Qed.

(** Steps in sequence go through their plans in sequence. *)
Lemma sequence_extends plans fs :
  Forall2 extends plans fs →
  extends (concat plans) (λ started, sequence fs (inl started)).
Proof.
  unfold sequence.
  induction 1 as [|plan f plans fs Hf _ IH]; intros started; simpl.
  - left. by rewrite app_nil_r.
  - destruct (Hf started) as [->|(e & done & -> & Hpre & He)].
    + destruct (IH (started ++ plan)) as [->|(e & done & -> & Hpre & He)].
      * left. by rewrite app_assoc.
      * right. exists e, (plan ++ done). rewrite app_assoc. split; [done|].
        split; [by apply prefix_app|done].
    + right. exists e, done. rewrite (sequence_ended fs). split; [done|].
      split; [by apply prefix_app_r|done].
Qed.

(** Every build goes through its plan, or ends within it. *)
Lemma build_extends o w :
  (build o w = mkRun Returned (early o ++ linking ++ late o)) ∨
  ∃ e done, build o w = mkRun e done ∧
            done `prefix_of` early o ++ linking ++ late o ∧ e ≠ Returned.
Proof.
  unfold build.
  set (fs := [_; _; _; _; _; _; _; _; _; _; _; _; _; _; _; _; _; _]).
  pose (plans :=
    [ if ecma262Biblio o then [LoadECMA262Biblio] else [];
      [LoadBiblios]; [LoadImports]; [BuildBoilerplate];
      if lintSpec o then [Lint] else [];
      [WalkDocument]; [SetReplacementAlgorithmOffsets]; [Autolink];
      [LinkXrefs]; [LinkNtRefs]; [LinkProdRefs]; [BuildReferenceGraph];
      [HighlightCode]; [SetCharset]; [SetFirstH1Class]; [BuildSpecWrapper];
      if toc o then [if oldToc o then BuildToc else BuildMenu] else [];
      [BuildAssets] ]).
  assert (Hplan : concat plans = early o ++ linking ++ late o).
  { unfold plans, early, late, linking.
    by destruct (ecma262Biblio o), (lintSpec o), (toc o). }
  assert (Hall : Forall2 extends plans fs).
  { unfold plans, fs.
    constructor.
    { destruct (ecma262Biblio o);
        [exact (checked_extends w LoadECMA262Biblio)|exact skip_extends]. }
    constructor; [exact (checked_extends w LoadBiblios)|].
    constructor; [exact (work_extends w LoadImports)|].
    constructor; [exact (checked_extends w BuildBoilerplate)|].
    constructor; [exact (lint_extends o w)|].
    do 11 (constructor; [exact (work_extends w _)|]).
    constructor; [exact (buildToc_extends o w)|].
    constructor; [exact (work_extends w BuildAssets)|].
    constructor. }
  destruct (sequence_extends plans fs Hall []) as [->|(e & done & -> & Hpre & He)].
  - left. by rewrite <- Hplan.
  - right. exists e, done. by rewrite <- Hplan.
Qed.

(** C7, as the code has it. The steps of every build are an initial part
    of the plan: the loading steps, then the walk, then the replacement-step
    resolver, then the autolinker, then the linking of cross-references,
    non-terminal references and production references and the reference
    graph, then the finishing steps; a build that returns has run them all.
    So a pass starts only when the walk is over, and the autolinker runs
    before the references are resolved. *)
Theorem passes_in_order (o : Options) (w : World) :
  steps (build o w) `prefix_of` early o ++ linking ++ late o ∧
  (ending (build o w) = Returned →
   steps (build o w) = early o ++ linking ++ late o).
Proof.
  destruct (build_extends o w) as [->|(e & done & -> & Hpre & He)]; simpl.
  - by split.
  - split; [done|]. by intros ->.
Qed.

(** C7, where the claim fails: in a build that returns, the autolinker
    comes before the cross-references are linked, not after. *)
Lemma autolinker_precedes_references :
  ending (build defaults calm) = Returned ∧
  position WalkDocument (steps (build defaults calm)) = Some 4 ∧
  position SetReplacementAlgorithmOffsets (steps (build defaults calm)) = Some 5 ∧
  position Autolink (steps (build defaults calm)) = Some 6 ∧
  position LinkXrefs (steps (build defaults calm)) = Some 7 ∧
  position BuildReferenceGraph (steps (build defaults calm)) = Some 10.
Proof. repeat split; reflexivity. Qed.

(** [build] after its first four statements. *)
Lemma build_loading (o : Options) (w : World) :
  ∃ rest,
    build o w =
    match
      foldl (λ b step, andThen step b)
        (andThen (buildBoilerplate w)
           (andThen (loadImports w)
              (andThen (loadBiblios w)
                 (if ecma262Biblio o then loadECMA262Biblio w [] else inl []))))
        rest
    with
    | inl started => mkRun Returned started
    | inr ended => ended
    end.
Proof.
  exists [ lint o w; work w WalkDocument; work w SetReplacementAlgorithmOffsets;
           work w Autolink; work w LinkXrefs; work w LinkNtRefs;
           work w LinkProdRefs; work w BuildReferenceGraph;
           work w HighlightCode; work w SetCharset; work w SetFirstH1Class;
           work w BuildSpecWrapper; buildToc o w; work w BuildAssets ].
  reflexivity.
Qed.

Ltac unfold_loading :=
  unfold loadECMA262Biblio, loadBiblios, loadImports, buildBoilerplate,
    throwIfCancellationRequested, work; simpl.

(** C6, as the code has it. Cancellation is looked for where the biblios
    are loaded (before the ECMA-262 biblio when it is wanted, and before the
    biblios of the document) and where the boilerplate is built. When it has
    been requested there, the build does not return: it ends cancelled, or
    with the error of an earlier step, and neither that step nor the walk is
    started. *)
Theorem cancellation_checked (o : Options) (w : World) :
  (ecma262Biblio o = true →
   cancellationRequested w LoadECMA262Biblio = true →
   build o w = mkRun Cancelled []) ∧
  (cancellationRequested w LoadBiblios = true →
   ending (build o w) ≠ Returned ∧
   LoadBiblios ∉ steps (build o w) ∧ WalkDocument ∉ steps (build o w) ∧
   (cancellationRequested w LoadECMA262Biblio = false →
    fails w LoadECMA262Biblio = None →
    ending (build o w) = Cancelled)) ∧
  (cancellationRequested w BuildBoilerplate = true →
   ending (build o w) ≠ Returned ∧
   BuildBoilerplate ∉ steps (build o w) ∧ WalkDocument ∉ steps (build o w) ∧
   (cancellationRequested w LoadECMA262Biblio = false →
    cancellationRequested w LoadBiblios = false →
    fails w LoadECMA262Biblio = None → fails w LoadBiblios = None →
    fails w LoadImports = None →
    ending (build o w) = Cancelled)).
Proof.
  destruct (build_loading o w) as [rest ->]. unfold_loading.
  split; [|split].
  - intros -> ->. simpl. by rewrite sequence_ended.
  - intros ->.
    destruct (ecma262Biblio o); simpl;
      [destruct (cancellationRequested w LoadECMA262Biblio); simpl;
        [|destruct (fails w LoadECMA262Biblio); simpl]|];
      rewrite sequence_ended; simpl; repeat split; try done; set_solver.
  - intros ->.
    destruct (ecma262Biblio o); simpl;
      [destruct (cancellationRequested w LoadECMA262Biblio); simpl;
        [|destruct (fails w LoadECMA262Biblio); simpl]|];
      (destruct (cancellationRequested w LoadBiblios); simpl;
        [|destruct (fails w LoadBiblios); simpl;
           [|destruct (fails w LoadImports); simpl]]);
      rewrite sequence_ended; simpl; repeat split; try done; set_solver.
Qed.

(** C6, where the claim fails: cancellation requested when the walk is
    over, before the replacement steps are resolved, goes unnoticed: the
    build runs that step and all that follow and returns. Requested before
    the imports are loaded, it does not keep their loading from starting; it
    is noticed where the boilerplate is built. *)
Lemma cancellation_unnoticed :
  (cancellationRequested lateCancellation SetReplacementAlgorithmOffsets = true ∧
   build defaults lateCancellation =
     mkRun Returned (early defaults ++ linking ++ late defaults)) ∧
  (cancellationRequested cancelledBeforeImports LoadImports = true ∧
   build defaults cancelledBeforeImports =
     mkRun Cancelled [LoadECMA262Biblio; LoadBiblios; LoadImports]).
Proof. repeat split; reflexivity. Qed.

Example cancelled_at_once :
  build defaults cancelledAtOnce = mkRun Cancelled [].
Proof. reflexivity. Qed.

End BuildFacts.

(** ** The reference graph *)

Module ReferenceFacts.
Import References.

Lemma refName_inj n m : refName n = refName m → n = m.
Proof.
  unfold refName. intros H. apply (inj pretty).
  cbn [String.append] in H. by simplify_eq.
Qed.

Lemma pushReferencingId_Done e i s entry :
  entries s !! e = Some entry →
  ∃ s', pushReferencingId e i s = Done s' ∧
    entries s' !! e =
      Some (mkEntry (id entry) (refId entry) (namespace entry)
              (referencingIds entry ++ [i])) ∧
    counter s' = counter s ∧ xrefs s' = xrefs s ∧
    idAttribute s' = idAttribute s.
Proof.
  intros He. unfold pushReferencingId. rewrite He. simpl.
  eexists. split; [done|]. simpl. by rewrite lookup_insert_eq.
Qed.

Lemma pushReferencingId_counter e i s s' :
  pushReferencingId e i s = Done s' → counter s' = counter s.
Proof.
  unfold pushReferencingId. destruct (entries s !! e); simpl; [|done].
  by intros [= <-].
Qed.

Lemma ensureId_counter x xref s :
  counter s ≤ counter (ensureId x xref s).2.
Proof. unfold ensureId. destruct (truthy (xref_id xref)); simpl; lia. Qed.

Lemma ensureId_entries x xref s :
  entries (ensureId x xref s).2 = entries s.
Proof. unfold ensureId. by destruct (truthy (xref_id xref)). Qed.

Lemma xrefTurn_counter x s s' : xrefTurn x s = Done s' → counter s ≤ counter s'.
Proof.
  unfold xrefTurn. destruct (xrefs s !! x) as [xref|]; simpl; [|done].
  destruct (xref_entry xref ≫= _) as [[e entry]|]; [|by intros [= <-]].
  case_decide; [by intros [= <-]|].
  pose proof (ensureId_counter x xref s) as Hc.
  destruct (ensureId x xref s) as [i s1]. simpl in Hc.
  destruct (resolved e entry s) as [t|]; simpl; [|done].
  intros Hp. apply pushReferencingId_counter in Hp. lia.
Qed.

Lemma ntTurn_counter prod s s' : ntTurn prod s = Done s' → counter s ≤ counter s'.
Proof.
  unfold ntTurn.
  destruct (nt_entry prod ≫= _) as [[e entry]|]; [|by intros [= <-]].
  repeat case_decide; try by intros [= <-].
  intros Hp. apply pushReferencingId_counter in Hp. simpl in Hp. lia.
Qed.

Lemma forOf_counter {A} (turn : A → Spec → Outcome Spec) xs s s' :
  (∀ x s1 s2, turn x s1 = Done s2 → counter s1 ≤ counter s2) →
  forOf turn xs s = Done s' → counter s ≤ counter s'.
Proof.
  intros Hturn.
  apply (forOf_invariant turn (λ _ s1, counter s ≤ counter s1)); [done|].
  intros _ x s1 s2 H1 _ H2. apply Hturn in H2. lia.
Qed.

(** A cross-reference to an entry of the document. *)
Lemma xrefTurn_linked x xref e entry t tentry s :
  xrefs s !! x = Some xref → xref_entry xref = Some e →
  entries s !! e = Some entry → namespace entry ≠ "global" →
  resolved e entry s = Some t → entries s !! t = Some tentry →
  ∃ s' i,
    xrefTurn x s = Done s' ∧
    referencingIds <$> entries s' !! t = Some (referencingIds tentry ++ [i]) ∧
    (truthy (xref_id xref) = true →
       xref_id xref = Some i ∧ counter s' = counter s ∧
       xrefs s' = xrefs s ∧ idAttribute s' = idAttribute s) ∧
    (truthy (xref_id xref) = false →
       i = refName (counter s) ∧ counter s' = S (counter s) ∧
       xrefs s' !! x = Some (mkXref (xref_node xref) (Some i) (Some e)) ∧
       idAttribute s' !! xref_node xref = Some i).
Proof.
  intros Hx He Hentry Hns Ht Htentry. unfold xrefTurn.
  rewrite Hx. simpl. rewrite He. simpl. rewrite Hentry. simpl.
  rewrite decide_False by done. rewrite Ht.
  unfold ensureId. destruct (truthy (xref_id xref)) eqn:Hid.
  - destruct (xref_id xref) as [i|] eqn:Hxid; [|done]. simpl.
    destruct (pushReferencingId_Done t i s tentry Htentry)
      as (s' & -> & Hpush & Hc & Hxs & Ha).
    exists s', i. split; [done|]. rewrite Hpush. simpl.
    split; [done|]. split; [done|]. by intros.
  - simpl.
    set (s1 := mkSpec _ _ _ _ _ _ _).
    destruct (pushReferencingId_Done t (refName (counter s)) s1 tentry Htentry)
      as (s' & -> & Hpush & Hc & Hxs & Ha).
    exists s', (refName (counter s)). split; [done|]. rewrite Hpush. simpl.
    split; [done|]. split; [done|]. intros _.
    split; [done|]. split; [by rewrite Hc|].
    rewrite Hxs, Ha. simpl. rewrite !lookup_insert_eq. by rewrite He.
Qed.

(** A reference to a non-terminal of the document, outside the production
    that defines it. *)
Lemma ntTurn_linked prod e entry s :
  nt_entry prod = Some e → entries s !! e = Some entry →
  namespace entry ≠ "global" → nt_parent prod ≠ "EMU-PRODUCTION" →
  ∃ s',
    ntTurn prod s = Done s' ∧
    referencingIds <$> entries s' !! e =
      Some (referencingIds entry ++ [refName (counter s)]) ∧
    counter s' = S (counter s) ∧
    idAttribute s' !! nt_node prod = Some (refName (counter s)).
Proof.
  intros He Hentry Hns Hp. unfold ntTurn. rewrite He. simpl. rewrite Hentry. simpl.
  rewrite !decide_False by done.
  set (s1 := setIdAttribute _ _ _).
  destruct (pushReferencingId_Done e (refName (counter s)) s1 entry Hentry)
    as (s' & -> & Hpush & Hc & _ & Ha).
  exists s'. split; [done|]. rewrite Hpush, Hc, Ha. simpl.
  by rewrite lookup_insert_eq.
Qed.



Example sample_reference_graph :
  ∃ s', buildReferenceGraph sample = Done s' ∧
    referencingIds <$> entries s' !! 1 = Some ["_ref_0"; "mine"; "_ref_1"] ∧
    xref_id <$> xrefs s' !! 1 = Some (Some "_ref_0") ∧
    xref_id <$> xrefs s' !! 2 = Some (Some "mine") ∧
    idAttribute s' !! 13 = Some "_ref_1" ∧
    counter s' = 2.
Proof.
  eexists. split; [vm_compute; reflexivity|].
  repeat split; vm_compute; reflexivity.
Qed.

End ReferenceFacts.

(** ** The grammar builder *)

Module GrammarFacts.
Import Grammar.

Lemma name_listed t : name t = listedName t || digit t.
Proof.
  unfold name, listedName, headingName. cbn [existsb].
  generalize (emuName t) (digit t) (named "p" t) (named "ul" t)
    (named "table" t) (named "pre" t) (named "code" t)
    (match literal "h" t with Some rest => digit rest | None => false end).
  by intros [] [] [] [] [] [] [] [].
Qed.

(** What the regular expression matches: the tags in words, and the tags
    named by a digit alone. *)
Lemma tag_listed_or_digit t : tag t = listedTag t || digitTag t.
Proof.
  unfold tag, listedTag, digitTag.
  destruct t as [|c rest]; [reflexivity|]. cbn [literal].
  destruct (Ascii.eqb (lower "<") (lower c)); [|reflexivity].
  rewrite (name_listed rest).
  destruct rest as [|d rest']; cbn [literal].
  { by destruct (listedName ""), (digit ""). }
  destruct (Ascii.eqb (lower "/") (lower d)).
  - rewrite (name_listed rest').
    by destruct (listedName rest'), (digit rest'), (listedName (String d rest')),
      (digit (String d rest')).
  - by destruct (listedName (String d rest')), (digit (String d rest')).
Qed.

Lemma exec_first t : exec t = first tag t.
Proof. induction t as [|c t IH]; simpl; [done|]. by rewrite IH. Qed.

Lemma first_ext (P Q : string → bool) t :
  (∀ n, P (drop n t) = Q (drop n t)) → first P t = first Q t.
Proof.
  induction t as [|c t IH]; intros H; pose proof (H 0) as H0; simpl in H0.
  - simpl. by rewrite H0.
  - simpl. rewrite H0, IH; [done|].
    intros n. apply (H (S n)).
Qed.

Lemma anywhere_false (P : string → bool) t :
  anywhere P t = false → ∀ n, P (drop n t) = false.
Proof.
  induction t as [|c t IH]; simpl; intros H n.
  - apply orb_false_elim in H as [H _]. by destruct n.
  - apply orb_false_elim in H as [H0 H]. destruct n; [done|]. by apply IH.
Qed.

(** The first match is a match, and nothing before it is. *)
Lemma first_Some (P : string → bool) t i :
  first P t = Some i →
  P (drop i t) = true ∧ ∀ j, j < i → P (drop j t) = false.
Proof.
  revert i. induction t as [|c t IH]; intros i; simpl.
  - destruct (P "") eqn:HP; [|done]. intros [= <-]. split; [done|lia].
  - destruct (P (String c t)) eqn:HP.
    + intros [= <-]. split; [done|lia].
    + destruct (first P t) as [k|] eqn:Hk; simpl; [|done].
      intros [= <-]. destruct (IH k eq_refl) as [Hm Hb]. split; [done|].
      intros [|j] Hj; [done|]. apply Hb. lia.
Qed.

Lemma slice_drop i t : slice 0 i t +:+ drop i t = t.
Proof.
  unfold slice. rewrite Nat.sub_0_r. revert t.
  induction i as [|i IH]; intros [|c t]; try done.
  change (String c (substring 0 i t +:+ drop i t) = String c t).
  f_equal. apply IH.
Qed.



Example cut_at_a_listed_tag :
  content (parsed "A : B </p> C") = "A : B " ∧
  content (parsed "A :: b c") = "A :: b c" ∧
  first claimedTag "A : B </p> C" = Some 6.
Proof. repeat split; vm_compute; reflexivity. Qed.

End GrammarFacts.

(** * Further properties *)

(** ** More on the replacement-step resolver *)

Module ReplacementMore.
Import Replacement ReplacementFacts ReplacementExamples.

(** A call changes numberings and nothing else: no warning is given, the
    biblio and the tables built by the walk are as they were, every entry
    keeps its id, and [pending] and [labeledStepsToBeRectified] lose members
    but gain none. *)
Theorem numbering_gives_no_warning fuel element numbers s s' :
  setReplacementAlgorithmStart fuel element numbers s = Done s' →
  warnings s' = warnings s ∧
  biblio s' = biblio s ∧
  replacementAlgorithms s' = replacementAlgorithms s ∧
  replacementAlgorithmToContainedLabeledStepEntries s' =
    replacementAlgorithmToContainedLabeledStepEntries s ∧
  (∀ r, id <$> entries s' !! r = id <$> entries s !! r) ∧
  (∀ e, is_Some (rootLists s' !! e) ↔ is_Some (rootLists s !! e)) ∧
  (∀ k l, pending s' !! k = Some l → pending s !! k = Some l) ∧
  (∀ t, t ∈ labeledStepsToBeRectified s' → t ∈ labeledStepsToBeRectified s).
Proof.
  intros Hrun. destruct (setReplacementAlgorithmStart_shape _ _ _ _ _ Hrun).
  repeat split; try done.
  - by apply shape_rootLists0.
  - by apply shape_rootLists0.
  - intros k l Hk. by eapply lookup_weaken.
Qed.

Lemma numbering_gives_no_warning_witness :
  ∃ s', setReplacementAlgorithmStart 1 7 [2; 1]%Z nested = Done s' ∧
    warnings s' = warnings nested ∧
    biblio s' = biblio nested ∧
    replacementAlgorithms s' = replacementAlgorithms nested ∧
    replacementAlgorithmToContainedLabeledStepEntries s' =
      replacementAlgorithmToContainedLabeledStepEntries nested ∧
    (∀ r, id <$> entries s' !! r = id <$> entries nested !! r) ∧
    (∀ e, is_Some (rootLists s' !! e) ↔ is_Some (rootLists nested !! e)) ∧
    (∀ k l, pending s' !! k = Some l → pending nested !! k = Some l) ∧
    (∀ t, t ∈ labeledStepsToBeRectified s' → t ∈ labeledStepsToBeRectified nested).
Proof.
  eexists. split; [vm_compute; reflexivity|].
  apply (numbering_gives_no_warning 1 7 [2; 1]%Z nested).
  vm_compute. reflexivity.
Defined.

(** Once an algorithm has been numbered, none of its labelled steps waits
    to be rectified any more and no algorithm waits for one of them. *)
Theorem numbered_steps_are_settled fuel element numbers s s' contained :
  replacementAlgorithmToContainedLabeledStepEntries s !! element = Some contained →
  setReplacementAlgorithmStart fuel element numbers s = Done s' →
  ∀ r entry, r ∈ contained → entries s' !! r = Some entry →
    id entry ∉ labeledStepsToBeRectified s' ∧ pending s' !! id entry = None.
Proof.
  intros Hcont Hrun. destruct fuel as [|fuel]; [done|].
  rewrite setReplacementAlgorithmStart_S in Hrun.
  apply bind_Done in Hrun as (rootList & Hroot & Hrun).
  apply bind_Done in Hrun as (contained' & Hcont' & Hrun).
  apply nonNull_Done in Hcont'. simpl in Hcont'. rewrite Hcont in Hcont'.
  simplify_eq.
  set (s0 := with_rootList element (setStart numbers rootList) s) in *.
  pose (settled := λ (s1 : Spec) (r : EntryRef),
    ∀ entry, entries s1 !! r = Some entry →
      id entry ∉ labeledStepsToBeRectified s1 ∧ pending s1 !! id entry = None).
  assert (Hkeep : ∀ s1 s2 r, sameShape s1 s2 → settled s1 r → settled s2 r).
  { intros s1 s2 r Hs Hset entry Hentry.
    pose proof (shape_ids _ _ Hs r) as Hid. rewrite Hentry in Hid.
    destruct (entries s1 !! r) as [entry1|] eqn:H1; [|done].
    simpl in Hid. destruct (Hset entry1 H1) as [Hl Hp].
    assert (id entry = id entry1) as -> by congruence. split.
    - intros Hin. apply Hl. by apply (shape_labeled _ _ Hs).
    - destruct (pending s2 !! id entry1) as [l|] eqn:Hl2; [|done].
      by rewrite (lookup_weaken _ _ _ _ Hl2 (shape_pending _ _ Hs)) in Hp. }
  enough (HI : ∀ r, r ∈ contained' → settled s' r).
  { intros r entry Hr Hentry. by apply (HI r Hr). }
  revert Hrun.
  apply (forOf_invariant _ (λ pre s1, ∀ r, r ∈ pre → settled s1 r));
    [set_solver|].
  intros pre r s1 s2 Hpre _ Hturn r' Hr'.
  assert (Hshape : sameShape s1 s2 ∧ settled s2 r).
  { unfold entryTurn in Hturn.
    apply bind_Done in Hturn as (entry & Hentry & Hturn).
    apply nonNull_Done in Hentry. simpl in Hturn.
    set (s1' := with_entry r _ s1) in *.
    assert (H11 : sameShape s1 s1') by (by apply sameShape_entry).
    destruct (pending s1 !! id entry) as [todo|] eqn:Htodo.
    - set (s2' := with_pending (delete (id entry) (pending s1')) s1') in *.
      assert (H22 : settled s2' r).
      { intros entry2 H2. simpl in H2. rewrite lookup_insert_eq in H2.
        simplify_eq. simpl. split; [set_solver|apply lookup_delete_eq]. }
      assert (H12 : sameShape s1 s2').
      { eapply sameShape_trans; [done|]. apply (sameShape_delete _ s1'). }
      enough (HJ : sameShape s2' s2).
      { split; [by eapply sameShape_trans|by eapply Hkeep]. }
      revert Hturn. apply (forOf_invariant _ (λ _ s3, sameShape s2' s3)).
      + apply sameShape_refl.
      + intros _ ra s3 s4 H3 _ Hcall.
        apply bind_Done in Hcall as (now & _ & Hcall).
        eapply sameShape_trans; [done|].
        by eapply setReplacementAlgorithmStart_shape.
    - simplify_eq. split; [done|].
      intros entry2 H2. simpl in H2. rewrite lookup_insert_eq in H2.
      simplify_eq. simpl. split; [set_solver|done]. }
  destruct Hshape as [Hs Hr]. apply elem_of_app in Hr' as [Hr'|Hr'].
  - by eapply Hkeep; [|apply Hpre].
  - apply list_elem_of_singleton in Hr' as ->. done.
Qed.

Lemma numbered_steps_are_settled_witness :
  ∃ s', setReplacementAlgorithmStart 1 7 [2; 1]%Z nested = Done s' ∧
    ∀ r entry, r ∈ [1; 2] → entries s' !! r = Some entry →
      id entry ∉ labeledStepsToBeRectified s' ∧ pending s' !! id entry = None.
Proof.
  eexists. split; [vm_compute; reflexivity|].
  apply (numbered_steps_are_settled 1 7 [2; 1]%Z nested _ [1; 2]).
  - reflexivity.
  - vm_compute. reflexivity.
Defined.

End ReplacementMore.

Module ReplacementChainFacts.
Import Replacement ReplacementFacts ReplacementChains ReplacementChainExamples.

Section Chains.
Context (s0 : Spec) (Hwf : wellFormed s0).

Lemma uniqueIds e1 e2 l1 l2 r1 r2 x1 x2 :
  replacementAlgorithmToContainedLabeledStepEntries s0 !! e1 = Some l1 →
  replacementAlgorithmToContainedLabeledStepEntries s0 !! e2 = Some l2 →
  r1 ∈ l1 → r2 ∈ l2 →
  entries s0 !! r1 = Some x1 → entries s0 !! r2 = Some x2 →
  id x1 = id x2 → r1 = r2.
Proof.
  intros H1 H2 Hr1 Hr2 Hx1 Hx2 Hid.
  destruct (wf_registered _ Hwf e1 l1 r1 x1) as [Hb1 _]; try done.
  destruct (wf_registered _ Hwf e2 l2 r2 x2) as [Hb2 _]; try done.
  rewrite Hid in Hb1. congruence.
Qed.

Lemma chainInvariant_ext (X X' P P' : Element → Prop) s :
  (∀ e, X e ↔ X' e) → (∀ e, P e → P' e) →
  chainInvariant s0 X P s → chainInvariant s0 X' P' s.
Proof.
  intros HX HP [].
  split; try done.
  - intros e [?|?%HX]; auto.
  - intros e l r own [?|?%HX]; eauto.
  - intros e t tr Hd Hw HnX HnP. apply chain_numbered0; try done.
    + intros ?. by apply HnX, HX.
    + intros ?. by apply HnP, HP.
  - intros e ?%HX. auto.
Qed.

Lemma chain_once (X P : Element → Prop) s :
  chainInvariant s0 X P s → pendingOnce (pending s).
Proof.
  intros Hinv k1 k2 l1 l2 e H1 H2 He1 He2.
  destruct (chain_waits _ _ _ _ Hinv k1 l1 H1) as [_ Hd1].
  destruct (chain_waits _ _ _ _ Hinv k2 l2 H2) as [_ Hd2].
  specialize (Hd1 e He1). specialize (Hd2 e He2).
  pose proof (wf_declared _ Hwf) as Hnd.
  apply list_elem_of_lookup in Hd1 as [i Hi], Hd2 as [j Hj].
  assert (i = j).
  { eapply NoDup_lookup; [done| |]; rewrite list_lookup_fmap.
    - by rewrite Hi. - by rewrite Hj. }
  congruence.
Qed.

Lemma chain_owns (X P : Element → Prop) s :
  chainInvariant s0 X P s → ownsDisjoint s.
Proof.
  intros Hinv e1 e2 l1 l2 r.
  rewrite (tables_contained _ _ (chain_tables _ _ _ _ Hinv)).
  apply (wf_owns _ Hwf).
Qed.

Lemma declared_once e t t' :
  (e, t) ∈ replacementAlgorithms s0 → (e, t') ∈ replacementAlgorithms s0 →
  t = t'.
Proof.
  intros Hd1 Hd2. pose proof (wf_declared _ Hwf) as Hnd.
  apply list_elem_of_lookup in Hd1 as [i Hi], Hd2 as [j Hj].
  assert (i = j).
  { eapply NoDup_lookup; [done| |]; rewrite list_lookup_fmap.
    - by rewrite Hi. - by rewrite Hj. }
  congruence.
Qed.

Lemma chain_start (X P : Element → Prop) E o' s :
  chainInvariant s0 (λ e, X e ∨ e = E) P s →
  ¬ waitingOn (pending s) E → ¬ X E →
  is_Some (rootLists s !! E) →
  chainInvariant s0 X (λ e, P e ∨ e = E) (with_rootList E o' s).
Proof.
  intros Hinv HnwE HnX Ho. split.
  - eapply sameTables_trans; [apply Hinv|].
    by apply sameShape_tables, sameShape_rootList.
  - intros e He. assert (e ≠ E) by (intros ->; destruct He; done).
    destruct (chain_kept _ _ _ _ Hinv e) as [Hr He']; [tauto|].
    split; simpl; [by rewrite lookup_insert_ne|done].
  - intros e l r own He. simpl. apply (chain_labeled _ _ _ _ Hinv). tauto.
  - intros e t tr Hd Hw HnXe HnPe Hb. simpl in *.
    assert (e ≠ E) by tauto.
    destruct (chain_numbered _ _ _ _ Hinv e t tr) as [Ht Hn]; try done; [tauto..|].
    split; [done|]. destruct Hn as (final & o & ? & ? & ? & ?).
    exists final, o. simpl. by rewrite lookup_insert_ne.
  - simpl. apply Hinv.
  - simpl. intros e He. apply (chain_apart _ _ _ _ Hinv). by left.
Qed.

Lemma chain_entry (X P : Element → Prop) E l r own nums s :
  chainInvariant s0 X (λ e, P e ∨ e = E) s →
  ¬ waitingOn (pending s) E → ¬ X E →
  replacementAlgorithmToContainedLabeledStepEntries s0 !! E = Some l → r ∈ l →
  entries s0 !! r = Some own → entries s !! r = Some own →
  id own ∈ labeledStepsToBeRectified s →
  chainInvariant s0 X (λ e, P e ∨ e = E) (with_entry r (mkStep (id own) nums) s).
Proof.
  intros Hinv HnwE HnX Hl Hr Hown0 Hown Hlab.
  assert (Hother : ∀ e l' r', e ≠ E →
    replacementAlgorithmToContainedLabeledStepEntries s0 !! e = Some l' →
    r' ∈ l' → r' ≠ r).
  { intros e l' r' Hne Hl' Hr' ->. apply Hne.
    by apply (wf_owns _ Hwf e E l' l r). }
  split.
  - eapply sameTables_trans; [apply Hinv|].
    by apply sameShape_tables, (sameShape_entry r own).
  - intros e He. assert (e ≠ E) by (intros ->; destruct He; done).
    destruct (chain_kept _ _ _ _ Hinv e) as [Hroot He']; [tauto|].
    split; simpl; [done|]. intros l' r' Hl' Hr'.
    rewrite lookup_insert_ne; [by eapply He'|].
    intros <-. by eapply Hother.
  - intros e l' r' own' He Hl' Hr' Hown'. simpl.
    assert (e ≠ E) by (intros ->; destruct He; done).
    apply elem_of_difference. split; [by eapply (chain_labeled _ _ _ _ Hinv)|].
    intros Hid%elem_of_singleton.
    apply (Hother e l' r'); try done.
    by eapply (uniqueIds e E l' l r' r).
  - intros e t tr Hd Hw HnXe HnPe Hb. simpl in *.
    assert (e ≠ E) by tauto.
    destruct (chain_numbered _ _ _ _ Hinv e t tr) as [Ht Hn]; try done.
    split; [set_solver|]. destruct Hn as (final & o & Hfinal & Ho & Hroot & Hes).
    exists final, o. simpl. split_and!; try done.
    + rewrite lookup_insert_ne; [done|]. intros <-.
      apply Ht. by rewrite <- (wf_byId _ Hwf t r own).
    + intros l' r' own' Hl' Hr' Hown'.
      rewrite lookup_insert_ne; [by eapply Hes|].
      intros <-. by eapply Hother.
  - simpl. apply Hinv.
  - simpl. apply Hinv.
Qed.

Lemma chain_take (X P : Element → Prop) k todo s :
  chainInvariant s0 X P s → pending s !! k = Some todo →
  chainInvariant s0 (λ e, X e ∨ e ∈ todo) P
    (with_pending (delete k (pending s)) s).
Proof.
  intros Hinv Hk.
  assert (Hold : ∀ e, waitingOn (delete k (pending s)) e → waitingOn (pending s) e).
  { intros e (k' & l' & Hk' & He). apply lookup_delete_Some in Hk' as [_ Hk'].
    by exists k', l'. }
  assert (Hin : ∀ e, e ∈ todo → waitingOn (pending s) e).
  { intros e He. by exists k, todo. }
  split; simpl.
  - eapply sameTables_trans; [apply Hinv|].
    apply sameShape_tables, sameShape_delete.
  - intros e [He|[He|He]]; apply (chain_kept _ _ _ _ Hinv); auto.
  - intros e l r own He. apply (chain_labeled _ _ _ _ Hinv).
    destruct He as [He|[He|He]]; auto.
  - intros e t tr Hd Hw HnXe HnPe Hb.
    apply (chain_numbered _ _ _ _ Hinv); try done; [|tauto].
    intros (k' & l' & Hk' & He). destruct (decide (k' = k)) as [->|Hne].
    + apply HnXe. right. congruence.
    + apply Hw. exists k', l'. by rewrite lookup_delete_ne.
  - intros k' l' Hk'. apply lookup_delete_Some in Hk' as [_ Hk'].
    by apply (chain_waits _ _ _ _ Hinv).
  - intros e [He|He] (k' & l' & Hk' & He').
    + apply (chain_apart _ _ _ _ Hinv e He). apply Hold. by exists k', l'.
    + apply lookup_delete_Some in Hk' as [Hne Hk'].
      apply Hne. by apply (chain_once _ _ _ Hinv k k' todo l' e).
Qed.

Lemma chain_finish (X P : Element → Prop) E t tr s :
  chainInvariant s0 X (λ e, P e ∨ e = E) s →
  (E, t) ∈ replacementAlgorithms s0 → biblio s0 !! t = Some (StepEntry tr) →
  t ∉ labeledStepsToBeRectified s → numberedFrom s0 s E tr →
  chainInvariant s0 X P s.
Proof.
  intros Hinv Hd Hb Ht Hn. split; try apply Hinv.
  intros e t' tr' Hd' Hw HnXe HnPe Hb'.
  destruct (decide (e = E)) as [->|Hne].
  - assert (t' = t) as -> by by eapply declared_once.
    by simplify_eq.
  - apply (chain_numbered _ _ _ _ Hinv); try done. tauto.
Qed.

Lemma chain_push (X P : Element → Prop) e t s :
  chainInvariant s0 (λ e', X e' ∨ e' = e) P s →
  (e, t) ∈ replacementAlgorithms s0 →
  ¬ waitingOn (pending s) e → ¬ X e →
  chainInvariant s0 X P (pushPending t e s).
Proof.
  intros Hinv Hd Hnw HnX.
  assert (HU : ∀ e', waitingOn (pending (pushPending t e s)) e' ∨ X e' →
                     waitingOn (pending s) e' ∨ X e' ∨ e' = e).
  { intros e' [He'|He']; [|tauto]. simpl in He'.
    apply waitingOn_push in He'. tauto. }
  split.
  - eapply sameTables_trans; [apply Hinv|]. by split.
  - intros e' He'%HU. destruct (chain_kept _ _ _ _ Hinv e') as [? ?]; [tauto|].
    by split.
  - intros e' l r own He'%HU. apply (chain_labeled _ _ _ _ Hinv). tauto.
  - intros e' t' tr Hd' Hw HnXe HnPe Hb. simpl in Hw.
    rewrite waitingOn_push in Hw.
    destruct (chain_numbered _ _ _ _ Hinv e' t' tr) as [Ht Hn]; try done; tauto.
  - intros k l Hk. simpl in Hk. apply lookup_insert_Some in Hk as [[<- <-]|[_ Hk]].
    + destruct (pending s !! t) as [old|] eqn:Hold; simpl.
      * destruct (chain_waits _ _ _ _ Hinv t old Hold) as [Hnd Hall]. split.
        -- apply NoDup_app. split_and!; [done| |apply NoDup_singleton].
           intros x Hx ->%list_elem_of_singleton. apply Hnw. by exists t, old.
        -- intros x [Hx| ->%list_elem_of_singleton]%elem_of_app; auto.
      * split; [apply NoDup_singleton|].
        by intros x ->%list_elem_of_singleton.
    + by apply (chain_waits _ _ _ _ Hinv).
  - intros e' He' Hw. simpl in Hw. apply waitingOn_push in Hw as [->|Hw]; [done|].
    apply (chain_apart _ _ _ _ Hinv e'); tauto.
Qed.

Lemma chain_warn (X P : Element → Prop) e t w s :
  chainInvariant s0 (λ e', X e' ∨ e' = e) P s →
  (e, t) ∈ replacementAlgorithms s0 →
  (∀ r, biblio s0 !! t ≠ Some (StepEntry r)) →
  chainInvariant s0 X P (warn w s).
Proof.
  intros Hinv Hd Hb. split.
  - eapply sameTables_trans; [apply Hinv|]. by split.
  - intros e' He'. destruct (chain_kept _ _ _ _ Hinv e') as [? ?]; [simpl in *; tauto|].
    by split.
  - intros e' l r own He'. apply (chain_labeled _ _ _ _ Hinv). simpl in *; tauto.
  - intros e' t' tr Hd' Hw HnXe HnPe Hb'.
    destruct (decide (e' = e)) as [->|Hne].
    + assert (t' = t) as -> by by eapply declared_once.
      by destruct (Hb tr).
    + destruct (chain_numbered _ _ _ _ Hinv e' t' tr) as [Ht Hn]; try done.
      tauto.
  - apply Hinv.
  - intros e' He'. apply (chain_apart _ _ _ _ Hinv). by left.
Qed.

Lemma in_middle {A} (x : A) (l1 l2 : list A) : x ∈ l1 ++ x :: l2.
Proof. apply elem_of_app. right. by left. Qed.

Lemma in_snoc {A} (x : A) (l : list A) : x ∈ l ++ [x].
Proof. apply elem_of_app. right. by left. Qed.

Lemma chain_target_id s t tr final :
  sameTables s0 s → biblio s0 !! t = Some (StepEntry tr) →
  entries s !! tr = Some final → id final = t.
Proof.
  intros Htab Hb Htr. pose proof (tables_ids _ _ Htab tr) as Hid.
  rewrite Htr in Hid. destruct (entries s0 !! tr) as [x|] eqn:Hx; [|done].
  simpl in Hid. rewrite <- (wf_byId _ Hwf t tr x); congruence.
Qed.

Lemma call_chain fuel : ∀ E s s' (X P : Element → Prop) t tr final,
  chainInvariant s0 (λ e, X e ∨ e = E) P s → keysAwait s →
  ¬ waitingOn (pending s) E → ¬ X E → ¬ P E →
  (∀ e, P e → ¬ waitingOn (pending s) e ∧ ¬ X e) →
  (E, t) ∈ replacementAlgorithms s0 →
  biblio s0 !! t = Some (StepEntry tr) →
  entries s !! tr = Some final →
  t ∉ labeledStepsToBeRectified s →
  setReplacementAlgorithmStart fuel E (stepNumbers final) s = Done s' →
  chainInvariant s0 X P s' ∧ keysAwait s' ∧
  (∀ r entry, entries s !! r = Some entry →
     id entry ∉ labeledStepsToBeRectified s → entries s' !! r = Some entry) ∧
  (∀ e l r own, P e →
     replacementAlgorithmToContainedLabeledStepEntries s0 !! e = Some l →
     r ∈ l → entries s0 !! r = Some own →
     id own ∈ labeledStepsToBeRectified s →
     id own ∈ labeledStepsToBeRectified s').
Proof.
  induction fuel as [|fuel IH];
    intros E s s' X P t tr final Hinv Hkeys HnwE HnX HnP HP Hd Hb Htr Ht Hrun; [done|].
  rewrite setReplacementAlgorithmStart_S in Hrun.
  apply bind_Done in Hrun as (o & Ho & Hrun). apply nonNull_Done in Ho.
  apply bind_Done in Hrun as (l & Hl & Hrun). apply nonNull_Done in Hl.
  pose proof (chain_tables _ _ _ _ Hinv) as Htab.
  rewrite (tables_contained _ _ Htab) in Hl.
  destruct (chain_kept _ _ _ _ Hinv E) as [HrootE HentE]; [by right; right|].
  rewrite Ho in HrootE. symmetry in HrootE.
  pose proof (wf_lists _ Hwf E l Hl) as Hnd.
  set (nums := stepNumbers final) in *.
  set (sa := with_rootList E (setStart nums o) s) in *.
  assert (Hsa : chainInvariant s0 X (λ e, P e ∨ e = E) sa).
  { apply chain_start; eauto. }
  assert (Hssa : sameShape s sa) by (apply sameShape_rootList; eauto).
  pose (EF := λ (pre : list EntryRef) (c : Spec),
    rootLists c !! E = Some (setStart nums o) ∧
    ∀ r own, r ∈ l → entries s0 !! r = Some own →
      (r ∈ pre → entries c !! r =
         Some (mkStep (id own) (rectified nums (stepNumbers own)))) ∧
      (r ∉ pre → entries c !! r = Some own ∧
         id own ∈ labeledStepsToBeRectified c)).
  pose (F := λ (c c' : Spec), ∀ r entry, entries c !! r = Some entry →
     id entry ∉ labeledStepsToBeRectified c → entries c' !! r = Some entry).
  pose (G := λ (Q : Element → Prop) (c c' : Spec), ∀ e l' r own, Q e →
     replacementAlgorithmToContainedLabeledStepEntries s0 !! e = Some l' →
     r ∈ l' → entries s0 !! r = Some own →
     id own ∈ labeledStepsToBeRectified c →
     id own ∈ labeledStepsToBeRectified c').
  pose (J := λ (pre : list EntryRef) (c : Spec),
    chainInvariant s0 X (λ e, P e ∨ e = E) c ∧ sameShape s c ∧ EF pre c ∧
    F s c ∧ G P s c ∧ keysAwait c).
  enough (HJ : J l s').
  { destruct HJ as (Hinv' & Hs' & [Hroot' Hent'] & HF & HG & Hkeys').
    split_and!; [|done|done|done].
    apply (chain_finish X P E t tr); try done.
    - intros Hin. apply Ht. by apply (shape_labeled _ _ Hs').
    - exists final, o. split_and!; try done.
      + apply HF; [done|]. by rewrite (chain_target_id s t tr final).
      + intros l' r own Hl' Hr Hown. simplify_eq. by apply (Hent' r own). }
  revert Hrun. apply forOf_invariant_split.
  { split_and!; try done.
    - split; [apply lookup_insert_eq|].
      intros r own Hr Hown. split; [by intros ?%elem_of_nil|]. intros _.
      simpl. split.
      + rewrite <- Hown. by apply (HentE l).
      + apply (chain_labeled _ _ _ _ Hinv E l r own); auto.
    - by intros r entry Hr _.
    - by intros e l' r own _ _ _ _ Hin. }
  intros pre r rest c c' Hsplit
    (Hinvc & Hsc & [Hrootc Hentc] & HFc & HGc & Hkeysc) Hturn.
  assert (Hr : r ∈ l) by (rewrite Hsplit; apply in_middle).
  assert (Hrpre : r ∉ pre).
  { rewrite Hsplit in Hnd. apply NoDup_app in Hnd as (_ & Hnd & _).
    intros Hin. apply (Hnd r Hin). by left. }
  assert (HnwEc : ¬ waitingOn (pending c) E).
  { intros Hw. apply HnwE. eapply waitingOn_weaken; [apply Hsc|done]. }
  destruct (prepared_entries _ (wf_prepared _ Hwf) E l r Hl Hr) as [own Hown].
  destruct (Hentc r own Hr Hown) as [_ Hcur]. destruct (Hcur Hrpre) as [Hentry Hlab].
  unfold entryTurn in Hturn. rewrite Hentry in Hturn. simpl in Hturn.
  set (entry' := mkStep (id own) (rectified nums (stepNumbers own))) in *.
  set (c1 := with_entry r entry' c) in *.
  assert (Hinv1 : chainInvariant s0 X (λ e, P e ∨ e = E) c1).
  { by apply (chain_entry X P E l r own). }
  assert (Hs1 : sameShape s c1).
  { eapply sameShape_trans; [done|]. by apply (sameShape_entry r own). }
  assert (HEF1 : EF (pre ++ [r]) c1).
  { split; [done|]. intros r' own' Hr' Hown'.
    destruct (decide (r' = r)) as [->|Hne].
    - assert (own' = own) as -> by congruence.
      split; [intros _; apply lookup_insert_eq|]. intros Hn. destruct Hn. apply in_snoc.
    - destruct (Hentc r' own' Hr' Hown') as [Hin Hout]. split.
      + intros [Hp|Hp%list_elem_of_singleton]%elem_of_app; [|done].
        simpl. rewrite lookup_insert_ne; [by apply Hin|done].
      + intros Hn. destruct Hout as [Hsame Hl'].
        { intros Hp. apply Hn, elem_of_app. by left. }
        simpl. rewrite lookup_insert_ne; [|done]. split; [done|].
        apply elem_of_difference. split; [done|].
        intros Hid%elem_of_singleton. apply Hne.
        by apply (uniqueIds E E l l r' r own' own). }
  assert (HF1 : F s c1).
  { intros r0 entry0 Hr0 Hid0. simpl. rewrite lookup_insert_ne; [by apply HFc|].
    intros <-. rewrite (HFc _ _ Hr0 Hid0) in Hentry. simplify_eq.
    apply Hid0. by apply (shape_labeled _ _ Hsc). }
  assert (HG1 : G P s c1).
  { intros e l' r' own' He Hl' Hr' Hown' Hin. simpl.
    apply elem_of_difference. split; [by eapply HGc|].
    intros Hid%elem_of_singleton.
    assert (r' = r) as -> by by apply (uniqueIds e E l' l r' r own' own).
    apply HnP. by rewrite <- (wf_owns _ Hwf e E l' l r). }
  change (pending c1 !! id entry') with (pending c !! id own) in Hturn.
  destruct (pending c !! id own) as [todo|] eqn:Htodo.
  2:{ simplify_eq. split_and!; try done.
      intros k l' Hk. simpl in *. apply elem_of_difference.
      split; [by eapply Hkeysc|]. intros ->%elem_of_singleton. congruence. }
  set (c2 := with_pending (delete (id entry') (pending c1)) c1) in *.
  assert (Hinv2 : chainInvariant s0 (λ e, X e ∨ e ∈ todo) (λ e, P e ∨ e = E) c2).
  { by apply (chain_take X _ (id own) todo c1). }
  assert (Hs2 : sameShape s c2).
  { eapply sameShape_trans; [done|]. apply (sameShape_delete _ c1). }
  destruct (chain_waits _ _ _ _ Hinv1 (id own) todo Htodo) as [Hndt Hdt].
  assert (Hwt : ∀ e, e ∈ todo → waitingOn (pending s) e).
  { intros e He. eapply waitingOn_weaken; [apply Hsc|]. by exists (id own), todo. }
  pose (M := λ (pre_t : list Element) (c3 : Spec),
    (∀ rest_t, todo = pre_t ++ rest_t →
       chainInvariant s0 (λ e, X e ∨ e ∈ rest_t) (λ e, P e ∨ e = E) c3) ∧
    sameShape c2 c3 ∧ EF (pre ++ [r]) c3 ∧ F s c3 ∧ G P s c3 ∧ keysAwait c3).
  enough (HM : M todo c').
  { destruct HM as (Hinv' & Hs' & HEF' & HF' & HG' & Hkeys').
    split_and!; try done.
    - eapply chainInvariant_ext; [| |apply (Hinv' [])]; [|done|by rewrite app_nil_r].
      intros e. split; [by intros [?|?%elem_of_nil]|by left].
    - by eapply sameShape_trans. }
  revert Hturn. apply forOf_invariant_split.
  { split_and!.
    - intros rest_t Heq. simpl in Heq. by subst rest_t.
    - apply sameShape_refl.
    - exact HEF1.
    - exact HF1.
    - exact HG1.
    - intros k l' Hk. simpl in *. apply lookup_delete_Some in Hk as [Hne Hk].
      apply elem_of_difference. split; [by eapply Hkeysc|].
      by intros ->%elem_of_singleton. }
  intros pre_t ra rest_t c3 c4 Hsplit_t
    (Hinv3 & Hs23 & [Hroot3 Hent3] & HF3 & HG3 & Hkeys3) Hcall.
  specialize (Hinv3 (ra :: rest_t) Hsplit_t).
  assert (Hs3 : sameShape s c3) by by eapply sameShape_trans.
  assert (Hnow : entries c3 !! r = Some entry').
  { destruct (Hent3 r own Hr Hown) as [Hin _]. apply Hin, in_snoc. }
  rewrite Hnow in Hcall. simpl in Hcall.
  assert (Hra : ra ∈ todo) by (rewrite Hsplit_t; apply in_middle).
  assert (Hnwra : ¬ waitingOn (pending c3) ra).
  { apply (chain_apart _ _ _ _ Hinv3). right. by left. }
  assert (HnwE3 : ¬ waitingOn (pending c3) E).
  { intros Hw. apply HnwE. eapply waitingOn_weaken; [apply Hs3|done]. }
  pose proof (setReplacementAlgorithmStart_shape _ _ _ _ _ Hcall) as Hs34.
  assert (Hk34 : kept c3 c4 E).
  { apply (setReplacementAlgorithmStart_kept _ _ _ _ _
             (chain_once _ _ _ Hinv3) (chain_owns _ _ _ Hinv3) Hcall).
    - intros ->. apply HnwE. by apply Hwt.
    - by intros Hw. }
  assert (Hpre1 : chainInvariant s0 (λ e, (X e ∨ e ∈ rest_t) ∨ e = ra)
                     (λ e, P e ∨ e = E) c3).
  { eapply chainInvariant_ext; [| |apply Hinv3]; [|done].
    intros e. cbv beta. rewrite elem_of_cons. tauto. }
  assert (Hpre2 : ¬ (X ra ∨ ra ∈ rest_t)).
  { intros [HXra|Hin].
    + apply (chain_apart _ _ _ _ Hinv1 ra HXra). by exists (id own), todo.
    + rewrite Hsplit_t in Hndt. apply NoDup_app in Hndt as (_ & _ & Hndt).
      by apply NoDup_cons in Hndt as [Hndt _]. }
  assert (Hpre3 : ¬ (P ra ∨ ra = E)).
  { intros [HPra| ->].
    + by apply (proj1 (HP ra HPra)), Hwt.
    + by apply HnwE, Hwt. }
  assert (Hpre4 : ∀ e, P e ∨ e = E →
            ¬ waitingOn (pending c3) e ∧ ¬ (X e ∨ e ∈ rest_t)).
  { intros e He. split.
    + intros Hw. destruct He as [He| ->]; [|done].
      apply (proj1 (HP e He)). eapply waitingOn_weaken; [apply Hs3|done].
    + intros [HXe|Hin].
      * destruct He as [He| ->]; [by apply (proj2 (HP e He))|done].
      * assert (Hw : waitingOn (pending s) e).
        { apply Hwt. rewrite Hsplit_t. apply elem_of_app. right. by right. }
        destruct He as [He| ->]; [by apply (proj1 (HP e He))|done]. }
  assert (Hpre5 : biblio s0 !! id own = Some (StepEntry r)).
  { by apply (wf_registered _ Hwf E l r own). }
  assert (Hpre6 : id own ∉ labeledStepsToBeRectified c3).
  { intros Hin. apply (shape_labeled _ _ Hs23) in Hin. simpl in Hin.
    apply elem_of_difference in Hin as [_ Hin]. apply Hin.
    by apply elem_of_singleton. }
  destruct (IH ra c3 c4 (λ e, X e ∨ e ∈ rest_t) (λ e, P e ∨ e = E)
              (id own) r entry' Hpre1 Hkeys3 Hnwra Hpre2 Hpre3 Hpre4 (Hdt ra Hra)
              Hpre5 Hnow Hpre6 Hcall) as (Hinv4 & Hkeys4 & HF4 & HG4).
  split_and!.
  - intros rest' Heq. rewrite Hsplit_t, <- app_assoc in Heq.
      apply app_inv_head in Heq. simpl in Heq. by simplify_eq.
  - by eapply sameShape_trans.
  - destruct Hk34 as [Hroot34 Hent34]. split; [by rewrite Hroot34|].
      intros r' own' Hr' Hown'.
      assert (Hsame : entries c4 !! r' = entries c3 !! r').
      { apply (Hent34 l); [|done].
        by rewrite <- (tables_contained _ _ (chain_tables _ _ _ _ Hinv3)) in Hl. }
      rewrite Hsame. destruct (Hent3 r' own' Hr' Hown') as [Hin Hout].
      split; [done|]. intros Hn. destruct (Hout Hn) as [? Hl3]. split; [done|].
      apply (HG4 E l r' own'); auto.
  - intros r0 entry0 Hr0 Hid0. apply HF4; [by apply HF3|].
      intros Hin. apply Hid0. by apply (shape_labeled _ _ Hs3).
  - intros e l' r' own' He Hl' Hr' Hown' Hin.
    apply (HG4 e l' r' own'); auto. by eapply HG3.
  - done.
Qed.

Lemma chain_begin :
  chainInvariant s0 (λ e, e ∈ (replacementAlgorithms s0).*1) (λ _, False)
    (with_pending ∅ s0).
Proof.
  split; simpl.
  - by split.
  - by intros e _.
  - intros e l r own _ Hl Hr Hown. by apply (wf_registered _ Hwf e l r own).
  - intros e t tr Hd _ Hn. destruct Hn. apply list_elem_of_fmap. by exists (e, t).
  - intros k l Hk. by rewrite lookup_empty in Hk.
  - intros e _. apply nothing_waits.
Qed.

Lemma declarations_chain s' :
  forOf declaration (replacementAlgorithms s0) (with_pending ∅ s0) = Done s' →
  chainInvariant s0 (λ _, False) (λ _, False) s' ∧ keysAwait s'.
Proof.
  pose (I := λ (pre : list (Element * string)) (c : Spec),
    (∀ rest, replacementAlgorithms s0 = pre ++ rest →
       chainInvariant s0 (λ e, e ∈ rest.*1) (λ _, False) c) ∧ keysAwait c).
  intros Hrun. enough (HI : I (replacementAlgorithms s0) s').
  { destruct HI as [Hinv Hkeys]. split; [|done].
    eapply chainInvariant_ext; [| |apply (Hinv [])]; [|done|by rewrite app_nil_r].
    intros e. simpl. set_solver. }
  revert Hrun. apply forOf_invariant_split.
  { split.
    - intros rest Heq. simpl in Heq. subst rest. apply chain_begin.
    - intros k l Hk. simpl in Hk. by rewrite lookup_empty in Hk. }
  intros pre [e t] rest c c' Hsplit [Hinv Hkeys] Hturn.
  specialize (Hinv ((e, t) :: rest) Hsplit).
  assert (Hd : (e, t) ∈ replacementAlgorithms s0) by (rewrite Hsplit; set_solver).
  assert (HnX : e ∉ rest.*1).
  { pose proof (wf_declared _ Hwf) as Hnd. rewrite Hsplit, fmap_app in Hnd.
    apply NoDup_app in Hnd as (_ & _ & Hnd). rewrite fmap_cons in Hnd.
    by apply NoDup_cons in Hnd as [Hnd _]. }
  assert (Hnw : ¬ waitingOn (pending c) e).
  { apply (chain_apart _ _ _ _ Hinv). set_solver. }
  assert (Hinv' : chainInvariant s0 (λ e', e' ∈ rest.*1 ∨ e' = e) (λ _, False) c).
  { eapply chainInvariant_ext; [| |apply Hinv]; [|done].
    intros e'. rewrite fmap_cons. set_solver. }
  assert (Hnext : ∀ c2, chainInvariant s0 (λ e', e' ∈ rest.*1) (λ _, False) c2 →
            ∀ rest', replacementAlgorithms s0 = (pre ++ [(e, t)]) ++ rest' →
              chainInvariant s0 (λ e, e ∈ rest'.*1) (λ _, False) c2).
  { intros c2 H2 rest' Heq. rewrite Hsplit, <- app_assoc in Heq.
    apply app_inv_head in Heq. simpl in Heq. by simplify_eq. }
  pose proof (chain_tables _ _ _ _ Hinv) as Htab.
  unfold declaration in Hturn.
  destruct (decide (t ∈ labeledStepsToBeRectified c)) as [Hin|Hout].
  { simplify_eq. split.
    - apply Hnext. by apply (chain_push _ _ e t).
    - intros k l Hk. simpl in *.
      apply lookup_insert_Some in Hk as [[<- _]|[_ Hk]]; [done|by eapply Hkeys]. }
  rewrite (tables_biblio _ _ Htab) in Hturn.
  destruct (biblio s0 !! t) as [[tr|type]|] eqn:Hb.
  - apply bind_Done in Hturn as (final & Hfinal & Hturn).
    apply nonNull_Done in Hfinal.
    destruct (call_chain (S (pendingTotal (pending c))) e c c'
                (λ e', e' ∈ rest.*1) (λ _, False) t tr final)
      as (H1 & H2 & _); try done; [by intros []|].
    split; [by apply Hnext|done].
  - simplify_eq. split; [|done]. apply Hnext.
    apply (chain_warn _ _ e t); [done..|]. intros r. congruence.
  - simplify_eq. split; [|done]. apply Hnext.
    apply (chain_warn _ _ e t); [done..|]. intros r. congruence.
Qed.

End Chains.


Lemma relay_wellFormed : wellFormed relay.
Proof.
  split.
  - split.
    + intros e t Hd. simpl in Hd.
      list_cases Hd; split; eexists; vm_compute; reflexivity.
    + intros e l r Hl Hr. simpl in Hl.
      map_cases Hl; list_cases Hr; eexists; vm_compute; reflexivity.
    + intros t r Hb. simpl in Hb.
      map_cases Hb; simplify_eq; eexists; vm_compute; reflexivity.
  - intros e1 e2 l1 l2 r H1 H2 Hr1 Hr2. simpl in H1, H2.
    map_cases H1; map_cases H2; try done; list_cases Hr1; list_cases Hr2.
  - apply (bool_decide_unpack (NoDup [8; 7])). vm_compute. exact I.
  - intros t r entry Hb Hr. simpl in Hb, Hr.
    map_cases Hb; simplify_eq; map_cases Hr; by simplify_eq.
  - intros e l r entry Hl Hr Hentry. simpl in Hl, Hentry.
    map_cases Hl; list_cases Hr; map_cases Hentry; simplify_eq;
      (split; [vm_compute; reflexivity|simpl; set_solver]).
  - intros e l Hl. simpl in Hl. map_cases Hl.
    + apply (bool_decide_unpack (NoDup [1; 2])). vm_compute. exact I.
    + apply NoDup_singleton.
Qed.


(** In [relay], algorithm 8 is declared before the algorithm that holds
    its target, and is numbered from the rectified path of that target. *)
Lemma relay_resolved :
  ∃ s', setReplacementAlgorithmOffsets relay = Done s' ∧
    pending s' = ∅ ∧ warnings s' = [] ∧
    rootLists s' !! 7 = Some (mkOList 1 ["nested-once"]) ∧
    rootLists s' !! 8 = Some (mkOList 4 ["nested-twice"]) ∧
    stepNumbers <$> entries s' !! 2 = Some [2; 1; 4]%Z ∧
    stepNumbers <$> entries s' !! 3 = Some [2; 1; 4; 3]%Z.
Proof. eexists. split; [vm_compute; reflexivity|]. by vm_compute. Qed.

End ReplacementChainFacts.

Module WalkMore.
Import Walk WalkFacts WalkSteps WalkExamples.

Section Walker.
Context (NO_CLAUSE_AUTOLINK : gset string)
        (visitorMap : gmap string BuilderInterface).

Abbreviation walk := (Walk.walk NO_CLAUSE_AUTOLINK visitorMap).
Abbreviation element := (Walk.element NO_CLAUSE_AUTOLINK visitorMap).
Abbreviation visitChildren := (Walk.visitChildren NO_CLAUSE_AUTOLINK visitorMap).
Abbreviation entering := (WalkSteps.entering NO_CLAUSE_AUTOLINK visitorMap).
Abbreviation leaving := (WalkSteps.leaving NO_CLAUSE_AUTOLINK visitorMap).

Lemma element_split el children ctx :
  element el children ctx =
  leaving el ctx
    (match children with
     | Some visit => set_node (el_ref el) (visit (entering el ctx))
     | None => entering el ctx
     end).
Proof. reflexivity. Qed.

Lemma children_visit n attrs childNodes resume visit :
  match anchors n attrs, childNodes with
  | [], [] => None
  | _, _ => Some (visitChildren n attrs childNodes resume)
  end = Some visit →
  visit = visitChildren n attrs childNodes resume.
Proof. destruct (anchors n attrs), childNodes; by intros; simplify_eq. Qed.

(** *** The id of the nearest element that has one *)

Lemma text_currentId x t resume ctx :
  currentId (text x t resume ctx).1 = currentId ctx.
Proof.
  unfold text. destruct (arrive_frame x ctx) as (_ & _ & _ & _ & A).
  case_decide; simpl; [done|].
  destruct (inNoEmd (arrive x ctx)); simpl.
  - by destruct (inNoAutolink (arrive x ctx)).
  - destruct (expand_frame resume (arrive x ctx)) as (_ & _ & _ & _ & E).
    destruct (inNoAutolink _); simpl; congruence.
Qed.

Lemma leaving_currentId el ctx visited :
  currentId (leaving el ctx visited) = currentId ctx.
Proof. unfold WalkSteps.leaving. simpl. apply arrive_frame. Qed.

Lemma current_id_is_scoped_aux x :
  ∀ resume ctx, currentId (walk x resume ctx) = currentId ctx.
Proof.
  induction x as [n t emd IH|n name attrs children IH] using Node_forall_ind;
    intros resume ctx.
  - rewrite walk_Text.
    pose proof (text_currentId (Parsed n) t resume ctx) as Ht.
    destruct (text (Parsed n) t resume ctx) as [c1 [|]]; simpl in *; [|done].
    rewrite <- Ht.
    apply (siblings_keeps _ _ (λ c, currentId c = currentId c1)); [|done].
    eapply Forall_impl; [exact IH|]. simpl. intros y Hy r c Hc. by rewrite Hy.
  - rewrite walk_Element, element_split. apply leaving_currentId.
Qed.


(** *** Fields that a step leaves alone *)

Lemma entering_keeps {A} (f : Context → A) :
  (∀ i c, f (set_currentId i c) = f c) →
  (∀ b c, f (set_inNoAutolink b c) = f c) →
  (∀ b c, f (set_inNoEmd b c) = f c) →
  buildersKeep f visitorMap →
  ∀ el ctx, f (entering el ctx) = f (arrive (el_ref el) ctx).
Proof.
  intros H1 H2 H3 Hb el ctx. unfold WalkSteps.entering.
  generalize (arrive (el_ref el) ctx). intros c0.
  set (c1 := match getAttribute "id" (el_attributes el) with
             | Some i => set_currentId (Some i) c0 | None => c0 end).
  assert (E1 : f c1 = f c0) by (unfold c1; by destruct (getAttribute _ _)).
  clearbody c1. rewrite <- E1. clear E1 c0.
  set (c2 := if bool_decide (el_nodeName el ∈ NO_CLAUSE_AUTOLINK)
                && negb (inNoAutolink c1)
             then set_inNoAutolink true c1 else c1).
  assert (E2 : f c2 = f c1) by (unfold c2; by destruct (_ && _)).
  clearbody c2. rewrite <- E2. clear E2 c1.
  set (c3 := if bool_decide (el_nodeName el ∈ NO_EMD) && negb (inNoEmd c2)
             then set_inNoEmd true c2 else c2).
  assert (E3 : f c3 = f c2) by (unfold c3; by destruct (_ && _)).
  clearbody c3. rewrite <- E3.
  destruct (visitorMap !! el_nodeName el) as [v|] eqn:Hv; [|done].
  apply (Hb _ v el c3 Hv).
Qed.

Lemma leaving_keeps {A} (f : Context → A) :
  (∀ i c, f (set_currentId i c) = f c) →
  (∀ b c, f (set_inNoAutolink b c) = f c) →
  (∀ b c, f (set_inNoEmd b c) = f c) →
  (∀ st c, f (set_tagStack st c) = f c) →
  buildersKeep f visitorMap →
  ∀ el ctx visited, f (leaving el ctx visited) = f visited.
Proof.
  intros H1 H2 H3 H4 Hb el ctx visited. unfold WalkSteps.leaving.
  cbv zeta. rewrite H4, H1.
  set (c6 := match visitorMap !! el_nodeName el with
             | Some v => exit v el visited | None => visited end).
  assert (E6 : f c6 = f visited).
  { unfold c6. destruct (visitorMap !! el_nodeName el) as [v|] eqn:Hv; [|done].
    apply (Hb _ v el visited Hv). }
  clearbody c6. rewrite <- E6.
  destruct (_ && _); destruct (_ && _); by rewrite ?H3, ?H2.
Qed.

Lemma arrive_tagStack x ctx : tagStack (arrive x ctx) = x :: tagStack ctx.
Proof. unfold arrive. by case_decide. Qed.

Lemma text_tagStack x t resume ctx :
  tagStack (text x t resume ctx).1 = x :: tagStack ctx.
Proof.
  unfold text. pose proof (arrive_tagStack x ctx) as A.
  case_decide; simpl; [done|].
  destruct (inNoEmd (arrive x ctx)); simpl.
  - by destruct (inNoAutolink (arrive x ctx)).
  - destruct resume; simpl; by destruct (inNoAutolink _).
Qed.

Lemma leaving_tagStack el ctx visited :
  buildersKeep tagStack visitorMap →
  tagStack (leaving el ctx visited) = tail (tagStack visited).
Proof.
  intros Hb. unfold WalkSteps.leaving. cbv zeta. simpl. f_equal.
  set (c6 := match visitorMap !! el_nodeName el with
             | Some v => exit v el visited | None => visited end).
  assert (E6 : tagStack c6 = tagStack visited).
  { unfold c6. destruct (visitorMap !! el_nodeName el) as [v|] eqn:Hv; [|done].
    apply (Hb _ v el visited Hv). }
  clearbody c6. rewrite <- E6.
  by destruct (_ && _); destruct (_ && _).
Qed.


(** *** The tag stack *)

Lemma siblings_tagStack (nodes : list Node) :
  Forall (λ x, ∀ resume ctx, ∃ extra,
            tagStack (walk x resume ctx) = extra ++ tagStack ctx ∧
            texts x ≤ length extra ∧
            (plain x = true → length extra = texts x)) nodes →
  ∀ resume ctx, ∃ extra,
    tagStack (siblings walk nodes resume ctx) = extra ++ tagStack ctx ∧
    list_sum (map texts nodes) ≤ length extra ∧
    (forallb plain nodes = true → length extra = list_sum (map texts nodes)).
Proof.
  induction 1 as [|x rest Hx _ IH]; intros resume ctx; simpl.
  { by exists []. }
  destruct (Hx (nextSibling rest resume) ctx) as (e1 & H1 & L1 & P1).
  destruct (IH resume (walk x (nextSibling rest resume) ctx)) as (e2 & H2 & L2 & P2).
  exists (e2 ++ e1). rewrite H2, H1, app_assoc, length_app. split_and!; [done|lia|].
  intros [Hp1 Hp2]%andb_true_iff. rewrite P1, P2 by done. lia.
Qed.

Lemma anchors_tagStack spans ctx :
  buildersKeep tagStack visitorMap →
  tagStack (foldl (λ ctx span, element span None ctx) ctx spans) = tagStack ctx.
Proof.
  intros Hb. revert ctx. induction spans as [|sp spans IH]; intros ctx; simpl; [done|].
  rewrite IH, element_split, leaving_tagStack by done.
  rewrite (entering_keeps tagStack) by done. by rewrite arrive_tagStack.
Qed.

(** The tag stack is no stack of the open elements. A text node is pushed
    and never popped, and the pop that ends an element takes whatever is on
    top: after the walk of a node the stack is the one before it with one
    more entry for every text node met, as many as the parsed tree has
    below the node at the least, and exactly as many when no expansion adds
    nodes. *)
Theorem tag_stack_keeps_text_nodes :
  buildersKeep tagStack visitorMap →
  ∀ x resume ctx, ∃ extra,
    tagStack (walk x resume ctx) = extra ++ tagStack ctx ∧
    texts x ≤ length extra ∧
    (plain x = true → length extra = texts x).
Proof.
  intros Hb x.
  induction x as [n t emd IH|n name attrs children IH] using Node_forall_ind;
    intros resume ctx.
  - rewrite walk_Text.
    pose proof (text_tagStack (Parsed n) t resume ctx) as Ht.
    destruct (text (Parsed n) t resume ctx) as [c1 [|]]; simpl in *.
    + destruct (siblings_tagStack emd IH resume c1) as (e & He & Le & Pe).
      exists (e ++ [Parsed n]). rewrite He, Ht, <- app_assoc, length_app. simpl.
      split_and!; [done|lia|]. intros Hp. destruct emd; [|done].
      simpl in He. destruct e; simpl in *; [done|].
      apply (f_equal length) in He. simpl in He. rewrite length_app in He. lia.
    + exists [Parsed n]. split_and!; [done|simpl; lia|done].
  - rewrite walk_Element, element_split, leaving_tagStack by done.
    set (el := mkElementInfo (Parsed n) name attrs).
    assert (He : tagStack (entering el ctx) = Parsed n :: tagStack ctx).
    { rewrite (entering_keeps tagStack) by done. by rewrite arrive_tagStack. }
    destruct (match anchors n attrs, children with
              | [], [] => None
              | _, _ => Some (visitChildren n attrs children resume)
              end) as [visit|] eqn:Hv.
    + apply children_visit in Hv as ->. unfold Walk.visitChildren. simpl.
      destruct (siblings_tagStack children IH resume
                  (foldl (λ ctx span, element span None ctx) (entering el ctx)
                     (anchors n attrs))) as (e & Hs & Le & Pe).
      rewrite anchors_tagStack, He in Hs by done. rewrite Hs.
      destruct e as [|top e]; simpl in *.
      * exists []. split_and!; [done|simpl; lia|]. intros Hp. by rewrite <- Pe.
      * exists (e ++ [Parsed n]). rewrite <- app_assoc, length_app. simpl.
        split_and!; [done|lia|]. intros Hp. rewrite <- Pe by done. lia.
    + destruct (anchors n attrs), children; try done. rewrite He. simpl.
      by exists [].
Qed.


(** *** [_textNodes] *)

Lemma grown_refl t : grown t t.
Proof. by intros ns. Qed.

Lemma grown_trans t1 t2 t3 : grown t1 t2 → grown t2 t3 → grown t1 t3.
Proof. intros H1 H2 ns. by transitivity (default [] (t2 !! ns)). Qed.

Lemma remember_grown x ctx : grown (_textNodes ctx) (_textNodes (remember x ctx)).
Proof.
  intros ns. unfold remember. simpl.
  destruct (decide (ns = namespaceOf (last (clauseStack ctx)) ctx)) as [->|Hne].
  - rewrite lookup_insert_eq. simpl. by apply prefix_app_r.
  - by rewrite lookup_insert_ne.
Qed.

Lemma text_grown x t resume ctx :
  grown (_textNodes ctx) (_textNodes (text x t resume ctx).1).
Proof.
  unfold text. rewrite <- (arrive_textNodes x ctx).
  generalize (arrive x ctx). intros c0.
  case_decide; simpl; [apply grown_refl|].
  destruct (inNoEmd c0); simpl.
  - destruct (inNoAutolink c0); [apply grown_refl|apply remember_grown].
  - rewrite <- (expand_textNodes resume c0).
    destruct (inNoAutolink _); [apply grown_refl|apply remember_grown].
Qed.

Lemma siblings_grown (nodes : list Node) :
  Forall (λ x, ∀ resume ctx,
            grown (_textNodes ctx) (_textNodes (walk x resume ctx))) nodes →
  ∀ resume ctx, grown (_textNodes ctx) (_textNodes (siblings walk nodes resume ctx)).
Proof.
  intros H resume ctx.
  apply (siblings_keeps _ _ (λ c, grown (_textNodes ctx) (_textNodes c)));
    [|apply grown_refl].
  eapply Forall_impl; [exact H|]. simpl. intros y Hy r c Hc.
  by eapply grown_trans.
Qed.

Lemma textNodes_steps el ctx visited :
  buildersKeep _textNodes visitorMap →
  _textNodes (entering el ctx) = _textNodes ctx ∧
  _textNodes (leaving el ctx visited) = _textNodes visited.
Proof.
  intros Hb. split.
  - rewrite (entering_keeps _textNodes) by done. apply arrive_textNodes.
  - by rewrite (leaving_keeps _textNodes).
Qed.

Lemma anchors_textNodes spans ctx :
  buildersKeep _textNodes visitorMap →
  _textNodes (foldl (λ ctx span, element span None ctx) ctx spans) = _textNodes ctx.
Proof.
  intros Hb. revert ctx. induction spans as [|sp spans IH]; intros ctx; simpl; [done|].
  rewrite IH, element_split.
  destruct (textNodes_steps sp ctx (entering sp ctx) Hb) as [H1 H2]. congruence.
Qed.

(** The walk only adds to [_textNodes]: under every namespace the list
    after the walk of a node begins with the list before it. No entry is
    dropped, moved or changed, wherever the walk is in the document. *)
Theorem text_nodes_only_added :
  buildersKeep _textNodes visitorMap →
  ∀ x resume ctx ns,
    default [] (_textNodes ctx !! ns) `prefix_of`
    default [] (_textNodes (walk x resume ctx) !! ns).
Proof.
  intros Hb x. change (∀ resume ctx,
    grown (_textNodes ctx) (_textNodes (walk x resume ctx))).
  induction x as [n t emd IH|n name attrs children IH] using Node_forall_ind;
    intros resume ctx.
  - rewrite walk_Text.
    pose proof (text_grown (Parsed n) t resume ctx) as Ht.
    destruct (text (Parsed n) t resume ctx) as [c1 [|]]; simpl in *; [|done].
    eapply grown_trans; [done|]. by apply siblings_grown.
  - rewrite walk_Element, element_split.
    set (el := mkElementInfo (Parsed n) name attrs).
    destruct (textNodes_steps el ctx (entering el ctx) Hb) as [He _].
    destruct (match anchors n attrs, children with
              | [], [] => None
              | _, _ => Some (visitChildren n attrs children resume)
              end) as [visit|] eqn:Hv.
    + apply children_visit in Hv as ->.
      rewrite (proj2 (textNodes_steps el ctx _ Hb)). simpl.
      unfold Walk.visitChildren. rewrite <- He.
      rewrite <- (anchors_textNodes (anchors n attrs) (entering el ctx) Hb) at 1.
      by apply siblings_grown.
    + rewrite (proj2 (textNodes_steps el ctx _ Hb)), He. apply grown_refl.
Qed.

(** *** Elements in which emphasis is not expanded *)

Lemma arrive_unset x ctx :
  startEmd ctx = None →
  inNoEmd (arrive x ctx) = inNoEmd ctx ∧ startEmd (arrive x ctx) = None.
Proof. intros H. unfold arrive. simpl. rewrite H. by rewrite decide_False. Qed.

Lemma entering_noEmd el ctx :
  buildersKeep inNoEmd visitorMap → buildersKeep startEmd visitorMap →
  startEmd ctx = None →
  inNoEmd ctx = true ∨ el_nodeName el ∈ NO_EMD →
  inNoEmd (entering el ctx) = true ∧ startEmd (entering el ctx) = None.
Proof.
  intros Hb1 Hb2 Hs Hin.
  destruct (arrive_unset (el_ref el) ctx Hs) as [A1 A2]. split.
  2:{ by rewrite (entering_keeps startEmd). }
  unfold WalkSteps.entering. revert A1. generalize (arrive (el_ref el) ctx).
  intros c0 A1.
  set (c1 := match getAttribute "id" (el_attributes el) with
             | Some i => set_currentId (Some i) c0 | None => c0 end).
  assert (E1 : inNoEmd c1 = inNoEmd ctx).
  { unfold c1. by destruct (getAttribute _ _). }
  clearbody c1.
  set (c2 := if bool_decide (el_nodeName el ∈ NO_CLAUSE_AUTOLINK)
                && negb (inNoAutolink c1)
             then set_inNoAutolink true c1 else c1).
  assert (E2 : inNoEmd c2 = inNoEmd ctx) by (unfold c2; by destruct (_ && _)).
  clearbody c2.
  set (c3 := if bool_decide (el_nodeName el ∈ NO_EMD) && negb (inNoEmd c2)
             then set_inNoEmd true c2 else c2).
  assert (E3 : inNoEmd c3 = true).
  { unfold c3. rewrite E2. destruct (inNoEmd ctx) eqn:E; simpl.
    - by rewrite andb_false_r.
    - destruct Hin as [?|Hin]; [done|]. by rewrite bool_decide_eq_true_2. }
  clearbody c3.
  destruct (visitorMap !! el_nodeName el) as [v|] eqn:Hv; [|done].
  by rewrite (proj1 (Hb1 _ v el c3 Hv)).
Qed.

Lemma leaving_noEmd el ctx visited :
  buildersKeep inNoEmd visitorMap → buildersKeep startEmd visitorMap →
  startEmd ctx = None →
  inNoEmd ctx = true ∨ el_nodeName el ∈ NO_EMD →
  inNoEmd visited = true → startEmd visited = None →
  inNoEmd (leaving el ctx visited) = inNoEmd ctx ∧
  startEmd (leaving el ctx visited) = None.
Proof.
  intros Hb1 Hb2 Hs Hin Hv1 Hv2.
  destruct (arrive_unset (el_ref el) ctx Hs) as [A1 A2]. split.
  2:{ by rewrite (leaving_keeps startEmd). }
  unfold WalkSteps.leaving. cbv zeta. revert A1.
  generalize (arrive (el_ref el) ctx). intros c0 A1.
  set (c1 := match getAttribute "id" (el_attributes el) with
             | Some i => set_currentId (Some i) c0 | None => c0 end).
  assert (E1 : inNoEmd c1 = inNoEmd ctx).
  { unfold c1. by destruct (getAttribute _ _). }
  clearbody c1.
  set (changed := bool_decide (el_nodeName el ∈ NO_CLAUSE_AUTOLINK)
                  && negb (inNoAutolink c1)).
  set (c2 := if changed then set_inNoAutolink true c1 else c1).
  assert (E2 : inNoEmd c2 = inNoEmd ctx) by (unfold c2; by destruct changed).
  clearbody c2.
  set (c6 := match visitorMap !! el_nodeName el with
             | Some v => exit v el visited | None => visited end).
  assert (E6 : inNoEmd c6 = true).
  { unfold c6. destruct (visitorMap !! el_nodeName el) as [v|] eqn:Hv; [|done].
    by rewrite (proj2 (Hb1 _ v el visited Hv)). }
  clearbody c6. rewrite E2. simpl.
  destruct (inNoEmd ctx) eqn:E; simpl.
  - rewrite andb_false_r. by destruct changed.
  - destruct Hin as [?|Hin]; [done|]. by rewrite bool_decide_eq_true_2.
Qed.

Lemma text_noEmd x t resume ctx :
  inNoEmd ctx = true → startEmd ctx = None →
  (text x t resume ctx).2 = false ∧
  inNoEmd (text x t resume ctx).1 = true ∧
  startEmd (text x t resume ctx).1 = None.
Proof.
  intros H1 H2. destruct (arrive_unset x ctx H2) as [A1 A2]. rewrite H1 in A1.
  unfold text. case_decide; simpl; [done|]. rewrite A1. simpl.
  by destruct (inNoAutolink _).
Qed.

Lemma siblings_noEmd (nodes : list Node) :
  Forall (λ x, ∀ resume ctx, inNoEmd ctx = true → startEmd ctx = None →
            walk x resume ctx = walk (unexpanded x) resume ctx ∧
            inNoEmd (walk x resume ctx) = true ∧
            startEmd (walk x resume ctx) = None) nodes →
  ∀ resume ctx, inNoEmd ctx = true → startEmd ctx = None →
    siblings walk nodes resume ctx =
      siblings walk (map unexpanded nodes) resume ctx ∧
    inNoEmd (siblings walk nodes resume ctx) = true ∧
    startEmd (siblings walk nodes resume ctx) = None.
Proof.
  induction 1 as [|x rest Hx _ IH]; intros resume ctx H1 H2; simpl; [done|].
  assert (Hn : nextSibling (map unexpanded rest) resume = nextSibling rest resume).
  { destruct rest as [|[] ?]; done. }
  rewrite Hn.
  destruct (Hx (nextSibling rest resume) ctx H1 H2) as (E & F1 & F2).
  rewrite <- E. by apply IH.
Qed.

Lemma anchors_noEmd spans ctx :
  buildersKeep inNoEmd visitorMap → buildersKeep startEmd visitorMap →
  inNoEmd ctx = true → startEmd ctx = None →
  inNoEmd (foldl (λ ctx span, element span None ctx) ctx spans) = true ∧
  startEmd (foldl (λ ctx span, element span None ctx) ctx spans) = None.
Proof.
  intros Hb1 Hb2. revert ctx.
  induction spans as [|sp spans IH]; intros ctx H1 H2; simpl; [done|].
  destruct (entering_noEmd sp ctx) as [E1 E2]; auto.
  destruct (leaving_noEmd sp ctx (entering sp ctx)) as [L1 L2]; auto.
  apply IH; rewrite element_split; congruence.
Qed.

Lemma walk_noEmd :
  buildersKeep inNoEmd visitorMap → buildersKeep startEmd visitorMap →
  ∀ x resume ctx, startEmd ctx = None →
    inNoEmd ctx = true ∨
      (∃ n name attrs children,
         x = Element n name attrs children ∧ name ∈ NO_EMD) →
    walk x resume ctx = walk (unexpanded x) resume ctx ∧
    inNoEmd (walk x resume ctx) = inNoEmd ctx ∧
    startEmd (walk x resume ctx) = None.
Proof.
  intros Hb1 Hb2 x.
  induction x as [n t emd IH|n name attrs children IH] using Node_forall_ind;
    intros resume ctx Hs Hin.
  - destruct Hin as [Hin|(? & ? & ? & ? & ? & _)]; [|done].
    change (unexpanded (Text n t emd)) with (Text n t []).
    rewrite !walk_Text.
    destruct (text_noEmd (Parsed n) t resume ctx Hin Hs) as (T1 & T2 & T3).
    destruct (text (Parsed n) t resume ctx) as [c1 expanded]. simpl in *.
    rewrite T1. split_and!; congruence.
  - assert (Hin' : inNoEmd ctx = true ∨ name ∈ NO_EMD).
    { destruct Hin as [?|(? & ? & ? & ? & ? & ?)]; [by left|right; congruence]. }
    clear Hin.
    change (unexpanded (Element n name attrs children))
      with (Element n name attrs (map unexpanded children)).
    rewrite !walk_Element, !element_split.
    set (el := mkElementInfo (Parsed n) name attrs).
    destruct (entering_noEmd el ctx) as [E1 E2]; auto.
    assert (IH' : Forall (λ x, ∀ resume ctx, inNoEmd ctx = true →
              startEmd ctx = None →
              walk x resume ctx = walk (unexpanded x) resume ctx ∧
              inNoEmd (walk x resume ctx) = true ∧
              startEmd (walk x resume ctx) = None) children).
    { eapply Forall_impl; [exact IH|]. simpl. intros y Hy r c H1 H2.
      destruct (Hy r c H2) as (? & ? & ?); [by left|]. split_and!; congruence. }
    destruct (anchors_noEmd (anchors n attrs) (entering el ctx)) as [A1 A2]; auto.
    destruct (siblings_noEmd children IH' resume _ A1 A2) as (S1 & S2 & S3).
    destruct (anchors n attrs) as [|sp spans] eqn:Hsp.
    + destruct children as [|y children]; simpl map.
      * destruct (leaving_noEmd el ctx (entering el ctx)) as [L1 L2]; auto.
      * unfold Walk.visitChildren. rewrite Hsp.
        change (unexpanded y :: map unexpanded children)
          with (map unexpanded (y :: children)).
        rewrite <- S1.
        destruct (leaving_noEmd el ctx
                    (set_node (el_ref el)
                       (siblings walk (y :: children) resume
                          (foldl (λ ctx span, element span None ctx)
                             (entering el ctx) [])))) as [L1 L2]; auto.
    + unfold Walk.visitChildren. rewrite Hsp. rewrite <- S1.
      destruct (leaving_noEmd el ctx
                  (set_node (el_ref el)
                     (siblings walk children resume
                        (foldl (λ ctx span, element span None ctx)
                           (entering el ctx) (sp :: spans))))) as [L1 L2]; auto.
Qed.

(** Nothing is expanded inside [pre], [code], [emu-production], [emu-alg],
    [emu-grammar] and [emu-eqn]. When the walker meets such an element while
    no expansion waits for its end, the walk goes as if no text node below
    the element had an expansion, and the emphasis flag is afterwards as it
    was before the element. *)
Theorem no_emphasis_inside n name attrs children :
  buildersKeep inNoEmd visitorMap → buildersKeep startEmd visitorMap →
  name ∈ NO_EMD →
  ∀ resume ctx, startEmd ctx = None →
    walk (Element n name attrs children) resume ctx =
      walk (Element n name attrs (map unexpanded children)) resume ctx ∧
    inNoEmd (walk (Element n name attrs children) resume ctx) = inNoEmd ctx ∧
    startEmd (walk (Element n name attrs children) resume ctx) = None.
Proof.
  intros Hb1 Hb2 Hname resume ctx Hs.
  apply (walk_noEmd Hb1 Hb2 (Element n name attrs children)); [done|].
  right. by exists n, name, attrs, children.
Qed.

(** *** The id that the nodes below an element see *)

Lemma siblings_app pre y post resume ctx :
  siblings walk (pre ++ y :: post) resume ctx =
  siblings walk (y :: post) resume (siblings walk pre (Some (ref y)) ctx).
Proof.
  revert ctx. induction pre as [|x pre IH]; intros ctx; [done|].
  cbn [app siblings]. rewrite IH.
  assert (nextSibling (pre ++ y :: post) resume = nextSibling pre (Some (ref y)))
    as -> by by destruct pre.
  reflexivity.
Qed.

Lemma siblings_currentId nodes resume ctx :
  currentId (siblings walk nodes resume ctx) = currentId ctx.
Proof.
  apply (siblings_keeps _ _ (λ c, currentId c = currentId ctx)); [|done].
  apply Forall_forall. intros y _ r c Hc. by rewrite current_id_is_scoped_aux.
Qed.


Lemma anchors_currentId spans ctx :
  currentId (foldl (λ ctx span, element span None ctx) ctx spans) = currentId ctx.
Proof.
  revert ctx. induction spans as [|sp spans IH]; intros ctx; simpl; [done|].
  by rewrite IH, element_split, leaving_currentId.
Qed.

Lemma entering_currentId el ctx i :
  buildersKeep currentId visitorMap →
  getAttribute "id" (el_attributes el) = Some i →
  currentId (entering el ctx) = Some i.
Proof.
  intros Hb Hi. unfold WalkSteps.entering. rewrite Hi.
  generalize (arrive (el_ref el) ctx). intros c0.
  set (c1 := set_currentId (Some i) c0).
  assert (E1 : currentId c1 = Some i) by done. clearbody c1.
  set (c2 := if bool_decide (el_nodeName el ∈ NO_CLAUSE_AUTOLINK)
                && negb (inNoAutolink c1)
             then set_inNoAutolink true c1 else c1).
  assert (E2 : currentId c2 = Some i) by (unfold c2; by destruct (_ && _)).
  clearbody c2.
  set (c3 := if bool_decide (el_nodeName el ∈ NO_EMD) && negb (inNoEmd c2)
             then set_inNoEmd true c2 else c2).
  assert (E3 : currentId c3 = Some i) by (unfold c3; by destruct (_ && _)).
  clearbody c3.
  destruct (visitorMap !! el_nodeName el) as [v|] eqn:Hv; [|done].
  by rewrite (proj1 (Hb _ v el c3 Hv)).
Qed.


End Walker.


Lemma tag_stack_keeps_text_nodes_witness :
  ∃ extra,
    tagStack (Walk.walk {[ "PRE" ]} ∅ preformatted None start) =
      extra ++ tagStack start ∧
    texts preformatted ≤ length extra ∧
    (plain preformatted = true → length extra = texts preformatted).
Proof.
  apply (tag_stack_keeps_text_nodes {[ "PRE" ]} ∅ (no_builders tagStack)
           preformatted None start).
Defined.

Lemma text_nodes_only_added_witness :
  default [] (_textNodes start !! "<no location>") `prefix_of`
  default []
    (_textNodes (Walk.walk {[ "PRE" ]} ∅ preformatted None start)
       !! "<no location>").
Proof.
  apply (text_nodes_only_added {[ "PRE" ]} ∅ (no_builders _textNodes)
           preformatted None start "<no location>").
Defined.

Lemma no_emphasis_inside_witness :
  Walk.walk ∅ ∅ (Element 1 "PRE" [] [Text 2 "*x*" [Element 3 "EM" [] []]])
      None start =
    Walk.walk ∅ ∅
      (Element 1 "PRE" [] (map unexpanded [Text 2 "*x*" [Element 3 "EM" [] []]]))
      None start ∧
  inNoEmd (Walk.walk ∅ ∅
             (Element 1 "PRE" [] [Text 2 "*x*" [Element 3 "EM" [] []]])
             None start) = inNoEmd start ∧
  startEmd (Walk.walk ∅ ∅
              (Element 1 "PRE" [] [Text 2 "*x*" [Element 3 "EM" [] []]])
              None start) = None.
Proof.
  apply (no_emphasis_inside ∅ ∅ 1 "PRE" [] [Text 2 "*x*" [Element 3 "EM" [] []]]).
  - exact (no_builders inNoEmd).
  - exact (no_builders startEmd).
  - vm_compute. set_solver.
  - reflexivity.
Defined.


(** After [<p>x</p>] the paragraph is still on the tag stack. *)
Lemma paragraph_stays_on_the_stack :
  tagStack (Walk.walk ∅ ∅ paragraph None start) = [Parsed 1].
Proof. reflexivity. Qed.

End WalkMore.

Module GrammarMore.
Import Grammar GrammarFacts.

(** *** A match stays a match when the text goes on *)

Lemma literal_app lit t u rest :
  literal lit t = Some rest → literal lit (t +:+ u) = Some (rest +:+ u).
Proof.
  revert t. induction lit as [|a lit IH]; intros t; simpl.
  - by intros [= ->].
  - destruct t as [|b t]; [done|]. simpl.
    destruct (Ascii.eqb (lower a) (lower b)); [apply IH|done].
Qed.

Lemma closes_app t u : closes t = true → closes (t +:+ u) = true.
Proof.
  induction t as [|c t IH]; simpl; [done|].
  destruct (Ascii.eqb c ">"); [done|]. apply IH.
Qed.

Lemma afterName_app t u : afterName t = true → afterName (t +:+ u) = true.
Proof.
  unfold afterName. intros [Hb Hc]%andb_true_iff.
  rewrite (closes_app _ _ Hc), andb_true_r. by destruct t.
Qed.

Lemma named_app lit t u : named lit t = true → named lit (t +:+ u) = true.
Proof.
  unfold named. destruct (literal lit t) as [rest|] eqn:Hl; [|done].
  rewrite (literal_app _ _ u _ Hl). apply afterName_app.
Qed.

Lemma digit_app t u : digit t = true → digit (t +:+ u) = true.
Proof.
  destruct t as [|c t]; simpl; [done|].
  intros [-> Ha]%andb_true_iff. by apply afterName_app.
Qed.

Lemma afterWord_app t u :
  closes (afterWord t) = true → afterWord (t +:+ u) = afterWord t +:+ u.
Proof.
  induction t as [|c t IH]; simpl; [done|].
  destruct (isWord c); [apply IH|done].
Qed.

Lemma emuName_app t u : emuName t = true → emuName (t +:+ u) = true.
Proof.
  unfold emuName. destruct (literal "emu-" t) as [rest|] eqn:Hl; [|done].
  rewrite (literal_app _ _ u _ Hl). simpl.
  destruct rest as [|c rest]; simpl; [done|].
  destruct (isWord c); [|done]. intros Ha.
  rewrite afterWord_app; [by apply afterName_app|].
  by apply andb_true_iff in Ha as [_ ?].
Qed.

Lemma headingName_app t u : headingName t = true → headingName (t +:+ u) = true.
Proof.
  unfold headingName. intros [H|H]%orb_true_iff.
  - destruct (literal "h" t) as [rest|] eqn:Hl; [|done].
    rewrite (literal_app _ _ u _ Hl), (digit_app _ _ H). done.
  - rewrite (digit_app _ _ H). apply orb_true_r.
Qed.

Lemma name_app t u : name t = true → name (t +:+ u) = true.
Proof.
  unfold name. rewrite !orb_true_iff.
  intros [[[[[[H|H]|H]|H]|H]|H]|H].
  - rewrite (emuName_app _ _ H). tauto.
  - rewrite (headingName_app _ _ H). tauto.
  - rewrite (named_app _ _ _ H). tauto.
  - rewrite (named_app _ _ _ H). tauto.
  - rewrite (named_app _ _ _ H). tauto.
  - rewrite (named_app _ _ _ H). tauto.
  - rewrite (named_app _ _ _ H). tauto.
Qed.

Lemma tag_app t u : tag t = true → tag (t +:+ u) = true.
Proof.
  unfold tag. destruct (literal "<" t) as [rest|] eqn:Hl; [|done].
  rewrite (literal_app _ _ u _ Hl). intros [H|H]%orb_true_iff.
  - destruct (literal "/" rest) as [rest'|] eqn:Hs; [|done].
    by rewrite (literal_app _ _ u _ Hs), (name_app _ _ H).
  - rewrite (name_app _ _ H). apply orb_true_r.
Qed.

(** *** The text before the first match *)

Lemma exec_before i : ∀ t,
  (∀ j, j < i → tag (drop j t) = false) → exec (substring 0 i t) = None.
Proof.
  induction i as [|i IH]; intros t H.
  - by destruct t.
  - destruct t as [|c t]; [done|].
    change (substring 0 (S i) (String c t)) with (String c (substring 0 i t)).
    cbn [exec].
    destruct (tag (String c (substring 0 i t))) eqn:Ht.
    + apply (tag_app _ (drop i t)) in Ht.
      change (String c (substring 0 i t) +:+ drop i t)
        with (String c (substring 0 i t +:+ drop i t)) in Ht.
      pose proof (slice_drop i t) as Hs. unfold slice in Hs.
      rewrite Nat.sub_0_r in Hs. rewrite Hs in Ht.
      specialize (H 0). simpl in H. rewrite H in Ht; [done|lia].
    + rewrite IH; [done|]. intros j Hj. apply (H (S j)). lia.
Qed.

Lemma exec_None t : exec t = None → ∀ n, tag (drop n t) = false.
Proof.
  induction t as [|c t IH]; simpl.
  - destruct (tag "") eqn:Ht; [done|]. by intros _ [|n].
  - destruct (tag (String c t)) eqn:Ht; [done|].
    destruct (exec t); [done|]. intros _ [|n]; [done|]. by apply IH.
Qed.

Lemma recovered_quiet c : exec (recovered c) = None.
Proof.
  unfold recovered. destruct (exec c) as [i|] eqn:Hi; [|done].
  rewrite exec_first in Hi. destruct (first_Some tag c i Hi) as [_ Hb].
  unfold slice. rewrite Nat.sub_0_r. by apply exec_before.
Qed.

Lemma substring_drop n k t : substring n k t = substring 0 k (drop n t).
Proof.
  revert t. induction n as [|n IH]; intros t; [by destruct t|].
  destruct t as [|c t]; simpl; [by destruct k|]. apply IH.
Qed.

Lemma substring_all t : substring 0 (String.length t) t = t.
Proof. induction t as [|c t IH]; simpl; [done|]. by rewrite IH. Qed.

Lemma length_drop n t : String.length (drop n t) = String.length t - n.
Proof.
  revert t. induction n as [|n IH]; intros t; simpl; [lia|].
  destruct t as [|c t]; simpl; [done|]. apply IH.
Qed.

Lemma substring_none n t : substring n 0 t = "".
Proof.
  revert t. induction n as [|n IH]; intros [|c t]; simpl; try done.
Qed.

Lemma scanned_quiet start t :
  exec (slice start
          (match execFrom start t with
           | Some index => index
           | None => String.length t
           end) t) = None.
Proof.
  unfold execFrom, slice. case_decide as Hle.
  - destruct (exec (drop start t)) as [k|] eqn:Hk; simpl; rewrite substring_drop.
    + replace (start + k - start) with k by lia.
      rewrite exec_first in Hk. destruct (first_Some tag _ k Hk) as [_ Hb].
      by apply exec_before.
    + by rewrite <- length_drop, substring_all.
  - replace (String.length t - start) with 0 by lia. by rewrite substring_none.
Qed.

(** Whatever the element and wherever its text is taken from, the text
    handed to grammarkdown holds no tag that the regular expression matches:
    no start or end tag named emu- and a word, h and a digit, a digit, p, ul,
    table, pre or code. This holds also of the text that is read up to an
    end tag found in the source, which is not scanned a second time. *)
Theorem handed_text_has_no_listed_tag (node : GrammarNode) :
  exec (content node) = None ∧
  (∀ n, tag (drop n (content node)) = false) ∧
  recovered (content node) = content node.
Proof.
  assert (H : exec (content node) = None).
  { unfold content, taken. destruct (location node) as [loc|].
    2:{ apply recovered_quiet. }
    destruct (startTag loc) as [st|], (endTag loc) as [et|];
      first [apply recovered_quiet|apply scanned_quiet]. }
  split; [done|]. split; [by apply exec_None|].
  unfold recovered. by rewrite H.
Qed.

Lemma substring_app t u : substring 0 (String.length t) (t +:+ u) = t.
Proof. induction t as [|c t IH]; simpl; [by destruct u|]. by rewrite IH. Qed.

(** For an element that the parser found with both of its tags,
    grammarkdown is given the text between the tags, cut at the first tag
    that the regular expression matches; a text without such a tag is given
    as it is. *)
Theorem text_between_the_tags (text : string) :
  content (parsed text) = recovered text ∧
  (exec text = None → content (parsed text) = text).
Proof.
  assert (H : content (parsed text) = recovered text).
  { unfold content, taken, parsed. cbn [location startTag endTag source
      endOffset startOffset]. f_equal. unfold slice.
    replace (13 + String.length text - 13) with (String.length text) by lia.
    change (substring 0 (String.length text) (text +:+ "</emu-grammar>") = text).
    apply substring_app. }
  split; [done|]. intros Hn. rewrite H. unfold recovered. by rewrite Hn.
Qed.

Lemma text_between_the_tags_witness :
  content (parsed "A :: b c") = recovered "A :: b c" ∧
  (exec "A :: b c" = None → content (parsed "A :: b c") = "A :: b c").
Proof. exact (text_between_the_tags "A :: b c"). Defined.

End GrammarMore.

Module ReferenceMore.
Import References ReferenceFacts ReferenceGraph.

Lemma laterEntry_refl a : laterEntry a a.
Proof. by repeat split. Qed.

Lemma later_refl s : later s s.
Proof.
  split; try done.
  - intros e. destruct (entries s !! e); constructor. apply laterEntry_refl.
  - intros x. destruct (xrefs s !! x); constructor. by repeat split.
Qed.

Lemma later_trans s1 s2 s3 : later s1 s2 → later s2 s3 → later s1 s3.
Proof.
  intros [B1 X1 N1 E1 R1] [B2 X2 N2 E2 R2]. split; try congruence.
  - intros e. specialize (E1 e). specialize (E2 e).
    destruct E1 as [a b (Ha1 & Ha2 & Ha3 & Ha4)|]; inversion E2 as [b' c (Hb1 & Hb2 & Hb3 & Hb4)|];
      simplify_eq; constructor.
    repeat split; try congruence. by etrans.
  - intros x. specialize (R1 x). specialize (R2 x).
    destruct R1 as [a b (Ha1 & Ha2 & Ha3)|]; inversion R2 as [b' c (Hb1 & Hb2 & Hb3)|];
      simplify_eq; constructor.
    repeat split; try congruence. intros Ht. rewrite Hb3; [by apply Ha3|].
    by rewrite (Ha3 Ht).
Qed.

Lemma pushReferencingId_later e i s s' :
  pushReferencingId e i s = Done s' → later s s'.
Proof.
  unfold pushReferencingId. destruct (entries s !! e) as [entry|] eqn:He; [|done].
  simpl. intros [= <-]. split; simpl; try done.
  - intros e'. destruct (decide (e' = e)) as [->|Hne].
    + rewrite lookup_insert_eq, He. constructor. repeat split; simpl.
      by apply prefix_app_r.
    + rewrite lookup_insert_ne by done.
      destruct (entries s !! e'); constructor. apply laterEntry_refl.
  - intros x. destruct (xrefs s !! x); constructor. by repeat split.
Qed.

Lemma ensureId_later x xref s :
  xrefs s !! x = Some xref → later s (ensureId x xref s).2.
Proof.
  intros Hx. unfold ensureId. destruct (truthy (xref_id xref)) eqn:Ht; simpl.
  { apply later_refl. }
  split; simpl; try done.
  - intros e. destruct (entries s !! e); constructor. apply laterEntry_refl.
  - intros x'. destruct (decide (x' = x)) as [->|Hne].
    + rewrite lookup_insert_eq, Hx. constructor. repeat split. simpl.
      by rewrite Ht.
    + rewrite lookup_insert_ne by done.
      destruct (xrefs s !! x'); constructor. by repeat split.
Qed.

Lemma xrefTurn_later x s s' : xrefTurn x s = Done s' → later s s'.
Proof.
  unfold xrefTurn. destruct (xrefs s !! x) as [xref|] eqn:Hx; simpl; [|done].
  destruct (xref_entry xref ≫= _) as [[e entry]|];
    [|intros [= <-]; apply later_refl].
  case_decide; [intros [= <-]; apply later_refl|].
  pose proof (ensureId_later x xref s Hx) as Hl.
  destruct (ensureId x xref s) as [i s1]. simpl in Hl.
  destruct (resolved e entry s) as [t|]; simpl; [|done].
  intros Hp. eapply later_trans; [done|]. by eapply pushReferencingId_later.
Qed.

Lemma ntTurn_later prod s s' : ntTurn prod s = Done s' → later s s'.
Proof.
  unfold ntTurn.
  destruct (nt_entry prod ≫= _) as [[e entry]|]; [|intros [= <-]; apply later_refl].
  repeat case_decide; try (intros [= <-]; apply later_refl).
  intros Hp. eapply later_trans; [|by eapply pushReferencingId_later].
  split; simpl; try done.
  - intros e'. destruct (entries s !! e'); constructor. apply laterEntry_refl.
  - intros x. destruct (xrefs s !! x); constructor. by repeat split.
Qed.

Lemma forOf_later {A} (turn : A → Spec → Outcome Spec) xs s s' :
  (∀ x s1 s2, turn x s1 = Done s2 → later s1 s2) →
  forOf turn xs s = Done s' → later s s'.
Proof.
  intros Hturn.
  apply (forOf_invariant turn (λ _ s1, later s s1)); [apply later_refl|].
  intros _ x s1 s2 H1 _ H2. eapply later_trans; [done|]. by eapply Hturn.
Qed.

(** The pass only adds. Every biblio entry keeps its id, its [refId] and
    its namespace, and its referencing ids are those it had with others
    after them; every xref keeps its node and its entry, and its id if it
    had one; no entry or xref is added or lost, and the biblio finds what it
    found before. *)
Theorem referencing_ids_only_grow s s' :
  buildReferenceGraph s = Done s' →
  byId s' = byId s ∧ _xrefs s' = _xrefs s ∧ _ntRefs s' = _ntRefs s ∧
  (∀ e, option_Forall2 laterEntry (entries s !! e) (entries s' !! e)) ∧
  (∀ x, option_Forall2 laterXref (xrefs s !! x) (xrefs s' !! x)).
Proof.
  unfold buildReferenceGraph. intros Hrun.
  apply ReplacementFacts.bind_Done in Hrun as (s1 & H1 & H2).
  apply (forOf_later _ _ _ _ xrefTurn_later) in H1.
  assert (Hn : _ntRefs s1 = _ntRefs s) by apply H1.
  rewrite Hn in H2. apply (forOf_later _ _ _ _ ntTurn_later) in H2.
  assert (H0 : later s (set_counter 0 s)).
  { split; simpl; try done.
    - intros e. destruct (entries s !! e); constructor. apply laterEntry_refl.
    - intros x. destruct (xrefs s !! x); constructor. by repeat split. }
  destruct (later_trans _ _ _ H0 (later_trans _ _ _ H1 H2)). by repeat split.
Qed.

(** *** The ids that the pass makes *)

Lemma numbered_same s0 s1 s2 made :
  idAttribute s2 = idAttribute s1 → counter s2 = counter s1 →
  numbered s0 s1 made → numbered s0 s2 made.
Proof. intros Ha Hc (H1 & H2 & H3). unfold numbered. by rewrite Ha, Hc. Qed.

Lemma numbered_next s0 s1 s2 made n :
  idAttribute s2 = <[n := refName (counter s1)]> (idAttribute s1) →
  counter s2 = S (counter s1) →
  numbered s0 s1 made → numbered s0 s2 (<[n := counter s1]> made).
Proof.
  intros Ha Hc (H1 & H2 & H3). unfold numbered. rewrite Ha, Hc. split_and!.
  - intros n' k Hk. destruct (decide (n' = n)) as [->|Hne].
    + rewrite lookup_insert_eq in Hk. simplify_eq.
      split; [lia|by rewrite lookup_insert_eq].
    + rewrite lookup_insert_ne in Hk by done. destruct (H1 n' k Hk).
      split; [lia|by rewrite lookup_insert_ne].
  - intros n' Hn'. destruct (decide (n' = n)) as [->|Hne].
    + by rewrite lookup_insert_eq in Hn'.
    + rewrite lookup_insert_ne in Hn' by done.
      rewrite lookup_insert_ne by done. by apply H2.
  - intros n1 n2 k Hk1 Hk2.
    destruct (decide (n1 = n)) as [->|Hne1], (decide (n2 = n)) as [->|Hne2];
      try done.
    + rewrite lookup_insert_eq in Hk1. rewrite lookup_insert_ne in Hk2 by done.
      simplify_eq. destruct (H1 n2 _ Hk2). lia.
    + rewrite lookup_insert_eq in Hk2. rewrite lookup_insert_ne in Hk1 by done.
      simplify_eq. destruct (H1 n1 _ Hk1). lia.
    + rewrite lookup_insert_ne in Hk1, Hk2 by done. by eapply H3.
Qed.

Lemma pushReferencingId_ids e i s s' :
  pushReferencingId e i s = Done s' →
  idAttribute s' = idAttribute s ∧ counter s' = counter s.
Proof.
  unfold pushReferencingId. destruct (entries s !! e); simpl; [|done].
  by intros [= <-].
Qed.

Lemma xrefTurn_numbered s0 x s1 s2 made :
  xrefTurn x s1 = Done s2 → numbered s0 s1 made →
  ∃ made', numbered s0 s2 made'.
Proof.
  unfold xrefTurn. destruct (xrefs s1 !! x) as [xref|]; simpl; [|done].
  destruct (xref_entry xref ≫= _) as [[e entry]|]; [|intros [= <-]; eauto].
  case_decide; [intros [= <-]; eauto|].
  unfold ensureId. destruct (truthy (xref_id xref)).
  - destruct (resolved e entry s1) as [t|]; simpl; [|done].
    intros [Ha Hc]%pushReferencingId_ids Hn. exists made.
    by apply (numbered_same s0 s1).
  - destruct (resolved e entry s1) as [t|]; simpl; [|done].
    intros [Ha Hc]%pushReferencingId_ids Hn. simpl in Ha, Hc.
    exists (<[xref_node xref := counter s1]> made).
    by apply (numbered_next s0 s1).
Qed.

Lemma ntTurn_numbered s0 prod s1 s2 made :
  ntTurn prod s1 = Done s2 → numbered s0 s1 made →
  ∃ made', numbered s0 s2 made'.
Proof.
  unfold ntTurn.
  destruct (nt_entry prod ≫= _) as [[e entry]|]; [|intros [= <-]; eauto].
  repeat case_decide; try (intros [= <-]; eauto).
  intros [Ha Hc]%pushReferencingId_ids Hn. simpl in Ha, Hc.
  exists (<[nt_node prod := counter s1]> made).
  by apply (numbered_next s0 s1).
Qed.

(** The ids that the pass makes are distinct. A node whose id attribute
    the pass has changed has an id [_ref_k] with [k] below the final value
    of the counter, and two such nodes have different ids. An id that a
    node had before the pass may still be equal to one that the pass
    makes. *)
Theorem generated_ids_are_distinct s s' :
  buildReferenceGraph s = Done s' →
  (∀ n, idAttribute s' !! n ≠ idAttribute s !! n →
     ∃ k, k < counter s' ∧ idAttribute s' !! n = Some (refName k)) ∧
  (∀ n1 n2, n1 ≠ n2 →
     idAttribute s' !! n1 ≠ idAttribute s !! n1 →
     idAttribute s' !! n2 ≠ idAttribute s !! n2 →
     idAttribute s' !! n1 ≠ idAttribute s' !! n2).
Proof.
  unfold buildReferenceGraph. intros Hrun.
  apply ReplacementFacts.bind_Done in Hrun as (s1 & H1 & H2).
  assert (Hm1 : ∃ made, numbered s s1 made).
  { revert H1. apply (forOf_invariant xrefTurn (λ _ c, ∃ made, numbered s c made)).
    - exists ∅. split_and!; [done..|]. intros n1 n2 k Hk. by rewrite lookup_empty in Hk.
    - intros _ x c c' [made Hn] _ Hturn. by eapply xrefTurn_numbered. }
  assert (Hm : ∃ made, numbered s s' made).
  { revert H2. apply (forOf_invariant ntTurn (λ _ c, ∃ made, numbered s c made));
      [done|].
    intros _ x c c' [made Hn] _ Hturn. by eapply ntTurn_numbered. }
  destruct Hm as (made & M1 & M2 & M3).
  assert (Hch : ∀ n, idAttribute s' !! n ≠ idAttribute s !! n →
            ∃ k, made !! n = Some k).
  { intros n Hn. destruct (made !! n) as [k|] eqn:Hk; [by exists k|].
    by destruct Hn; apply M2. }
  split.
  - intros n Hn. destruct (Hch n Hn) as [k Hk]. exists k. by apply M1.
  - intros n1 n2 Hne Hn1 Hn2 Heq.
    destruct (Hch n1 Hn1) as [k1 Hk1], (Hch n2 Hn2) as [k2 Hk2].
    destruct (M1 n1 k1 Hk1) as [_ E1], (M1 n2 k2 Hk2) as [_ E2].
    rewrite E1, E2 in Heq.
    assert (Hk : refName k1 = refName k2) by congruence.
    apply refName_inj in Hk. subst k2. apply Hne. by eapply M3.
Qed.

(** *** A [refId] that leads nowhere *)

Lemma forOf_throws {A S} (body : A → S → Outcome S) (I : S → Prop) w xs x s :
  x ∈ xs → I s →
  (∀ y s1, y ∈ xs → I s1 →
     (∃ s2, body y s1 = Done s2 ∧ I s2) ∨ body y s1 = Thrown w) →
  (∀ s1, I s1 → body x s1 = Thrown w) →
  forOf body xs s = Thrown w.
Proof.
  intros Hx HI Hstep Hthrow. revert s HI.
  induction xs as [|y xs IH]; intros s HI; [by apply elem_of_nil in Hx|].
  simpl. apply elem_of_cons in Hx as [->|Hx].
  { by rewrite Hthrow. }
  destruct (Hstep y s) as [(s2 & -> & H2)| ->]; simpl; [by left|done| |done].
  apply IH; [done| |done]. intros z s1 Hz. apply Hstep. by right.
Qed.

Lemma dangling_later s s1 x : later s s1 → dangling s x → dangling s1 x.
Proof.
  intros Hl (xref & e & entry & Hx & Hxe & He & Hns & Hid & Hrid & Hby).
  pose proof (later_xrefs _ _ Hl x) as HX. rewrite Hx in HX.
  inversion HX as [a xref1 (X1 & X2 & X3) E1 E2|]; subst.
  pose proof (later_entries _ _ Hl e) as HE. rewrite He in HE.
  inversion HE as [a entry1 (N1 & N2 & N3 & N4) E3 E4|]; subst.
  exists xref1, e, entry1. rewrite (later_byId _ _ Hl), N1, N2, N3.
  split_and!; try done. congruence.
Qed.

Lemma dangling_turn s x :
  dangling s x → xrefTurn x s = Thrown "referencingIds of undefined".
Proof.
  intros (xref & e & entry & Hx & Hxe & He & Hns & Hid & Hrid & Hby).
  unfold xrefTurn. rewrite Hx. simpl. rewrite Hxe. simpl. rewrite He. simpl.
  rewrite decide_False by done. unfold resolved. rewrite Hid, Hrid, Hby. simpl.
  by destruct (ensureId x xref s).
Qed.

(** The stores hold the objects that the lists and the biblio name. *)
Lemma xrefTurn_or_throw s x s1 :
  later s s1 →
  (∀ y, y ∈ _xrefs s → is_Some (xrefs s !! y)) →
  (∀ r t, byId s !! r = Some t → is_Some (entries s !! t)) →
  x ∈ _xrefs s →
  (∃ s2, xrefTurn x s1 = Done s2 ∧ later s s2) ∨
  xrefTurn x s1 = Thrown "referencingIds of undefined".
Proof.
  intros Hl Hxs Hby Hx.
  assert (Hlive : ∀ t, is_Some (entries s !! t) → is_Some (entries s1 !! t)).
  { intros t [a Ha]. pose proof (later_entries _ _ Hl t) as HE.
    rewrite Ha in HE. inversion HE. by eexists. }
  destruct (Hxs x Hx) as [xref0 Hx0].
  pose proof (later_xrefs _ _ Hl x) as HX. rewrite Hx0 in HX.
  inversion HX as [a xref _ E1 E2|]; subst. symmetry in E2.
  destruct (xrefTurn x s1) as [s2|w|] eqn:Hturn.
  - left. exists s2. split; [done|]. eapply later_trans; [done|].
    by apply (xrefTurn_later x).
  - right. revert Hturn. unfold xrefTurn. rewrite E2. simpl.
    destruct (xref_entry xref ≫= _) as [[e entry]|] eqn:Hent; [|done].
    case_decide; [done|].
    destruct (ensureId x xref s1) as [i c] eqn:Hens.
    destruct (resolved e entry s1) as [t|] eqn:Hres; simpl; [|by intros [= <-]].
    unfold pushReferencingId.
    assert (Hc : entries c = entries s1).
    { pose proof (ensureId_entries x xref s1) as H'. by rewrite Hens in H'. }
    rewrite Hc.
    assert (Ht : is_Some (entries s1 !! t)).
    { revert Hres. unfold resolved. destruct (_ && _).
      - destruct (refId entry) as [r|]; simpl; [|done]. intros Hr.
        rewrite (later_byId _ _ Hl) in Hr. by eapply Hlive, Hby.
      - intros [= <-]. destruct (xref_entry xref) as [e'|]; simpl in Hent; [|done].
        destruct (entries s1 !! e') eqn:He'; simpl in Hent; [|done].
        simplify_eq. by eexists. }
    destruct Ht as [a ->]. done.
  - exfalso. revert Hturn. unfold xrefTurn. rewrite E2. simpl.
    destruct (xref_entry xref ≫= _) as [[e entry]|]; [|done].
    case_decide; [done|]. destruct (ensureId x xref s1) as [i c].
    destruct (resolved e entry s1) as [t|]; simpl; [|done].
    unfold pushReferencingId. by destruct (entries c !! t).
Qed.

(** A cross-reference whose entry has no id of its own and whose [refId]
    the biblio does not know ends the pass with a [TypeError]: the entry
    that [byId] does not find is used without a test. *)
Theorem dangling_refId_throws s x :
  (∀ y, y ∈ _xrefs s → is_Some (xrefs s !! y)) →
  (∀ r t, byId s !! r = Some t → is_Some (entries s !! t)) →
  x ∈ _xrefs s → dangling s x →
  buildReferenceGraph s = Thrown "referencingIds of undefined".
Proof.
  intros Hxs Hby Hx Hd. unfold buildReferenceGraph.
  assert (H0 : later s (set_counter 0 s)).
  { split; simpl; try done.
    - intros e. destruct (entries s !! e); constructor. apply laterEntry_refl.
    - intros y. destruct (xrefs s !! y); constructor. by repeat split. }
  rewrite (forOf_throws xrefTurn (λ c, later s c)
             "referencingIds of undefined" (_xrefs s) x (set_counter 0 s)); try done.
  - intros y s1 Hy Hl. by apply xrefTurn_or_throw.
  - intros s1 Hl. by apply dangling_turn, (dangling_later s).
Qed.

Lemma referencing_ids_only_grow_witness :
  ∃ s', buildReferenceGraph sample = Done s' ∧
    byId s' = byId sample ∧ _xrefs s' = _xrefs sample ∧
    _ntRefs s' = _ntRefs sample ∧
    (∀ e, option_Forall2 laterEntry (entries sample !! e) (entries s' !! e)) ∧
    (∀ x, option_Forall2 laterXref (xrefs sample !! x) (xrefs s' !! x)).
Proof.
  eexists. split; [vm_compute; reflexivity|].
  apply (referencing_ids_only_grow sample). vm_compute. reflexivity.
Defined.

Lemma generated_ids_are_distinct_witness :
  ∃ s', buildReferenceGraph sample = Done s' ∧
    (∀ n, idAttribute s' !! n ≠ idAttribute sample !! n →
       ∃ k, k < counter s' ∧ idAttribute s' !! n = Some (refName k)) ∧
    (∀ n1 n2, n1 ≠ n2 →
       idAttribute s' !! n1 ≠ idAttribute sample !! n1 →
       idAttribute s' !! n2 ≠ idAttribute sample !! n2 →
       idAttribute s' !! n1 ≠ idAttribute s' !! n2).
Proof.
  eexists. split; [vm_compute; reflexivity|].
  apply (generated_ids_are_distinct sample). vm_compute. reflexivity.
Defined.

Lemma dangling_refId_throws_witness :
  buildReferenceGraph orphan = Thrown "referencingIds of undefined".
Proof.
  apply (dangling_refId_throws orphan 0).
  - intros y Hy. apply list_elem_of_singleton in Hy as ->. by eexists.
  - intros r t Hr. simpl in Hr. by rewrite lookup_empty in Hr.
  - by left.
  - exists (mkXref 10 None (Some 0)),
      0, (mkEntry None (Some "sec-gone") "https://example.org/spec" []).
    by split_and!.
Defined.

End ReferenceMore.

Module WarningFacts.
Import Warnings.

Section WrapWarn.
Context (locate : Node → option Location)
        (attrValueLocation : string → Location → string → Z * Z)
        (offsetToLineAndColumn : string → nat → Z * Z).

Abbreviation wrapWarn := (Warnings.wrapWarn locate attrValueLocation offsetToLineAndColumn).
Abbreviation wrapWarns := (Warnings.wrapWarns locate attrValueLocation offsetToLineAndColumn).

Lemma wrapWarn_placed e node loc src :
  nodeOf e = Some node → locate node = Some loc →
  err_source (wrapWarn e src).1 = Some (source loc) ∧
  err_file (wrapWarn e src).1 = file loc ∧
  (wrapWarn e src).2 = Some (source loc).
Proof.
  intros Hn Hl. destruct e; simpl in Hn; simplify_eq; simpl; rewrite Hl.
  - by destruct (isText node).
  - by destruct (attrValueLocation _ _ _).
  - by destruct (isText node).
Qed.

Lemma wrapWarn_unplaced e src :
  unplaced locate e →
  err_source (wrapWarn e src).1 = src ∧
  err_file (wrapWarn e src).1 = None ∧
  (wrapWarn e src).2 = src.
Proof.
  destruct e; simpl; try done.
  - by intros ->.
  - by intros ->.
  - by intros ->.
  - by intros ->.
Qed.

(** The source text reported with a warning can be that of another file.
    The function made by [wrapWarn] keeps the source in a variable that a
    warning about a located node overwrites for good. A later warning that
    brings no source of its own (a raw warning without a file, or one about
    a node that cannot be located) is then reported with no file and with
    the source of the earlier warning's file, whatever the source of the
    document is; warnings of type global in between change nothing and
    carry no source. *)
Theorem warning_source_is_stale e1 e2 node loc globals src :
  nodeOf e1 = Some node → locate node = Some loc →
  Forall (λ g, ∃ ruleId message, g = GlobalWarning ruleId message) globals →
  unplaced locate e2 →
  ∃ err1 errs err2,
    wrapWarns (e1 :: globals ++ [e2]) src = err1 :: errs ++ [err2] ∧
    err_source err1 = Some (source loc) ∧
    Forall (λ err, err_source err = None ∧ err_line err = None ∧
                   err_column err = None) errs ∧
    length errs = length globals ∧
    err_source err2 = Some (source loc) ∧ err_file err2 = None.
Proof.
  intros Hn Hl Hg Hu. cbn [Warnings.wrapWarns].
  destruct (wrapWarn_placed e1 node loc src Hn Hl) as (P1 & _ & P2).
  destruct (wrapWarn e1 src) as [err1 src1]. simpl in P1, P2. subst src1.
  exists err1.
  assert (Hrest : ∃ errs err2,
            wrapWarns (globals ++ [e2]) (Some (source loc)) = errs ++ [err2] ∧
            Forall (λ err, err_source err = None ∧ err_line err = None ∧
                           err_column err = None) errs ∧
            length errs = length globals ∧
            err_source err2 = Some (source loc) ∧ err_file err2 = None).
  { induction Hg as [|g globals (ruleId & message & ->) _ IH].
    - destruct (wrapWarn_unplaced e2 (Some (source loc)) Hu) as (U1 & U2 & _).
      simpl. destruct (wrapWarn e2 (Some (source loc))) as [err2 src2].
      exists [], err2. by split_and!.
    - destruct IH as (errs & err2 & E & F & L & S1 & S2).
      exists (mkError message ruleId None None "html" None None :: errs), err2.
      cbn [app Warnings.wrapWarns Warnings.wrapWarn]. rewrite E.
      split_and!; try done; [by constructor|simpl; by rewrite L]. }
  destruct Hrest as (errs & err2 & -> & F & L & S1 & S2).
  exists errs, err2. by split_and!.
Qed.

End WrapWarn.

Lemma warning_source_is_stale_witness :
  ∃ err1 errs err2,
    Warnings.wrapWarns locateSample (λ _ _ _, (1, 1)%Z) (λ _ _, (1, 1)%Z)
      (NodeWarning paragraphInImport "rule" "first" ::
       [GlobalWarning "rule" "second"] ++ [RawWarning "rule" "third" 1 1 None None])
      (Some "<emu-import href=part.html></emu-import>") =
      err1 :: errs ++ [err2] ∧
    err_source err1 = Some "<p>part</p>" ∧
    Forall (λ err, err_source err = None ∧ err_line err = None ∧
                   err_column err = None) errs ∧
    length errs = length [GlobalWarning "rule" "second"] ∧
    err_source err2 = Some "<p>part</p>" ∧ err_file err2 = None.
Proof.
  apply (warning_source_is_stale locateSample (λ _ _ _, (1, 1)%Z) (λ _ _, (1, 1)%Z)
           (NodeWarning paragraphInImport "rule" "first")
           (RawWarning "rule" "third" 1 1 None None) paragraphInImport
           (located (Some "part.html") "<p>part</p>"
              (mkElementLocation (mkTagLocation 1 1 0 3) 0 1 1))
           [GlobalWarning "rule" "second"]).
  - reflexivity.
  - reflexivity.
  - repeat constructor. by eexists _, _.
  - reflexivity.
Defined.

(** *** [locate] *)

Lemma climb_first pre pointer post :
  Forall (λ p, isEmuImportElement p = false) pre →
  isEmuImportElement pointer = true →
  climb (pre ++ pointer :: post) = Some pointer.
Proof.
  induction 1 as [|p pre Hp _ IH]; intros Hi; simpl.
  - by rewrite Hi.
  - rewrite Hp. by apply IH.
Qed.

Lemma climb_none chain :
  Forall (λ p, isEmuImportElement p = false) chain → climb chain = None.
Proof. induction 1 as [|p pre Hp _ IH]; simpl; [done|]. by rewrite Hp. Qed.

(** [locate] asks one document only. A node that lies in an import, or is
    the [emu-import] element itself, is looked up in the document of the
    nearest [emu-import] from the node upwards, and is reported with that
    import's path and source; when that import has no document yet, or its
    document does not know the node, there is no location, whatever the
    document of the specification or an outer import knows. A node outside
    every import is looked up in the document of the specification. *)
Theorem nearest_import_locates sourceText specDom node :
  (∀ pre pointer post,
     Forall (λ p, isEmuImportElement p = false) pre →
     isEmuImportElement pointer = true →
     locate sourceText specDom node (pre ++ pointer :: post) =
       match dom pointer with
       | Some d =>
         located (importPath pointer) (importSource pointer) <$> d node
       | None => None
       end) ∧
  (∀ chain,
     Forall (λ p, isEmuImportElement p = false) chain →
     locate sourceText specDom node chain =
       located None sourceText <$> specDom node).
Proof.
  split.
  - intros pre pointer post Hpre Hi. unfold locate.
    rewrite (climb_first pre pointer post Hpre Hi). by destruct (dom pointer).
  - intros chain Hc. unfold locate. by rewrite (climb_none chain Hc).
Qed.

End WarningFacts.

Module OptionFacts.
Import Options.

Section Constructor.
Context (dateString : Z → string) (now : Z).

Abbreviation constructor := (Options.constructor dateString now).
Abbreviation toString := (Options.toString dateString).
Abbreviation settle := (Options.settle dateString now).

Lemma get_insert k k' v (o : Object) :
  get k (<[k' := v]> o) = if decide (k = k') then v else get k o.
Proof.
  unfold get. case_decide as H.
  - subst. by rewrite lookup_insert_eq.
  - by rewrite lookup_insert_ne.
Qed.

Lemma get_orDefault_eq k v (o : Object) :
  get k (orDefault k v o) = if isUndefined (get k o) then v else get k o.
Proof.
  unfold orDefault. destruct (isUndefined (get k o)); [|done].
  by rewrite get_insert, decide_True.
Qed.

Lemma get_orDefault_ne k k' v (o : Object) :
  k ≠ k' → get k (orDefault k' v o) = get k o.
Proof.
  intros H. unfold orDefault. destruct (isUndefined (get k' o)); [|done].
  by rewrite get_insert, decide_False.
Qed.

Lemma get_unless_eq k (c : bool) v (o : Object) :
  get k (if c then o else <[k := v]> o) = if c then get k o else v.
Proof. destruct c; [done|]. by rewrite get_insert, decide_True. Qed.

Lemma get_unless_ne k k' (c : bool) v (o : Object) :
  k ≠ k' → get k (if c then o else <[k' := v]> o) = get k o.
Proof. intros H. destruct c; [done|]. by rewrite get_insert, decide_False. Qed.

Lemma get_when_eq k (c : bool) v (o : Object) :
  get k (if c then <[k := v]> o else o) = if c then v else get k o.
Proof. destruct c; [|done]. by rewrite get_insert, decide_True. Qed.

Lemma get_when_ne k k' (c : bool) v (o : Object) :
  k ≠ k' → get k (if c then <[k' := v]> o else o) = get k o.
Proof. intros H. destruct c; [|done]. by rewrite get_insert, decide_False. Qed.

Lemma processMetadata_opts metadata s0 s :
  (processMetadata metadata s0).1 = Done s →
  opts s = assign (opts s0) (fromMetadata metadata).
Proof.
  unfold assign. destruct metadata as [|[[[|[line|] [column|]] reason]|]|data];
    simpl; try done; intros [= <-]; simpl; by rewrite ?(left_id_L ∅ (∪)).
Qed.

(** What becomes of the value that the option [k] has once the metadata
    and the caller's options are in [opts]. *)
Lemma settle_get k (o : Object) :
  let v := get k o in
  get k (settle o) =
    if decide (k = "status") then (if isUndefined v then VString "proposal" else v)
    else if decide (k = "toc") then (if isUndefined v then VBoolean true else v)
    else if decide (k = "copyright") then (if isUndefined v then VBoolean true else v)
    else if decide (k = "ecma262Biblio") then
      (if isUndefined v then VBoolean true else v)
    else if decide (k = "date") then (if truthy v then v else VDate now)
    else if decide (k = "stage") then
      (if notNullish v then VString (toString v) else v)
    else if decide (k = "location") then
      (if truthy v then v else VString "<no location>")
    else v.
Proof.
  unfold Options.settle. cbv zeta.
  repeat case_decide; subst;
    repeat first
      [ rewrite get_unless_eq | rewrite get_when_eq | rewrite get_orDefault_eq
      | rewrite get_unless_ne by done | rewrite get_when_ne by done
      | rewrite get_orDefault_ne by done ];
    done.
Qed.

Lemma constructor_Done metadata given s ns :
  constructor metadata given = Done (s, ns) →
  opts s = settle (assign (fromMetadata metadata) (default ∅ given)) ∧
  ns = get "location" (opts s).
Proof.
  unfold Options.constructor. intros Hrun.
  apply ReplacementFacts.bind_Done in Hrun as (s1 & Hmeta & Hrun).
  apply processMetadata_opts in Hmeta. simpl in Hmeta.
  assert (Ho : opts s1 = fromMetadata metadata).
  { rewrite Hmeta. unfold assign. by rewrite (right_id_L ∅ (∪)). }
  rewrite Ho in Hrun. cbv zeta in Hrun. by simplify_eq.
Qed.

(** After the constructor, [status], [toc], [copyright] and
    [ecma262Biblio] are not undefined, [date] and [location] are not falsy,
    [stage] is a string unless it is null or undefined, and the namespace of
    the specification is the location. *)
Theorem options_after_construction metadata given s ns :
  constructor metadata given = Done (s, ns) →
  isUndefined (get "status" (opts s)) = false ∧
  isUndefined (get "toc" (opts s)) = false ∧
  isUndefined (get "copyright" (opts s)) = false ∧
  isUndefined (get "ecma262Biblio" (opts s)) = false ∧
  truthy (get "date" (opts s)) = true ∧
  truthy (get "location" (opts s)) = true ∧
  (get "stage" (opts s) = VUndefined ∨ get "stage" (opts s) = VNull ∨
   ∃ t, get "stage" (opts s) = VString t) ∧
  ns = get "location" (opts s).
Proof.
  intros [Ho ->]%constructor_Done. rewrite Ho.
  generalize (assign (fromMetadata metadata) (default ∅ given)). intros o.
  rewrite !settle_get. cbv zeta. simpl.
  split_and!; try done.
  - by destruct (get "status" o).
  - by destruct (get "toc" o).
  - by destruct (get "copyright" o).
  - by destruct (get "ecma262Biblio" o).
  - by destruct (truthy (get "date" o)) eqn:E.
  - by destruct (truthy (get "location" o)) eqn:E.
  - destruct (get "stage" o); simpl; eauto.
Qed.

Lemma get_assign k (target source : Object) :
  get k (assign target source) =
  match source !! k with
  | Some v => v
  | None => get k target
  end.
Proof.
  unfold get, assign. destruct (source !! k) as [v|] eqn:E.
  - by rewrite (lookup_union_Some_l _ _ _ _ E).
  - by rewrite lookup_union_r.
Qed.

(** An option that the caller passes makes the metadata block irrelevant
    for that option, also when the caller passes it as [undefined]: then the
    option gets its default though the metadata gives it a value. An option
    that the caller does not pass comes out as it would with the metadata
    alone. *)
Theorem caller_options_hide_metadata metadata given s ns k :
  constructor metadata (Some given) = Done (s, ns) →
  (∀ v, given !! k = Some v →
     get k (opts s) = get k (settle {[ k := v ]}) ∧
     ∀ metadata' s' ns',
       constructor metadata' (Some given) = Done (s', ns') →
       get k (opts s') = get k (opts s)) ∧
  (given !! "status" = Some VUndefined →
     get "status" (opts s) = VString "proposal") ∧
  (given !! k = None → get k (opts s) = get k (settle (fromMetadata metadata))).
Proof.
  intros [Ho _]%constructor_Done. simpl in Ho.
  assert (Hk : ∀ v, given !! k = Some v →
            get k (opts s) = get k (settle {[ k := v ]})).
  { intros v Hv. rewrite Ho, !settle_get. cbv zeta.
    assert (Hs : get k ({[ k := v ]} : Object) = v).
    { unfold get. by rewrite lookup_singleton_eq. }
    by rewrite get_assign, Hv, Hs. }
  split_and!.
  - intros v Hv. split; [by apply Hk|].
    intros metadata' s' ns' [Ho' _]%constructor_Done. simpl in Ho'.
    rewrite Ho, Ho', !settle_get. cbv zeta. by rewrite !get_assign, Hv.
  - intros Hv. rewrite Ho, settle_get. cbv zeta. by rewrite get_assign, Hv.
  - intros Hv. rewrite Ho, !settle_get. cbv zeta. by rewrite get_assign, Hv.
Qed.

(** [exportBiblio] cannot give its warning for a specification that the
    constructor has made: the location is never falsy then, and the biblio
    is exported under the location, which is ["<no location>"] when neither
    the caller nor the metadata gave one. *)
Theorem export_after_construction {J} (json : J) metadata given s ns :
  constructor metadata given = Done (s, ns) →
  Options.exportBiblio dateString json s = ({[ toString ns := json ]}, s) ∧
  let v := get "location" (assign (fromMetadata metadata) (default ∅ given)) in
  ns = if truthy v then v else VString "<no location>".
Proof.
  intros Hrun.
  destruct (options_after_construction _ _ _ _ Hrun) as (_ & _ & _ & _ & _ & Hl & _ & ->).
  unfold Options.exportBiblio. rewrite Hl. split; [done|].
  apply constructor_Done in Hrun as [-> _]. by rewrite settle_get.
Qed.

(** The constructor throws when the metadata block fails to parse with an
    exception that has no [mark], and in no other case; the block has been
    taken out of the document by then. A block that fails to parse in
    another way leaves one warning and the options as they are without a
    block. *)
Theorem metadata_failure metadata given :
  ((∃ w, constructor metadata given = Thrown w) ↔
   ∃ reason, metadata = Unparsable (Some (NoMark, reason))) ∧
  (∀ reason s0, metadata = Unparsable (Some (NoMark, reason)) →
     (processMetadata metadata s0).2 = true) ∧
  (∀ thrown s ns, metadata = Unparsable thrown →
     constructor metadata given = Done (s, ns) →
     ∃ w, warnings s = [w] ∧
          opts s = settle (default ∅ given) ∧
          constructor NoBlock given = Done (mkState (opts s) [], ns)).
Proof.
  split_and!.
  - split.
    + intros [w Hw]. unfold Options.constructor in Hw.
      destruct metadata as [|[[[|[line|] [column|]] reason]|]|data];
        simpl in Hw; try done. by exists reason.
    + intros [reason ->]. by eexists.
  - by intros reason s0 ->.
  - intros thrown s ns -> Hrun.
    pose proof (constructor_Done _ _ _ _ Hrun) as [Ho Hns]. simpl in Ho.
    assert (Ha : assign ∅ (default ∅ given) = default ∅ given).
    { unfold assign. by rewrite (right_id_L ∅ (∪)). }
    rewrite Ha in Ho.
    assert (Hw : ∃ w, warnings s = [w]).
    { unfold Options.constructor in Hrun.
      destruct thrown as [[[|[line|] [column|]] reason]|]; simpl in Hrun;
        try done; simplify_eq; simpl; by eexists. }
    destruct Hw as [w Hw]. exists w. split_and!; [done..|].
    unfold Options.constructor. simpl. rewrite Ha, <- Ho. by rewrite Hns.
Qed.

End Constructor.

Lemma options_after_construction_witness :
  ∃ s ns,
    Options.constructor (λ _, "date") 0 stage3 (Some fromCaller) = Done (s, ns) ∧
    isUndefined (get "status" (opts s)) = false ∧
    isUndefined (get "toc" (opts s)) = false ∧
    isUndefined (get "copyright" (opts s)) = false ∧
    isUndefined (get "ecma262Biblio" (opts s)) = false ∧
    truthy (get "date" (opts s)) = true ∧
    truthy (get "location" (opts s)) = true ∧
    (get "stage" (opts s) = VUndefined ∨ get "stage" (opts s) = VNull ∨
     ∃ t, get "stage" (opts s) = VString t) ∧
    ns = get "location" (opts s).
Proof.
  eexists _, _. split; [reflexivity|].
  apply (options_after_construction (λ _, "date") 0 stage3 (Some fromCaller)).
  reflexivity.
Defined.

Lemma caller_options_hide_metadata_witness :
  ∃ s ns,
    Options.constructor (λ _, "date") 0 stage3 (Some fromCaller) = Done (s, ns) ∧
    (∀ v, fromCaller !! "status" = Some v →
       get "status" (opts s) =
         get "status" (Options.settle (λ _, "date") 0 {[ "status" := v ]}) ∧
       ∀ metadata' s' ns',
         Options.constructor (λ _, "date") 0 metadata' (Some fromCaller) =
           Done (s', ns') →
         get "status" (opts s') = get "status" (opts s)) ∧
    (fromCaller !! "status" = Some VUndefined →
       get "status" (opts s) = VString "proposal") ∧
    (fromCaller !! "status" = None →
       get "status" (opts s) =
         get "status" (Options.settle (λ _, "date") 0 (fromMetadata stage3))).
Proof.
  eexists _, _. split; [reflexivity|].
  eapply (caller_options_hide_metadata (λ _, "date") 0 stage3 fromCaller).
  reflexivity.
Defined.

Lemma export_after_construction_witness :
  ∃ s ns,
    Options.constructor (λ _, "date") 0 stage3 (Some fromCaller) = Done (s, ns) ∧
    Options.exportBiblio (λ _, "date") 7 s =
      ({[ Options.toString (λ _, "date") ns := 7 ]}, s) ∧
    let v := get "location" (assign (fromMetadata stage3) (default ∅ (Some fromCaller))) in
    ns = if truthy v then v else VString "<no location>".
Proof.
  eexists _, _. split; [reflexivity|].
  apply (export_after_construction (λ _, "date") 0 7 stage3 (Some fromCaller)).
  reflexivity.
Defined.

(** The status that the metadata gives is lost when the caller passes
    [status] as [undefined]. *)
Lemma undefined_status_hides_the_draft :
  ∃ s ns,
    Options.constructor (λ _, "date") 0 stage3 (Some fromCaller) = Done (s, ns) ∧
    get "status" (opts s) = VString "proposal" ∧
    get "stage" (opts s) = VString "3" ∧
    ns = VString "https://example.org/".
Proof. eexists _, _. split; [reflexivity|]. by vm_compute. Qed.

End OptionFacts.

Module PageFacts.
Import Page.

Lemma outline_Element depth nodeName i classList childNodes :
  outline depth (Element nodeName i classList childNodes) =
  (depth, ElementLabel nodeName i classList) :: outlines (S depth) childNodes.
Proof.
  simpl. f_equal. induction childNodes as [|y rest IH]; simpl; [done|].
  by rewrite IH.
Qed.

Lemma setFirstH1Class_Element nodeName i classList childNodes :
  setFirstH1Class (Element nodeName i classList childNodes) =
  if String.eqb nodeName "H1"
  then (Element nodeName i (Replacement.classList_add "first" classList)
          childNodes, true)
  else (Element nodeName i classList (setFirstAmong childNodes).1,
        (setFirstAmong childNodes).2).
Proof.
  simpl. destruct (String.eqb nodeName "H1"); [done|].
  assert (H : (fix next (nodes : list Node) : list Node * bool :=
           match nodes with
           | [] => ([], false)
           | y :: rest =>
             let '(y, returned) := setFirstH1Class y in
             if returned then (y :: rest, true)
             else let '(rest, returned) := next rest in (y :: rest, returned)
           end) childNodes = setFirstAmong childNodes).
  { induction childNodes as [|y rest IH]; simpl; [done|]. by rewrite IH. }
  rewrite H. by destruct (setFirstAmong childNodes).
Qed.

(** Induction on trees, with the hypothesis for every child node. *)
Lemma Node_ind' (P : Node → Prop) :
  (∀ data, P (Text data)) →
  (∀ nodeName i classList childNodes,
     Forall P childNodes → P (Element nodeName i classList childNodes)) →
  ∀ x, P x.
Proof.
  intros HT HE. fix IH 1. intros [data|nodeName i classList childNodes].
  - apply HT.
  - apply HE. induction childNodes as [|y rest IHl]; constructor; [apply IH|apply IHl].
Qed.

Lemma firstMarked_among depth nodes :
  Forall (λ y, ∀ depth, firstMarked (outline depth y)
            (outline depth (setFirstH1Class y).1) (setFirstH1Class y).2) nodes →
  firstMarked (outlines depth nodes) (outlines depth (setFirstAmong nodes).1)
    (setFirstAmong nodes).2.
Proof.
  induction 1 as [|y rest Hy _ IH]; simpl.
  { left. by split_and!. }
  specialize (Hy depth). destruct (setFirstH1Class y) as [y' returned]. simpl in Hy.
  destruct Hy as [(-> & Hsame & Hnone)|(-> & pre & l & post & Hb & Hpre & Hl & Ha)].
  - destruct (setFirstAmong rest) as [rest' returned]. simpl in *.
    rewrite Hsame.
    destruct IH as [(-> & -> & Hrest)|(-> & pre & l & post & Hb & Hpre & Hl & Ha)].
    + left. split_and!; [done..|]. by apply Forall_app.
    + right. split; [done|]. exists (outline depth y ++ pre), l, post.
      rewrite Hb, Ha, <- !app_assoc. split_and!; try done. by apply Forall_app.
  - simpl. right. split; [done|]. exists pre, l, (post ++ outlines depth rest).
    rewrite Hb, Ha, <- !app_assoc. by split_and!.
Qed.

Lemma firstMarked_node x :
  ∀ depth, firstMarked (outline depth x) (outline depth (setFirstH1Class x).1)
             (setFirstH1Class x).2.
Proof.
  induction x as [data|nodeName i classList childNodes IH] using Node_ind';
    intros depth.
  - simpl. destruct (nonBlank data) eqn:E.
    + right. split; [done|]. exists [], (depth, TextLabel data), [].
      by split_and!.
    + left. split_and!; [done..|]. by repeat constructor.
  - rewrite setFirstH1Class_Element.
    destruct (String.eqb nodeName "H1") eqn:E; cbn [fst snd].
    + right. split; [done|]. rewrite !outline_Element.
      exists [], (depth, ElementLabel nodeName i classList),
        (outlines (S depth) childNodes). by split_and!.
    + rewrite !outline_Element.
      destruct (firstMarked_among (S depth) childNodes IH)
        as [(-> & -> & Hnone)|(-> & pre & l & post & Hb & Hpre & Hl & Ha)].
      * left. split_and!; [done..|]. by constructor.
      * right. split; [done|].
        exists ((depth, ElementLabel nodeName i classList) :: pre), l, post.
        rewrite Hb, Ha. split_and!; try done. by constructor.
Qed.

(** [setFirstH1Class] changes one node at the most. It goes through the
    nodes below [body] in document order up to the first that is a text
    node with more than white space or an [h1] element; if that node is an
    [h1] it gets the class [first], and nothing else in the document changes.
    An [h1] that comes after such a text, or after another [h1], is left
    alone. *)
Theorem first_heading_is_marked (body : Node) :
  let '(body', returned) := setFirstH1Class body in
  (returned = false ∧ outline 0 body' = outline 0 body ∧
   Forall (λ l, decisive l = false) (outline 0 body)) ∨
  (returned = true ∧
   ∃ pre l post, outline 0 body = pre ++ l :: post ∧
     Forall (λ l, decisive l = false) pre ∧ decisive l = true ∧
     outline 0 body' = pre ++ marked l :: post ∧
     (∀ data, l.2 = TextLabel data → outline 0 body' = outline 0 body)).
Proof.
  pose proof (firstMarked_node body 0) as H.
  destruct (setFirstH1Class body) as [body' returned]. simpl in H.
  destruct H as [?|(-> & pre & l & post & Hb & Hpre & Hl & Ha)]; [by left|].
  right. split; [done|]. exists pre, l, post. split_and!; try done.
  intros data Hd. rewrite Ha, Hb. destruct l as [d lab]. simpl in Hd. by subst.
Qed.

Example text_before_the_heading :
  (setFirstH1Class textFirst).1 = textFirst ∧
  (setFirstH1Class headingFirst).1 =
    Element "BODY" None []
      [Text " ";
       Element "DIV" None [] [Element "H1" None ["title"; "first"] [Text "Title"]];
       Element "H1" None [] [Text "Other"]].
Proof. split; vm_compute; reflexivity. Qed.

Lemma moveAll_app elements wrapped : moveAll elements wrapped = ([], wrapped ++ elements).
Proof.
  revert wrapped. induction elements as [|x rest IH]; intros wrapped; simpl.
  - by rewrite app_nil_r.
  - by rewrite IH, <- app_assoc.
Qed.

(** After [buildSpecWrapper] the body has one child node, the [div] with
    the id [spec-container], and the child nodes of that are those that the
    body had, all of them and in their order. *)
Theorem wrapper_holds_the_body (body : list Node) :
  buildSpecWrapper body = [Element "DIV" (Some "spec-container") [] body].
Proof. unfold buildSpecWrapper. by rewrite moveAll_app. Qed.

End PageFacts.
